(** * The Chance generator core: a shallow embedding and its properties

    The development follows the layout of the source file [chance.js]:
    the ECMAScript number operators the code relies on, the Mersenne
    Twister bit-stream engine, the [Chance] constructor, the sampling
    layer ([integer], [natural], [character], [string]), the helpers
    ([n], [pickone], [pickset], [shuffle], [weighted]), the Luhn family and
    [cc], and the keyed data tables ([copyObject], [get]).  [World] puts
    the instances of a program side by side, with the state they share
    and the host values they read.

    Numbers.  ECMAScript numbers are binary64 values.  Integer-valued
    quantities are modelled as [Z] and the real-valued ones as [Q], with
    the arithmetic carried out exactly; this is what the double arithmetic
    computes as long as every intermediate value is representable, and
    the statements say where that is relied upon.  Where it is not,
    near 2^53, the two part: [Binary64.integer] is [integer] on binary64
    values, and the properties of [integer] show the difference.  The 32-bit
    operators ([&], [|], [^], [<<], [>>>]) are modelled with their
    wrap-around. *)

From Stdlib Require Import ZArith QArith Qround Lia Ascii String.
From Stdlib Require Import DecimalString DecimalPos DecimalN.
From Stdlib Require PrimFloat FloatOps SpecFloat Uint63.
From stdpp Require Import base list strings gmap.

#[local] Open Scope Z_scope.

(** ** ECMAScript 32-bit integer operators *)

Module JS.

(** [ToUint32] and [ToInt32] on an integer-valued number. *)
Definition ToUint32 (x : Z) : Z := x mod 2 ^ 32.
Definition ToInt32 (x : Z) : Z := (x + 2 ^ 31) mod 2 ^ 32 - 2 ^ 31.

(** [a & b], [a | b], [a ^ b]: both operands through [ToInt32], the
    result is a signed 32-bit integer. *)
Definition band (a b : Z) : Z := Z.land (ToInt32 a) (ToInt32 b).
Definition bor (a b : Z) : Z := Z.lor (ToInt32 a) (ToInt32 b).
Definition bxor (a b : Z) : Z := Z.lxor (ToInt32 a) (ToInt32 b).

(** [a << n]: signed result; [a >>> n]: unsigned result.  The shift
    count is taken modulo 32. *)
Definition shl (a n : Z) : Z := ToInt32 (Z.shiftl (ToInt32 a) (Z.land n 31)).
Definition shru (a n : Z) : Z := Z.shiftr (ToUint32 a) (Z.land n 31).

(** Exceptions of the kinds the code throws. *)
Inductive error : Type :=
| RangeError (msg : string)
| TypeError (msg : string).

(** The outcome of a call: a value, or an exception. *)
Inductive result (A : Type) : Type :=
| Ok (a : A)
| Throw (e : error).
Arguments Ok {A} a.
Arguments Throw {A} e.

End JS.
Export JS.

(** ** The Mersenne Twister engine *)

Module Twister.

(* Period parameters *)
Definition N : nat := 624.
Definition M : nat := 397.
Definition MATRIX_A : Z := 0x9908b0df.
Definition UPPER_MASK : Z := 0x80000000.
Definition LOWER_MASK : Z := 0x7fffffff.

(** The object state: the array [mt] and the cursor [mti]. *)
Record MersenneTwister : Type := mkMT { mt : list Z; mti : nat }.

(** Reading [this.mt[i]]; a slot outside the array reads as
    [undefined], which the bit operators coerce to 0. *)
Definition at_ (a : list Z) (i : nat) : Z := default 0 (a !! i).

(** The body of the loop of [init_genrand] at [this.mti = i]. *)
Definition init_genrand_body (a : list Z) (i : nat) : list Z :=
  let s := bxor (at_ a (i - 1)) (shru (at_ a (i - 1)) 30) in
  let v := (shl (shru (band s 0xffff0000) 16 * 1812433253) 16
            + band s 0x0000ffff * 1812433253) + Z.of_nat i in
  <[ i := shru v 0 ]> a.

(** [for (this.mti = 1; this.mti < this.N; this.mti++) ...] *)
Fixpoint init_genrand_loop (fuel : nat) (st : MersenneTwister) : MersenneTwister :=
  match fuel with
  | O => st
  | S fuel' =>
      if bool_decide (mti st < N)%nat
      then init_genrand_loop fuel'
             (mkMT (init_genrand_body (mt st) (mti st)) (S (mti st)))
      else st
  end.

(** [init_genrand(s)]: initializes [mt[N]] with a seed. *)
Definition init_genrand (s : Z) (st : MersenneTwister) : MersenneTwister :=
  init_genrand_loop N (mkMT (<[ 0%nat := shru s 0 ]> (mt st)) 1).

(** The constructor.  An [undefined] seed is replaced by
    [Math.floor(Math.random()*Math.pow(10,13))], a value of the host
    environment that is passed here as [host_random]; the array is
    allocated with [N] slots and [mti = N + 1], then seeded. *)
Definition new (host_random : Z) (seed : option Z) : MersenneTwister :=
  let seed := match seed with Some s => s | None => host_random end in
  init_genrand seed (mkMT (replicate N 0) (N + 1)).

(** The entries of index below [m] are seeded: the first is the seed
    as a 32-bit word, each other one comes from the one before it. *)
Definition seeded (seed : Z) (m : nat) (a : list Z) : Prop :=
  length a = N
  ∧ a !! 0%nat = Some (seed mod 2 ^ 32)
  ∧ ∀ i, (i < m)%nat →
      ∃ p x, a !! (i - 1)%nat = Some p ∧ a !! i = Some x ∧ 0 <= x < 2 ^ 32
             ∧ ((1 <= i)%nat →
                x = (1812433253 * Z.lxor p (Z.shiftr p 30) + Z.of_nat i) mod 2 ^ 32).

(** One step of the regeneration loops: [y] from [mt[kk]] and
    [mt[kk + 1]], combined with [mt[src]]. *)
Definition mag01 (x : Z) : Z := if Z.eqb x 0 then 0 else MATRIX_A.

Definition twist_at (kk next src : nat) (a : list Z) : list Z :=
  let y := bor (band (at_ a kk) UPPER_MASK) (band (at_ a next) LOWER_MASK) in
  <[ kk := bxor (bxor (at_ a src) (shru y 1)) (mag01 (band y 1)) ]> a.

(** [for (kk = 0; kk < N - M; kk++)], then [for (; kk < N - 1; kk++)],
    then the last word. *)
Definition twist (a : list Z) : list Z :=
  let a1 := foldl (fun a kk => twist_at kk (kk + 1) (kk + M) a) a (seq 0 (N - M)) in
  let a2 := foldl (fun a kk => twist_at kk (kk + 1) (kk + M - N) a) a1
                  (seq (N - M) (N - 1 - (N - M))) in
  twist_at (N - 1) 0 (M - 1) a2.

(** The tempering transform. *)
Definition temper (y : Z) : Z :=
  let y := bxor y (shru y 11) in
  let y := bxor y (band (shl y 7) 0x9d2c5680) in
  let y := bxor y (band (shl y 15) 0xefc60000) in
  let y := bxor y (shru y 18) in
  shru y 0.

(** [genrand_int32()]: a random number on the [0,0xffffffff] interval. *)
Definition genrand_int32 (st : MersenneTwister) : Z * MersenneTwister :=
  let st1 :=
    if bool_decide (N <= mti st)%nat then
      let st0 := if bool_decide (mti st = N + 1)%nat
                 then init_genrand 5489 st else st in
      mkMT (twist (mt st0)) 0
    else st in
  (temper (at_ (mt st1) (mti st1)), mkMT (mt st1) (S (mti st1))).

(** [random()]: a random number on the [0,1) real interval, the draw
    times [1.0 / 4294967296.0]. *)
Definition random (st : MersenneTwister) : Q * MersenneTwister :=
  let (y, st') := genrand_int32 st in
  ((inject_Z y * (1 / 4294967296))%Q, st').

End Twister.

(** ** The generator object and its sampling layer *)

Module Chance.

Definition MAX_INT : Z := 9007199254740992.
Definition MIN_INT : Z := - MAX_INT.
Definition NUMBERS : string := "0123456789".
Definition CHARS_LOWER : string := "abcdefghijklmnopqrstuvwxyz".
Definition CHARS_UPPER : string := "ABCDEFGHIJKLMNOPQRSTUVWXYZ".
Definition HEX_POOL : string := NUMBERS +:+ "abcdef".

(** A seed component passed to the constructor: a string or a number
    (an integer-valued one). *)
Inductive seed_arg : Type :=
| SeedString (s : string)
| SeedNumber (n : Z).

(** The instance: [this.seed] ([None] for [undefined]) and [this.mt]. *)
Record chance : Type := mkChance { seed : option Z; mt : Twister.MersenneTwister }.

(** [s.charCodeAt(k)] for every [k], for a string of 8-bit characters. *)
Definition charCodes (s : string) : list Z :=
  (fun c => Z.of_N (N_of_ascii c)) <$> list_ascii_of_string s.

(** [for (k ...) hash = charCodeAt(k) + (hash << 6) + (hash << 16) - hash] *)
Definition hash_loop (codes : list Z) (hash : Z) : Z :=
  foldl (fun hash c => c + shl hash 6 + shl hash 16 - hash) hash codes.

(** The seedling of one constructor argument: for a string the loop
    over [j] adds, once per character, the hash computed by the loop
    over [k]; any other argument is used as it is. *)
Definition seedling_of (a : seed_arg) : Z :=
  match a with
  | SeedString s =>
      foldl (fun seedling _ => seedling + hash_loop (charCodes s) 0) 0 (charCodes s)
  | SeedNumber n => n
  end.

(** [for (i ...) this.seed += (arguments.length - i) * seedling], the
    sums taken exactly: they are the sums of the source, binary64
    values, as long as they stay within 2^53 in absolute value, and are
    rounded by the source past that. *)
Fixpoint seed_loop (len : Z) (i : Z) (args : list seed_arg) (seed : Z) : Z :=
  match args with
  | [] => seed
  | a :: rest => seed_loop len (i + 1) rest (seed + (len - i) * seedling_of a)
  end.

(** The seed the constructor computes: [undefined] without arguments,
    otherwise the combination that starts from zero. *)
Definition seed_of (args : list seed_arg) : option Z :=
  match args with
  | [] => None
  | _ => Some (seed_loop (Z.of_nat (length args)) 0 args 0)
  end.

(** [new Chance(...args)], for arguments that are not functions. *)
Definition new (host_random : Z) (args : list seed_arg) : chance :=
  let seed := seed_of args in
  mkChance seed (Twister.new host_random seed).

(** *** Calls on an instance: state passing with exceptions *)

Definition M (A : Type) : Type := chance -> result A * chance.

Definition ret {A} (a : A) : M A := fun c => (Ok a, c).
Definition throw {A} (e : error) : M A := fun c => (Throw e, c).
Definition bind {A B} (m : M A) (k : A -> M B) : M B :=
  fun c => match m c with
           | (Ok a, c') => k a c'
           | (Throw e, c') => (Throw e, c')
           end.

#[global] Instance chance_ret : MRet M := @ret.
#[global] Instance chance_bind : MBind M := fun A B k m => bind m k.

Definition testRange (test : bool) (errorMessage : string) : M unit :=
  if test then throw (RangeError errorMessage) else ret tt.

(** [this.random()], that is [this.mt.random(this.seed)]. *)
Definition random : M Q :=
  fun c => let (r, mt') := Twister.random (mt c) in
           (Ok r, mkChance (seed c) mt').

(** The instance after one more draw of the engine, and after [k]. *)
Definition draw (c : chance) : chance :=
  mkChance (seed c) (snd (Twister.genrand_int32 (mt c))).

Definition draws (k : nat) (c : chance) : chance := Nat.iter k draw c.

(** *** Basics *)

Record range_options : Type := mkRange { o_min : option Q; o_max : option Q }.

Definition Qgtb (a b : Q) : bool := negb (Qle_bool a b).
Definition Qltb (a b : Q) : bool := negb (Qle_bool b a).

(** [integer(options)], the arithmetic carried out exactly.  The
    source computes the same formula on binary64 values, which gives
    the same result as long as the product and the sum are
    representable; past that the sum is rounded, and for bounds next to
    2^53 the result can leave the range ([Binary64.integer]). *)
Definition integer (options : range_options) : M Z :=
  let min := default (inject_Z MIN_INT) (o_min options) in
  let max := default (inject_Z MAX_INT) (o_max options) in
  testRange (Qgtb min max) "Chance: Min cannot be greater than Max." ;;
  r ← random;
  mret (Qfloor (r * (max - min + 1) + min)).

Definition natural (options : range_options) : M Z :=
  let min := default 0%Q (o_min options) in
  let max := default (inject_Z MAX_INT) (o_max options) in
  testRange (Qltb min 0) "Chance: Min cannot be less than zero." ;;
  integer (mkRange (Some min) (Some max)).

Record character_options : Type := mkCharOpts {
  pool : option string; alpha : bool; symbols : bool; casing : option string }.

(** [pool.charAt(i)]: the empty string outside the string. *)
Definition charAt (pool : string) (i : Z) : string :=
  if i <? 0 then ""
  else match String.get (Z.to_nat i) pool with
       | Some c => String c ""
       | None => ""
       end.

Definition truthy_string (s : option string) : bool :=
  match s with Some (String _ _) => true | _ => false end.

(** The pool [character] draws from: [options.pool] when it holds
    something, otherwise the letters of the casing, the symbols, or all
    of them with the digits. *)
Definition character_pool (options : character_options) : string :=
  let symbols_ := "!@#$%^&*()[]" in
  let letters :=
    if bool_decide (casing options = Some "lower") then CHARS_LOWER
    else if bool_decide (casing options = Some "upper") then CHARS_UPPER
    else CHARS_LOWER +:+ CHARS_UPPER in
  if truthy_string (pool options) then default "" (pool options)
  else if alpha options then letters
  else if symbols options then symbols_
  else letters +:+ NUMBERS +:+ symbols_.

Definition character (options : character_options) : M string :=
  testRange (alpha options && symbols options)
            "Chance: Cannot specify both alpha and symbols." ;;
  let pool := character_pool options in
  i ← natural (mkRange None (Some (inject_Z (Z.of_nat (String.length pool) - 1))));
  mret (charAt pool i).

(** A multiple of 2^-32 whose numerator is at most 2^53 in absolute
    value: a number that binary64 holds exactly. *)
Definition binary64_exact (q : Q) : Prop :=
  ∃ k : Z, - 2 ^ 53 <= k <= 2 ^ 53 ∧ (q == k # 4294967296)%Q.

(** *** Helpers *)

(** [for (null; i--; null) arr.push(fn.apply(this, params))] *)
Fixpoint n_loop {A} (fn : M A) (i : nat) (arr : list A) : M (list A) :=
  match i with
  | O => mret arr
  | S i' => x ← fn; n_loop fn i' (arr ++ [x])
  end.

(** [n(fn, n, ...params)] for an integer count: [undefined] counts as
    1, a negative count as 0. *)
Definition n {A} (fn : M A) (n : option Z) : M (list A) :=
  n_loop fn (Z.to_nat (Z.max 0 (default 1 n))) [].

(** [arr.splice(j, 1)]: a negative start counts from the end. *)
Definition splice1 {B} (arr : list B) (j : Z) : list B :=
  let len := Z.of_nat (length arr) in
  let start := if j <? 0 then Z.max (len + j) 0 else Z.min j len in
  delete (Z.to_nat start) arr.

(** [arr.slice(0, count)]: a negative end counts from the end. *)
Definition slice0 {B} (arr : list B) (count : Z) : list B :=
  let len := Z.of_nat (length arr) in
  take (Z.to_nat (if count <? 0 then len + count else count)) arr.

Section Arrays.
Context {A : Type} (undefined : A).

(** [arr[i]]: [undefined] outside the array. *)
Definition index (arr : list A) (i : Z) : A :=
  if i <? 0 then undefined else default undefined (arr !! Z.to_nat i).

(** [arr[i] = v]: a write past the end extends the array, the slots
    in between being holes. *)
Definition array_set (arr : list A) (i : nat) (v : A) : list A :=
  if bool_decide (i < length arr)%nat then <[ i := v ]> arr
  else arr ++ replicate (i - length arr) undefined ++ [v].

Definition max_index (arr : list A) : range_options :=
  mkRange None (Some (inject_Z (Z.of_nat (length arr) - 1))).

(** The three arrays [shuffle] works with. *)
Record shuffle_vars : Type := mkShuffle {
  v_arr : list A; old_array : list A; new_array : list A }.

(** [for (var i = 0; i < length; i++)], with [todo = length - i]. *)
Fixpoint shuffle_loop (todo : nat) (i : nat) (v : shuffle_vars) : M shuffle_vars :=
  match todo with
  | O => mret v
  | S todo' =>
      (* Pick a random index from the array *)
      j ← natural (max_index (old_array v));
      (* Add it to the new array *)
      let new_array' := array_set (new_array v) i (index (old_array v) j) in
      (* Remove that element from the original array *)
      let old_array' := splice1 (old_array v) j in
      shuffle_loop todo' (S i) (mkShuffle (v_arr v) old_array' new_array')
  end.

(** [shuffle(arr)], with the arrays as they are when it returns. *)
Definition shuffle_run (arr : list A) : M shuffle_vars :=
  let old_array := arr (* arr.slice(0) *) in
  shuffle_loop (length old_array) 0 (mkShuffle arr old_array []).

Definition shuffle (arr : list A) : M (list A) :=
  v ← shuffle_run arr; mret (new_array v).

(** Given an array, returns a single random element *)
Definition pickone (arr : list A) : M A :=
  if bool_decide (length arr = 0%nat)
  then throw (RangeError "Chance: Cannot pickone() from an empty array")
  else i ← natural (max_index arr); mret (index arr i).

(** [pick(arr, count)]: one element, or an array of [count]. *)
Definition pick (arr : list A) (count : option Z) : M (A + list A) :=
  if bool_decide (length arr = 0%nat)
  then throw (RangeError "Chance: Cannot pick() from an empty array")
  else match count with
       | Some c =>
           if bool_decide (c = 0 ∨ c = 1)
           then i ← natural (max_index arr); mret (inl (index arr i))
           else a ← shuffle arr; mret (inr (slice0 a c))
       | None => i ← natural (max_index arr); mret (inl (index arr i))
       end.

(** Given an array, returns a random set with 'count' elements;
    [None] is a count that was not passed. *)
Definition pickset (arr : list A) (count : option Z) : M (list A) :=
  if bool_decide (count = Some 0) then mret []
  else if bool_decide (length arr = 0%nat)
  then throw (RangeError "Chance: Cannot pickset() from an empty array")
  else if match count with Some c => c <? 0 | None => false end
  then throw (RangeError "Chance: count must be positive number")
  else match count with
       | Some c =>
           if bool_decide (c = 1) then x ← pickone arr; mret [x]
           else a ← shuffle arr; mret (slice0 a c)
       | None => x ← pickone arr; mret [x]
       end.

(** The first loop of [weighted]: the sum of the valid entries. *)
Definition weights_sum (weights : list Q) : Q :=
  foldl (fun sum val => if Qgtb val 0 then (sum + val)%Q else sum) 0%Q weights.

(** The second loop of [weighted], at [weightIndex], over the
    entries from there on; [None] is [chosenIdx] still [undefined]. *)
Fixpoint weighted_scan (rest : list Q) (weightIndex len : nat) (selected total : Q)
         (lastGoodIdx : Z) (chosenIdx : option Z) : option Z :=
  match rest with
  | [] => chosenIdx
  | val :: rest' =>
      let total := (total + val)%Q in
      if Qgtb val 0 && Qle_bool selected total
      then Some (Z.of_nat weightIndex) (* break *)
      else
        let lastGoodIdx :=
          if Qgtb val 0 then Z.of_nat weightIndex else lastGoodIdx in
        (* handle any possible rounding error comparison to ensure
           something is picked *)
        let chosenIdx :=
          if bool_decide (weightIndex = len - 1)%nat
          then Some lastGoodIdx else chosenIdx in
        weighted_scan rest' (S weightIndex) len selected total lastGoodIdx chosenIdx
  end.

Definition index_opt (arr : list A) (i : option Z) : A :=
  match i with Some i => index arr i | None => undefined end.

(** [weighted(arr, weights, trim)]: the chosen element, then [arr]
    and [weights] as they are when it returns. *)
Definition weighted (arr : list A) (weights : list Q) (trim : option Datatypes.bool)
  : M (A * list A * list Q) :=
  if bool_decide (length arr ≠ length weights)
  then throw (RangeError "Chance: length of array and weights must match")
  else
    (* scan weights array and sum valid entries *)
    let sum := weights_sum weights in
    if Qeq_bool sum 0
    then throw (RangeError "Chance: no valid entries in array weights")
    else
      (* select a value within range *)
      r ← random;
      let selected := (r * sum)%Q in
      (* find array entry corresponding to selected value *)
      let chosenIdx :=
        weighted_scan weights 0 (length weights) selected 0%Q (-1) None in
      let chosen := index_opt arr chosenIdx in
      if default false trim
      then mret (chosen, splice1 arr (default 0 chosenIdx),
                         splice1 weights (default 0 chosenIdx))
      else mret (chosen, arr, weights).

End Arrays.

(** An index whose weight is strictly positive. *)
Definition positive_at (weights : list Q) (i : Z) : Prop :=
  0 <= i ∧ ∃ w, weights !! Z.to_nat i = Some w ∧ (0 < w)%Q.

(** *** Numbers and strings of decimal digits *)

(** A number that is an integer or [NaN]. *)
Abbreviation number := (option Z).
Definition NaN : number := None.

Definition is_digit (c : ascii) : Datatypes.bool :=
  (48 <=? Z.of_N (N_of_ascii c)) && (Z.of_N (N_of_ascii c) <=? 57).

Definition is_space (c : ascii) : Datatypes.bool :=
  bool_decide (Z.of_N (N_of_ascii c) ∈ [9; 10; 11; 12; 13; 32; 160]).

(** [+c] for a string of one character: a digit is its value, white
    space is 0, anything else is [NaN]. *)
Definition digit_value (c : ascii) : number :=
  if is_digit c then Some (Z.of_N (N_of_ascii c) - 48)
  else if is_space c then Some 0
  else NaN.

(** [+str] for a string of decimal digits, and for the empty string
    (which is 0).  The other forms of numeric literal (signs,
    fractions, exponents, hexadecimal, surrounding white space) are
    outside the model, which answers [NaN] for them.  The value is
    exact; a binary64 number holds it as long as it is below 2^53. *)
Definition Number (str : string) : number :=
  (fun d => Z.of_N (N.of_uint d)) <$> NilEmpty.uint_of_string str.

(** [x.toString()] for an integer or [NaN]. *)
Definition toString (x : number) : string :=
  match x with
  | None => "NaN"
  | Some z =>
      if z <? 0 then "-" +:+ NilZero.string_of_uint (N.to_uint (Z.to_N (- z)))
      else NilZero.string_of_uint (N.to_uint (Z.to_N z))
  end.

(** [str.substring(start, end)] for indices inside the string. *)
Definition substring (str : string) (start end_ : nat) : string :=
  String.substring start (end_ - start) str.

(** A string of decimal digits. *)
Definition all_digits (s : string) : Prop :=
  forallb is_digit (list_ascii_of_string s) = true.

(** *** The Luhn family *)

(** The loop of [luhn_calculate] over the reversed digits, at [i]. *)
Fixpoint luhn_loop (digits : list ascii) (i : nat) (sum : number) : number :=
  match digits with
  | [] => sum
  | c :: rest =>
      let digit := digit_value c in
      let digit :=
        if Nat.even i
        then (fun d => let d := d * 2 in if 9 <? d then d - 9 else d) <$> digit
        else digit in
      luhn_loop rest (S i) (s ← sum; d ← digit; Some (s + d))
  end.

(** [luhn_calculate(num)], on [num.toString()]. *)
Definition luhn_calculate (num : string) : number :=
  let digits := rev (list_ascii_of_string num) in
  let sum := luhn_loop digits 0 (Some 0) in
  (fun sum => Z.rem (sum * 9) 10) <$> sum.

(** [luhn_check(num)], on [num.toString()]; [===] is false on [NaN]. *)
Definition luhn_check (num : string) : Datatypes.bool :=
  let str := num in
  let checkDigit := Number (substring str (String.length str - 1) (String.length str)) in
  match checkDigit,
        luhn_calculate (toString (Number (substring str 0 (String.length str - 1)))) with
  | Some a, Some b => bool_decide (a = b)
  | _, _ => false
  end.

(** The check digit in the words of the specification: double every
    second digit from the right, subtract 9 from doubled digits greater
    than 9, sum, and return [(sum * 9) mod 10].  [from_right] lists the
    digits from the right, and [double] tells whether the first of them
    is one that is doubled. *)
Fixpoint luhn_sum (double : Datatypes.bool) (from_right : list Z) : Z :=
  match from_right with
  | [] => 0
  | d :: rest =>
      (if double then (if 9 <? 2 * d then 2 * d - 9 else 2 * d) else d)
      + luhn_sum (negb double) rest
  end.

Definition luhn_digit (digits : list Z) : Z := (luhn_sum true (rev digits) * 9) mod 10.

(** The Luhn test on a number that ends with its check digit: the sum,
    in which the check digit is not doubled, is a multiple of 10. *)
Definition luhn_valid (digits : list Z) : Prop := luhn_sum false (rev digits) mod 10 = 0.

(** *** Finance *)

(** An entry of the table [cc_types]. *)
Record cc_type_entry : Type := mkCcType {
  name : string; short_name : string; prefix : string; length : Z }.

(** An element of the array [number] that [cc] builds: a character of
    the prefix or a number. *)
Inductive piece : Type :=
| PStr (s : string)
| PNum (x : number).

(** [number.join("")] *)
Definition join (number : list piece) : string :=
  String.concat ""
    ((fun p => match p with PStr s => s | PNum x => toString x end) <$> number).

(** [prefix.split("")] *)
Definition split_chars (s : string) : list piece :=
  (fun c => PStr (String c "")) <$> list_ascii_of_string s.

(** [cc_type({name: name, raw: true})] over the array [types] that
    [cc_types()] returned; the entry, or [undefined]. *)
Definition cc_type_raw (types : list Chance.cc_type_entry) (name_ : option string)
  : M (option cc_type_entry) :=
  if truthy_string name_ then
    let wanted := default "" name_ in
    match List.find (fun t => bool_decide (name t = wanted ∨ short_name t = wanted)) types with
    | Some t => mret (Some t)
    | None => throw (RangeError
                ("Credit card type '" +:+ wanted +:+ "'' is not supported"))
    end
  else
    t ← pick None (Some <$> types) None;
    mret (match t with inl t => t | inr _ => None end).

Record cc_options : Type := mkCcOpts { type : option string }.

Definition cc (types : list Chance.cc_type_entry) (options : cc_options) : M string :=
  type ← cc_type_raw types (type options);
  match type with
  | None => throw (TypeError "Cannot read property 'prefix' of undefined")
  | Some type =>
      let number := split_chars (prefix type) in
      let to_generate := length type - Z.of_nat (String.length (prefix type)) - 1 in
      (* Generates n - 1 digits *)
      digits ← n (integer (mkRange (Some 0%Q) (Some 9%Q))) (Some to_generate);
      let number := number ++ ((fun d => PNum (Some d)) <$> digits) in
      (* Generates the last digit according to Luhn algorithm *)
      let number := number ++ [PNum (luhn_calculate (join number))] in
      mret (join number)
  end.

(** An entry whose prefix is made of digits and is shorter than the
    length, which is at most 16: the numbers generated for it have at
    most 15 digits before the check digit. *)
Definition cc_entry_ok (t : cc_type_entry) : Datatypes.bool :=
  forallb is_digit (list_ascii_of_string (prefix t))
  && (Z.of_nat (String.length (prefix t)) <? length t)
  && (length t <=? 16).

(** The table [cc_types] of the source. *)
Definition cc_types_table : list cc_type_entry := [
  mkCcType "American Express" "amex" "34" 15;
  mkCcType "Bankcard" "bankcard" "5610" 16;
  mkCcType "China UnionPay" "chinaunion" "62" 16;
  mkCcType "Diners Club Carte Blanche" "dccarte" "300" 14;
  mkCcType "Diners Club enRoute" "dcenroute" "2014" 15;
  mkCcType "Diners Club International" "dcintl" "36" 14;
  mkCcType "Diners Club United States & Canada" "dcusc" "54" 16;
  mkCcType "Discover Card" "discover" "6011" 16;
  mkCcType "InstaPayment" "instapay" "637" 16;
  mkCcType "JCB" "jcb" "3528" 16;
  mkCcType "Laser" "laser" "6304" 16;
  mkCcType "Maestro" "maestro" "5018" 16;
  mkCcType "Mastercard" "mc" "51" 16;
  mkCcType "Solo" "solo" "6334" 16;
  mkCcType "Switch" "switch" "4903" 16;
  mkCcType "Visa" "visa" "4" 16;
  mkCcType "Visa Electron" "electron" "4026" 16 ].

(** *** Time *)

(** What [new Date()] reads from the host clock. *)
Record Date : Type := mkDate { getTime : Z; getFullYear : Z; getMonth : Z }.

Definition timestamp (now : Date) : M Z :=
  natural (mkRange (Some 1%Q) (Some (inject_Z (Z.quot (getTime now) 1000)))).

Definition year (now : Date) (options : range_options) : M string :=
  (* Default to current year as min if none specified *)
  let min := default (inject_Z (getFullYear now)) (o_min options) in
  (* Default to one century after current year as max if none specified *)
  let max := default (min + 100)%Q (o_max options) in
  y ← natural (mkRange (Some min) (Some max));
  mret (toString (Some y)).

Record bool_options : Type := mkBoolOpts { likelihood : option Q }.

Definition bool (options : bool_options) : M Datatypes.bool :=
  let likelihood := default 50%Q (likelihood options) in
  testRange (Qltb likelihood 0 || Qgtb likelihood 100)
            "Chance: Likelihood accepts values from 0 to 100." ;;
  r ← random;
  mret (Qltb (r * 100) likelihood).

Record string_options : Type := mkStringOpts {
  length_ : option Z; char_options : character_options }.

(** [string(options)]: the default length is drawn while the defaults
    object is built, before the options are looked at. *)
Definition string (options : string_options) : M String.string :=
  d ← natural (mkRange (Some 5%Q) (Some 20%Q));
  let len := default d (length_ options) in
  testRange (len <? 0) "Chance: Length cannot be less than zero." ;;
  text ← n (character (char_options options)) (Some len);
  mret (String.concat "" text).

End Chance.

(** ** [integer] on binary64 values *)

(** The sampling layer above computes with exact numbers.  Here
    [integer] is given with the numbers of the source, binary64 values,
    to tell where the two part. *)

Module Binary64.

Definition float : Set := PrimFloat.float.

(** The number an integer literal denotes: exact from -2^53 to 2^53. *)
Definition of_Z (z : Z) : float :=
  if z <? 0 then PrimFloat.opp (PrimFloat.of_uint63 (Uint63.of_Z (- z)))
  else PrimFloat.of_uint63 (Uint63.of_Z z).

(** [Math.floor(x)], an integer; [None] for [NaN] and the infinities. *)
Definition floor (x : float) : option Z :=
  match FloatOps.Prim2SF x with
  | SpecFloat.S754_zero _ => Some 0
  | SpecFloat.S754_finite s m e =>
      let n := if s then Z.neg m else Z.pos m in
      Some (if 0 <=? e then n * 2 ^ e else n / 2 ^ (- e))
  | _ => None
  end.

(** [this.genrand_int32() * (1.0 / 4294967296.0)] *)
Definition random : Chance.M float :=
  fun c => let (y, mt') := Twister.genrand_int32 (Chance.mt c) in
           (Ok (PrimFloat.mul (of_Z y) (PrimFloat.div (of_Z 1) (of_Z 4294967296))),
            Chance.mkChance (Chance.seed c) mt').

(** [integer({min: min, max: max})] *)
Definition integer (min max : float) : Chance.M (option Z) :=
  Chance.testRange (PrimFloat.ltb max min) "Chance: Min cannot be greater than Max." ;;
  r ← random;
  mret (floor (PrimFloat.add (PrimFloat.mul r (PrimFloat.add (PrimFloat.sub max min) (of_Z 1)))
                             min)).

End Binary64.

(** ** The keyed data tables *)

Module Data.

(** Objects live in a store and are referred to by location, so that
    two references to one object see each other's writes. *)
Definition loc : Type := nat.

Inductive value : Type :=
| VUndefined
| VBool (b : bool)
| VNum (z : Z)
| VStr (s : string)
| VRef (l : loc).

(** An array with its elements, or a plain object with its own
    properties. *)
Inductive object : Type :=
| Arr (elems : list value)
| Obj (props : gmap string value).

(** The store, and the variable [data] that maps a table name to the
    table (every table is an array or an object). *)
Record store : Type := mkStore { heap : gmap loc object; data : gmap string loc }.

Definition truthy (v : value) : bool :=
  match v with
  | VUndefined => false
  | VBool b => b
  | VNum z => negb (z =? 0)
  | VStr s => negb (bool_decide (s = ""))
  | VRef _ => true
  end.

(** [_copyArray(source, target)] into a new [Array(source.length)]. *)
Definition _copyArray (source : list value) : list value :=
  foldl (fun target i => <[ i := default VUndefined (source !! i) ]> target)
        (replicate (length source) VUndefined) (seq 0 (length source)).

(** [_copyObject(source, target)]:
    [target[key] = source[key] || target[key]] for each key. *)
Definition _copyObject (source target : gmap string value) : gmap string value :=
  map_fold (fun key v target =>
              <[ key := if truthy v then v else default VUndefined (target !! key) ]> target)
           target source.

(** [copyObject(source)] without a target: a new array or object is
    allocated and filled. *)
Definition copyObject (source : loc) (h : gmap loc object)
  : result value * gmap loc object :=
  match h !! source with
  | Some (Arr elems) =>
      let l := fresh (dom h) in
      (Ok (VRef l), <[ l := Arr (_copyArray elems) ]> h)
  | Some (Obj props) =>
      let l := fresh (dom h) in
      (Ok (VRef l), <[ l := Obj (_copyObject props ∅) ]> h)
  | None => (Throw (TypeError "Cannot convert undefined or null to object"), h)
  end.

(** Get the data based on key *)
Definition get (name : string) (s : store) : result value * store :=
  match data s !! name with
  | Some l =>
      let (r, h) := copyObject l (heap s) in (r, mkStore h (data s))
  | None => (Throw (TypeError "Cannot convert undefined or null to object"), s)
  end.

(** A mutation of the object at [l] (an assignment to an element or a
    property, [push], [splice], ...) leaves [after] as its contents. *)
Definition mutate (l : loc) (after : object) (s : store) : store :=
  mkStore (<[ l := after ]> (heap s)) (data s).

(** What a value holds, objects followed to depth [fuel]. *)
#[warnings="-register-all"] Inductive tree : Type :=
| TLeaf (v : value)
| TArr (elems : list tree)
| TObj (props : gmap string tree)
| TCut.

Fixpoint contents (fuel : nat) (h : gmap loc object) (v : value) : tree :=
  match v with
  | VRef l =>
      match fuel with
      | O => TCut
      | S fuel' =>
          match h !! l with
          | Some (Arr elems) => TArr (contents fuel' h <$> elems)
          | Some (Obj props) => TObj (contents fuel' h <$> props)
          | None => TCut
          end
      end
  | _ => TLeaf v
  end.

(** The contents of the table [name]. *)
Definition table (fuel : nat) (name : string) (s : store) : option tree :=
  (fun l => contents fuel (heap s) (VRef l)) <$> data s !! name.

(** Every reference in the store leads to an object of the store. *)
Definition value_ok (h : gmap loc object) (v : value) : Prop :=
  match v with VRef l => is_Some (h !! l) | _ => True end.

Definition object_ok (h : gmap loc object) (o : object) : Prop :=
  match o with
  | Arr elems => Forall (value_ok h) elems
  | Obj props => map_Forall (fun _ v => value_ok h v) props
  end.

Definition store_ok (s : store) : Prop :=
  map_Forall (fun _ o => object_ok (heap s) o) (heap s)
  ∧ map_Forall (fun _ l => is_Some (heap s !! l)) (data s).

#[global] Instance value_ok_dec h v : Decision (value_ok h v).
Proof. destruct v; cbn; apply _. Defined.

#[global] Instance object_ok_dec h o : Decision (object_ok h o).
Proof. destruct o; cbn; apply _. Defined.

#[global] Instance store_ok_dec s : Decision (store_ok s).
Proof. unfold store_ok. apply _. Defined.

(** The one-level copy of an object: an array element by element, an
    object property by property, a value that is not truthy being read
    back as [undefined]. *)
Definition one_level (o : object) : object :=
  match o with
  | Arr elems => Arr elems
  | Obj props => Obj ((fun v => if truthy v then v else VUndefined) <$> props)
  end.

(** A store with the table [cc_types] holding one entry. *)
Definition one_entry_store : store :=
  mkStore
    (<[ 1%nat := Arr [VRef 2%nat] ]>
       (<[ 2%nat := Obj (<[ "prefix" := VStr "34" ]> ∅) ]> ∅))
    (<[ "cc_types" := 1%nat ]> ∅).

End Data.

(** ** More of the engine: the other outputs *)

Module Outputs.

(** [genrand_int31()]: a random number on the [0,0x7fffffff] interval. *)
Definition genrand_int31 (st : Twister.MersenneTwister) : Z * Twister.MersenneTwister :=
  let (y, st') := Twister.genrand_int32 st in (shru y 1, st').

(** [genrand_real3()]: a random number on the (0,1) real interval. *)
Definition genrand_real3 (st : Twister.MersenneTwister) : Q * Twister.MersenneTwister :=
  let (y, st') := Twister.genrand_int32 st in
  (((inject_Z y + (1 # 2)) * (1 / 4294967296))%Q, st').

(** [genrand_res53()]: a random number on [0,1) with 53-bit resolution,
    from two draws. *)
Definition genrand_res53 (st : Twister.MersenneTwister) : Q * Twister.MersenneTwister :=
  let (y1, st1) := Twister.genrand_int32 st in
  let a := shru y1 5 in
  let (y2, st2) := Twister.genrand_int32 st1 in
  let b := shru y2 6 in
  (((inject_Z a * 67108864 + inject_Z b) * (1 / 9007199254740992))%Q, st2).

(** One step of the loops of [init_by_array], at [mt[i]]; the addend is
    [None] when it is not a number ([init_key[j]] past the end of the
    key), and the word is then 0. *)
Definition key_step (mult : Z) (addend : option Z) (a : list Z) (i : nat) : list Z :=
  let s := bxor (Twister.at_ a (i - 1)) (shru (Twister.at_ a (i - 1)) 30) in
  let x := bxor (Twister.at_ a i)
                (shl (shru (band s 0xffff0000) 16 * mult) 16 + band s 0x0000ffff * mult) in
  <[ i := match addend with Some d => shru (x + d) 0 | None => 0 end ]> a.

(** [i++; if (i >= N) { mt[0] = mt[N-1]; i = 1; }] *)
Definition next_i (a : list Z) (i : nat) : list Z * nat :=
  if bool_decide (Twister.N <= S i)%nat
  then (<[ 0%nat := Twister.at_ a (Twister.N - 1) ]> a, 1%nat)
  else (a, S i).

(** [for (; k; k--)] of the first loop. *)
Fixpoint init_by_array_loop1 (k : nat) (init_key : list Z) (key_length : nat)
         (a : list Z) (i j : nat) : list Z * nat :=
  match k with
  | O => (a, i)
  | S k' =>
      let a := key_step 1664525 ((fun w => w + Z.of_nat j) <$> init_key !! j) a i in
      let (a, i) := next_i a i in
      let j := if bool_decide (key_length <= S j)%nat then 0%nat else S j in
      init_by_array_loop1 k' init_key key_length a i j
  end.

(** [for (k = N - 1; k; k--)] of the second loop. *)
Fixpoint init_by_array_loop2 (k : nat) (a : list Z) (i : nat) : list Z :=
  match k with
  | O => a
  | S k' =>
      let a := key_step 1566083941 (Some (- Z.of_nat i)) a i in
      let (a, i) := next_i a i in
      init_by_array_loop2 k' a i
  end.

(** [init_by_array(init_key, key_length)]: initialize by an array. *)
Definition init_by_array (init_key : list Z) (key_length : nat)
           (st : Twister.MersenneTwister) : Twister.MersenneTwister :=
  let st := Twister.init_genrand 19650218 st in
  let k := if bool_decide (key_length < Twister.N)%nat then Twister.N else key_length in
  let (a, i) := init_by_array_loop1 k init_key key_length (Twister.mt st) 1 0 in
  let a := init_by_array_loop2 (Twister.N - 1) a i in
  (* MSB is 1; assuring non-zero initial array *)
  Twister.mkMT (<[ 0%nat := 0x80000000 ]> a) (Twister.mti st).

End Outputs.

(** ** The 32-bit helpers of the MD5 implementation *)

Module MD5.

(** [a >> n]: the sign-propagating shift. *)
Definition sar (a n : Z) : Z := Z.shiftr (ToInt32 a) (Z.land n 31).

(** Add integers, wrapping at 2^32, with 16-bit operations. *)
Definition safe_add (x y : Z) : Z :=
  let lsw := band x 0xFFFF + band y 0xFFFF in
  let msw := sar x 16 + sar y 16 + sar lsw 16 in
  bor (shl msw 16) (band lsw 0xFFFF).

(** Bitwise rotate a 32-bit number to the left. *)
Definition bit_roll (num cnt : Z) : Z :=
  bor (shl num cnt) (shru num (32 - cnt)).

(** The basic operation of the algorithm. *)
Definition md5_cmn (q a b x s t : Z) : Z :=
  safe_add (bit_roll (safe_add (safe_add a q) (safe_add x t)) s) b.

End MD5.

(** ** Replacing a data table *)

Module Tables.

(** [set(name, values)] for a name that is a string: the table is the
    object passed, not a copy of it. *)
Definition set (name : string) (values : Data.loc) (s : Data.store) : Data.store :=
  Data.mkStore (Data.heap s) (<[ name := values ]> (Data.data s)).

End Tables.

(** ** More generators *)

Module Generators.

(** *** Helpers *)

(** [new Array(k).join(pad)]: [k] empty slots joined. *)
Definition array_join (k : nat) (sep : string) : string :=
  String.concat sep (replicate k "").

(** [pad(number, width, pad)], on [number + '']. *)
Definition pad (number : string) (width : Z) (pad : option string) : string :=
  (* Default pad to 0 if none provided *)
  let pad := if Chance.truthy_string pad then default "" pad else "0" in
  if width <=? Z.of_nat (String.length number) then number
  else array_join (Z.to_nat (width - Z.of_nat (String.length number) + 1)) pad +:+ number.

(** [a === b] on the values of a type: a number is never equal to
    [NaN], strings are compared by their characters and objects by
    reference. *)
Class StrictEq (A : Type) := strict_equal : A → A → bool.

(** Numbers that are integers. *)
#[global] Instance Z_strict : StrictEq Z := fun a b => bool_decide (a = b).

(** Numbers with [NaN], which is not equal to itself. *)
#[global] Instance number_strict : StrictEq Chance.number :=
  fun a b => match a, b with Some x, Some y => bool_decide (x = y) | _, _ => false end.

#[global] Instance string_strict : StrictEq string := fun a b => bool_decide (a = b).

(** Values of the store: two arrays or objects are equal when they are
    the same object. *)
#[global] Instance value_strict : StrictEq Data.value :=
  fun a b =>
    match a, b with
    | Data.VUndefined, Data.VUndefined => true
    | Data.VBool x, Data.VBool y => bool_decide (x = y)
    | Data.VNum x, Data.VNum y => bool_decide (x = y)
    | Data.VStr x, Data.VStr y => bool_decide (x = y)
    | Data.VRef x, Data.VRef y => bool_decide (x = y)
    | _, _ => false
    end.

(** The default comparator of [unique]: [arr.indexOf(val) !== -1],
    where [indexOf] looks for an element that is [===] to [val]. *)
Definition indexOf_found {A} `{StrictEq A} (arr : list A) (val : A) : bool :=
  existsb (fun a => strict_equal a val) arr.

(** The loop of [unique]; the result is [None] when the model has run
    out of fuel before the loop ended. *)
Fixpoint unique_loop {A} (fuel : nat) (fn : Chance.M A) (comparator : list A → A → bool)
         (num : Z) (arr : list A) (count : Z) : Chance.M (option (list A)) :=
  if Z.of_nat (length arr) <? num then
    match fuel with
    | O => mret None
    | S fuel' =>
        result ← fn;
        (* reset count when unique found *)
        let '(arr, count) :=
          if negb (comparator arr result) then (arr ++ [result], 0) else (arr, count) in
        let count := count + 1 in
        if num * 50 <? count
        then Chance.throw (RangeError "Chance: num is likely too large for sample set")
        else unique_loop fuel' fn comparator num arr count
    end
  else mret (Some arr).

(** Fuel that the loop cannot use up: at most [num * 50 + 1] calls for
    each of the [num] elements. *)
Definition unique_fuel (num : Z) : nat := Z.to_nat (num * (num * 50 + 1)).

(** [unique(fn, num, options)]; [None] for no [options.comparator]. *)
Definition unique {A} `{StrictEq A} (fn : Chance.M A) (num : Z)
           (comparator : option (list A → A → bool)) : Chance.M (option (list A)) :=
  unique_loop (unique_fuel num) fn (default indexOf_found comparator) num [] 0.

(** [outs] are the results of successive calls of [fn], none of which
    throws, from the engine state [c] to [c']. *)
Fixpoint successive {A} (fn : Chance.M A) (outs : list A) (c c' : Chance.chance) : Prop :=
  match outs with
  | [] => c' = c
  | x :: outs' => ∃ c1, fn c = (Ok x, c1) ∧ successive fn outs' c1 c'
  end.

(** No element is [===] to one before it. *)
Definition no_two_equal {A} `{StrictEq A} (r : list A) : Prop :=
  ∀ i j x y, (i < j)%nat → r !! i = Some x → r !! j = Some y → strict_equal x y = false.

(** The results kept out of [outs]: each one the comparator does not
    find among those kept before it. *)
Definition kept {A} (comparator : list A → A → bool) (arr : list A) (outs : list A) : list A :=
  foldl (fun arr x => if comparator arr x then arr else arr ++ [x]) arr outs.

(** *** Identifiers made of characters of a pool *)

Definition pool_string (pool : string) (len : Z) : Chance.M string :=
  Chance.string (Chance.mkStringOpts (Some len) (Chance.mkCharOpts (Some pool) false false None)).

Record hash_options : Type := mkHashOpts { h_length : option Z; h_casing : option string }.

Definition hash (options : hash_options) : Chance.M string :=
  let len := default 40 (h_length options) in
  let casing := default "lower" (h_casing options) in
  let pool := if bool_decide (casing = "upper") then "0123456789ABCDEF" else Chance.HEX_POOL in
  pool_string pool len.

Record guid_options : Type := mkGuidOpts { version : option Z }.

Definition guid (options : guid_options) : Chance.M string :=
  let version := default 5 (version options) in
  let guid_pool := "abcdef1234567890" in
  let variant_pool := "ab89" in
  s1 ← pool_string guid_pool 8;
  s2 ← pool_string guid_pool 4;
  (* The Version *)
  s3 ← pool_string guid_pool 3;
  (* The Variant *)
  s4 ← pool_string variant_pool 1;
  s5 ← pool_string guid_pool 3;
  s6 ← pool_string guid_pool 12;
  mret (s1 +:+ "-" +:+ s2 +:+ "-" +:+ Chance.toString (Some version) +:+ s3 +:+ "-"
        +:+ s4 +:+ s5 +:+ "-" +:+ s6).

Record ssn_options : Type := mkSsnOpts { ssnFour : option bool; dashes : option bool }.

Definition ssn (options : ssn_options) : Chance.M string :=
  let ssnFour := default false (ssnFour options) in
  let dashes := default true (dashes options) in
  let ssn_pool := "1234567890" in
  let dash := if dashes then "-" else "" in
  if negb ssnFour then
    a ← pool_string ssn_pool 3;
    b ← pool_string ssn_pool 2;
    c ← pool_string ssn_pool 4;
    mret (a +:+ dash +:+ b +:+ dash +:+ c)
  else pool_string ssn_pool 4.

(** *** Numbers in a range *)

Definition range (lo hi : Z) : Chance.range_options :=
  Chance.mkRange (Some (inject_Z lo)) (Some (inject_Z hi)).

(** The options of [hour], [minute] and [month], for integer bounds. *)
Record time_options : Type := mkTimeOpts {
  t_min : option Z; t_max : option Z; twentyfour : bool; raw : bool }.

Definition hour (options : time_options) : Chance.M Z :=
  let min := default (if twentyfour options then 0 else 1) (t_min options) in
  let max := default (if twentyfour options then 23 else 12) (t_max options) in
  Chance.testRange (min <? 0) "Chance: Min cannot be less than 0." ;;
  Chance.testRange (twentyfour options && (23 <? max))
    "Chance: Max cannot be greater than 23 for twentyfour option." ;;
  Chance.testRange (negb (twentyfour options) && (12 <? max))
    "Chance: Max cannot be greater than 12." ;;
  Chance.testRange (max <? min) "Chance: Min cannot be greater than Max." ;;
  Chance.natural (range min max).

Definition minute (options : time_options) : Chance.M Z :=
  let min := default 0 (t_min options) in
  let max := default 59 (t_max options) in
  Chance.testRange (min <? 0) "Chance: Min cannot be less than 0." ;;
  Chance.testRange (59 <? max) "Chance: Max cannot be greater than 59." ;;
  Chance.testRange (max <? min) "Chance: Min cannot be greater than Max." ;;
  Chance.natural (range min max).

(** An entry of the table [months]. *)
Record month_entry : Type := mkMonth {
  m_name : string; m_short_name : string; numeric : string; days : Z }.

Definition months_table : list month_entry := [
  mkMonth "January" "Jan" "01" 31;
  (* Not messing with leap years... *)
  mkMonth "February" "Feb" "02" 28;
  mkMonth "March" "Mar" "03" 31;
  mkMonth "April" "Apr" "04" 30;
  mkMonth "May" "May" "05" 31;
  mkMonth "June" "Jun" "06" 30;
  mkMonth "July" "Jul" "07" 31;
  mkMonth "August" "Aug" "08" 31;
  mkMonth "September" "Sep" "09" 30;
  mkMonth "October" "Oct" "10" 31;
  mkMonth "November" "Nov" "11" 30;
  mkMonth "December" "Dec" "12" 31 ].

(** [arr.slice(start, end)] for indices that are not negative. *)
Definition slice {B} (arr : list B) (start end_ : Z) : list B :=
  drop (Z.to_nat start) (take (Z.to_nat end_) arr).

(** [month(options)] over the array [months()] returned: the entry
    picked when [raw], otherwise its name.  [pick] is called without a
    count and returns an element. *)
Definition month (months : list month_entry) (options : time_options)
  : Chance.M (option month_entry + string) :=
  let min := default 1 (t_min options) in
  let max := default 12 (t_max options) in
  Chance.testRange (min <? 1) "Chance: Min cannot be less than 1." ;;
  Chance.testRange (12 <? max) "Chance: Max cannot be greater than 12." ;;
  Chance.testRange (max <? min) "Chance: Min cannot be greater than Max." ;;
  m ← Chance.pick None (Some <$> slice months (min - 1) max) None;
  match m with
  | inl month =>
      if raw options then mret (inl month)
      else match month with
           | Some month => mret (inr (m_name month))
           | None => Chance.throw (TypeError "Cannot read property 'name' of undefined")
           end
  | inr _ => mret (inl None)
  end.

(** [exp_year()]: the first [new Date()] gives the month, the second
    the year, and the third is the one [year] evaluates for a default
    that is not used. *)
Definition exp_year (clock : nat → Chance.Date) : Chance.M string :=
  let curMonth := Chance.getMonth (clock 0%nat) + 1 in
  let curYear := Chance.getFullYear (clock 1%nat) in
  Chance.year (clock 2%nat)
    (range (if bool_decide (curMonth = 12) then curYear + 1 else curYear) (curYear + 10)).

(** *** Numbers with check digits *)

(** [n[i]] for an array of numbers that has an entry at [i]. *)
Definition at_ (n : list Z) (i : nat) : Z := default 0 (n !! i).

Definition digit (max : Z) : Chance.M Z :=
  Chance.natural (Chance.mkRange None (Some (inject_Z max))).

(** [d = 11 - (d % 11); if (d >= 10) d = 0] *)
Definition mod11_digit (d : Z) : Z :=
  let d := 11 - Z.rem d 11 in if 10 <=? d then 0 else d.

Definition str (z : Z) : string := Chance.toString (Some z).

(** [cpf.replace(/\D/g, '')] *)
Definition strip_non_digits (s : string) : string :=
  string_of_list_ascii (filter (fun c => Chance.is_digit c = true) (list_ascii_of_string s)).

Record cpf_options : Type := mkCpfOpts { formatted : option bool }.

(** CPF; ID to identify taxpayers in Brazil *)
Definition cpf (options : cpf_options) : Chance.M string :=
  let formatted := default true (formatted options) in
  n ← Chance.n (digit 9) (Some 9);
  let d1 := at_ n 8 * 2 + at_ n 7 * 3 + at_ n 6 * 4 + at_ n 5 * 5 + at_ n 4 * 6
            + at_ n 3 * 7 + at_ n 2 * 8 + at_ n 1 * 9 + at_ n 0 * 10 in
  let d1 := mod11_digit d1 in
  let d2 := d1 * 2 + at_ n 8 * 3 + at_ n 7 * 4 + at_ n 6 * 5 + at_ n 5 * 6 + at_ n 4 * 7
            + at_ n 3 * 8 + at_ n 2 * 9 + at_ n 1 * 10 + at_ n 0 * 11 in
  let d2 := mod11_digit d2 in
  let cpf := str (at_ n 0) +:+ str (at_ n 1) +:+ str (at_ n 2) +:+ "."
             +:+ str (at_ n 3) +:+ str (at_ n 4) +:+ str (at_ n 5) +:+ "."
             +:+ str (at_ n 6) +:+ str (at_ n 7) +:+ str (at_ n 8) +:+ "-"
             +:+ str d1 +:+ str d2 in
  mret (if formatted then cpf else strip_non_digits cpf).

(** ID number for Brazil companies: the definition of [cnpj] that is
    in force, the last one assigned to the prototype. *)
Definition cnpj : Chance.M string :=
  n ← Chance.n (digit 9) (Some 8);
  let d1 := 2 + at_ n 7 * 6 + at_ n 6 * 7 + at_ n 5 * 8 + at_ n 4 * 9 + at_ n 3 * 2
            + at_ n 2 * 3 + at_ n 1 * 4 + at_ n 0 * 5 in
  let d1 := mod11_digit d1 in
  let d2 := d1 * 2 + 3 + at_ n 7 * 7 + at_ n 6 * 8 + at_ n 5 * 9 + at_ n 4 * 2 + at_ n 3 * 3
            + at_ n 2 * 4 + at_ n 1 * 5 + at_ n 0 * 6 in
  let d2 := mod11_digit d2 in
  mret (str (at_ n 0) +:+ str (at_ n 1) +:+ "." +:+ str (at_ n 2) +:+ str (at_ n 3)
        +:+ str (at_ n 4) +:+ "." +:+ str (at_ n 5) +:+ str (at_ n 6) +:+ str (at_ n 7)
        +:+ "/0001-" +:+ str d1 +:+ str d2).

(** [parseInt(c)] for a string of one character: [NaN] unless it is a
    digit. *)
Definition parseInt_char (c : ascii) : Chance.number :=
  if Chance.is_digit c then Some (Z.of_N (N_of_ascii c) - 48) else Chance.NaN.

(** [w0 * arr[0] + w1 * arr[1] + ...], the entries as [parseInt] left
    them; a missing entry is [undefined] and makes the sum [NaN]. *)
Fixpoint weighted_sum (weights : list Z) (arr : list Chance.number) : Chance.number :=
  match weights with
  | [] => Some 0
  | w :: weights' =>
      match arr with
      | Some a :: arr' => (fun s => w * a + s) <$> weighted_sum weights' arr'
      | _ => Chance.NaN
      end
  end.

(** [arr.join('')] *)
Definition join_numbers (arr : list Chance.number) : string :=
  String.concat "" (Chance.toString <$> arr).

(** [pad(number, width).split('')] with [parseInt] applied to each
    character. *)
Definition padded_digits (number : Z) (width : Z) : list Chance.number :=
  parseInt_char <$> list_ascii_of_string (pad (str number) width None).

Definition pl_pesel : Chance.M string :=
  number ← Chance.natural (range 1 9999999999);
  let arr := padded_digits number 10 in
  let controlNumber :=
    (fun s => Z.rem s 10) <$> weighted_sum [1; 3; 7; 9; 1; 3; 7; 9; 1; 3] arr in
  let controlNumber :=
    (fun c => if bool_decide (c ≠ 0) then 10 - c else c) <$> controlNumber in
  mret (join_numbers arr +:+ Chance.toString controlNumber).

Definition pl_regon : Chance.M string :=
  number ← Chance.natural (range 1 99999999);
  let arr := padded_digits number 8 in
  let controlNumber :=
    (fun s => Z.rem s 11) <$> weighted_sum [8; 9; 2; 3; 4; 5; 6; 7] arr in
  let controlNumber :=
    (fun c => if bool_decide (c = 10) then 0 else c) <$> controlNumber in
  mret (join_numbers arr +:+ Chance.toString controlNumber).

(** An entry of the table [provinces.it]. *)
Record province_entry : Type := mkProvince {
  p_name : string; abbreviation : string; code : Z }.

(** [it_vat()] over the array [provinces({country: 'it'})] returned.
    [pick] is called without a count and returns an element. *)
Definition it_vat (provinces : list province_entry) : Chance.M string :=
  it_vat ← Chance.natural (range 1 1800000);
  p ← Chance.pick None (Some <$> provinces) None;
  match p with
  | inl (Some province) =>
      let it_vat := pad (str it_vat) 7 None +:+ pad (str (code province)) 3 None in
      mret (it_vat +:+ Chance.toString (Chance.luhn_calculate it_vat))
  | inl None => Chance.throw (TypeError "Cannot read property 'code' of undefined")
  | inr _ =>
      let it_vat := pad (str it_vat) 7 None +:+ pad "undefined" 3 None in
      mret (it_vat +:+ Chance.toString (Chance.luhn_calculate it_vat))
  end.

(** The table [provinces.it] of the source. *)
Definition provinces_it : list province_entry := [
  mkProvince "Agrigento" "AG" 84;
  mkProvince "Alessandria" "AL" 6;
  mkProvince "Ancona" "AN" 42;
  mkProvince "Aosta" "AO" 7;
  mkProvince "L'Aquila" "AQ" 66;
  mkProvince "Arezzo" "AR" 51;
  mkProvince "Ascoli-Piceno" "AP" 44;
  mkProvince "Asti" "AT" 5;
  mkProvince "Avellino" "AV" 64;
  mkProvince "Bari" "BA" 72;
  mkProvince "Barletta-Andria-Trani" "BT" 72;
  mkProvince "Belluno" "BL" 25;
  mkProvince "Benevento" "BN" 62;
  mkProvince "Bergamo" "BG" 16;
  mkProvince "Biella" "BI" 96;
  mkProvince "Bologna" "BO" 37;
  mkProvince "Bolzano" "BZ" 21;
  mkProvince "Brescia" "BS" 17;
  mkProvince "Brindisi" "BR" 74;
  mkProvince "Cagliari" "CA" 92;
  mkProvince "Caltanissetta" "CL" 85;
  mkProvince "Campobasso" "CB" 70;
  mkProvince "Carbonia Iglesias" "CI" 70;
  mkProvince "Caserta" "CE" 61;
  mkProvince "Catania" "CT" 87;
  mkProvince "Catanzaro" "CZ" 79;
  mkProvince "Chieti" "CH" 69;
  mkProvince "Como" "CO" 13;
  mkProvince "Cosenza" "CS" 78;
  mkProvince "Cremona" "CR" 19;
  mkProvince "Crotone" "KR" 101;
  mkProvince "Cuneo" "CN" 4;
  mkProvince "Enna" "EN" 86;
  mkProvince "Fermo" "FM" 86;
  mkProvince "Ferrara" "FE" 38;
  mkProvince "Firenze" "FI" 48;
  mkProvince "Foggia" "FG" 71;
  mkProvince "Forli-Cesena" "FC" 71;
  mkProvince "Frosinone" "FR" 60;
  mkProvince "Genova" "GE" 10;
  mkProvince "Gorizia" "GO" 31;
  mkProvince "Grosseto" "GR" 53;
  mkProvince "Imperia" "IM" 8;
  mkProvince "Isernia" "IS" 94;
  mkProvince "La-Spezia" "SP" 66;
  mkProvince "Latina" "LT" 59;
  mkProvince "Lecce" "LE" 75;
  mkProvince "Lecco" "LC" 97;
  mkProvince "Livorno" "LI" 49;
  mkProvince "Lodi" "LO" 98;
  mkProvince "Lucca" "LU" 46;
  mkProvince "Macerata" "MC" 43;
  mkProvince "Mantova" "MN" 20;
  mkProvince "Massa-Carrara" "MS" 45;
  mkProvince "Matera" "MT" 77;
  mkProvince "Medio Campidano" "VS" 77;
  mkProvince "Messina" "ME" 83;
  mkProvince "Milano" "MI" 15;
  mkProvince "Modena" "MO" 36;
  mkProvince "Monza-Brianza" "MB" 36;
  mkProvince "Napoli" "NA" 63;
  mkProvince "Novara" "NO" 3;
  mkProvince "Nuoro" "NU" 91;
  mkProvince "Ogliastra" "OG" 91;
  mkProvince "Olbia Tempio" "OT" 91;
  mkProvince "Oristano" "OR" 95;
  mkProvince "Padova" "PD" 28;
  mkProvince "Palermo" "PA" 82;
  mkProvince "Parma" "PR" 34;
  mkProvince "Pavia" "PV" 18;
  mkProvince "Perugia" "PG" 54;
  mkProvince "Pesaro-Urbino" "PU" 41;
  mkProvince "Pescara" "PE" 68;
  mkProvince "Piacenza" "PC" 33;
  mkProvince "Pisa" "PI" 50;
  mkProvince "Pistoia" "PT" 47;
  mkProvince "Pordenone" "PN" 93;
  mkProvince "Potenza" "PZ" 76;
  mkProvince "Prato" "PO" 100;
  mkProvince "Ragusa" "RG" 88;
  mkProvince "Ravenna" "RA" 39;
  mkProvince "Reggio-Calabria" "RC" 35;
  mkProvince "Reggio-Emilia" "RE" 35;
  mkProvince "Rieti" "RI" 57;
  mkProvince "Rimini" "RN" 99;
  mkProvince "Roma" "Roma" 58;
  mkProvince "Rovigo" "RO" 29;
  mkProvince "Salerno" "SA" 65;
  mkProvince "Sassari" "SS" 90;
  mkProvince "Savona" "SV" 9;
  mkProvince "Siena" "SI" 52;
  mkProvince "Siracusa" "SR" 89;
  mkProvince "Sondrio" "SO" 14;
  mkProvince "Taranto" "TA" 73;
  mkProvince "Teramo" "TE" 67;
  mkProvince "Terni" "TR" 55;
  mkProvince "Torino" "TO" 1;
  mkProvince "Trapani" "TP" 81;
  mkProvince "Trento" "TN" 22;
  mkProvince "Treviso" "TV" 26;
  mkProvince "Trieste" "TS" 32;
  mkProvince "Udine" "UD" 30;
  mkProvince "Varese" "VA" 12;
  mkProvince "Venezia" "VE" 27;
  mkProvince "Verbania" "VB" 27;
  mkProvince "Vercelli" "VC" 2;
  mkProvince "Verona" "VR" 23;
  mkProvince "Vibo-Valentia" "VV" 102;
  mkProvince "Vicenza" "VI" 24;
  mkProvince "Viterbo" "VT" 56 ].

End Generators.

(** ** Instances in a program *)

Module World.

(** Values passed to and returned by the calls. *)
#[warnings="-register-all"] Inductive value : Type :=
| VUndefined
| VBool (b : bool)
| VNum (z : Z)
| VStr (s : string)
| VArr (elems : list value)
| VObj (props : list (string * value)).

(** The variable [data], shared by every instance, as far as the
    generators embedded here read it through [this.get]: the tables
    [cc_types] and [months] and the array [provinces.it]. *)
Record tables : Type := mkTables {
  cc_types : list Chance.cc_type_entry;
  months : list Generators.month_entry;
  provinces_it : list Generators.province_entry }.

(** [data] as the source initialises it. *)
Definition initial_tables : tables :=
  mkTables Chance.cc_types_table Generators.months_table Generators.provinces_it.

(** [set(name, values)], the assignment [data[name] = values], for
    these tables. *)
Inductive assignment : Type :=
| SetCcTypes (values : list Chance.cc_type_entry)
| SetMonths (values : list Generators.month_entry)
| SetProvincesIt (values : list Generators.province_entry).

Definition set (a : assignment) (tb : tables) : tables :=
  match a with
  | SetCcTypes values => mkTables values (months tb) (provinces_it tb)
  | SetMonths values => mkTables (cc_types tb) values (provinces_it tb)
  | SetProvincesIt values => mkTables (cc_types tb) (months tb) values
  end.

(** A method of an instance: what it returns and what it leaves of
    the instance are a function of [data], of the host clock (the
    [k]-th [new Date()] evaluated during the call reads [clock k]) and
    of the instance it is called on. *)
Definition method : Type := tables → (nat → Chance.Date) → Chance.M value.


(** The generators embedded here, with their arguments. *)
Inductive call : Type :=
| CallBool (options : Chance.bool_options)
| CallInteger (options : Chance.range_options)
| CallNatural (options : Chance.range_options)
| CallCharacter (options : Chance.character_options)
| CallString (options : Chance.string_options)
| CallPickone (arr : list value)
| CallPick (arr : list value) (count : option Z)
| CallPickset (arr : list value) (count : option Z)
| CallShuffle (arr : list value)
| CallWeighted (arr : list value) (weights : list Q) (trim : option bool)
| CallCc (options : Chance.cc_options)
| CallTimestamp
| CallYear (options : Chance.range_options)
| CallExpYear
| CallHash (options : Generators.hash_options)
| CallGuid (options : Generators.guid_options)
| CallSsn (options : Generators.ssn_options)
| CallHour (options : Generators.time_options)
| CallMinute (options : Generators.time_options)
| CallMonth (options : Generators.time_options)
| CallCpf (options : Generators.cpf_options)
| CallCnpj
| CallPlPesel
| CallPlRegon
| CallItVat.

(** An entry of [months] as a value. *)
Definition month_value (m : Generators.month_entry) : value :=
  VObj [("name", VStr (Generators.m_name m)); ("short_name", VStr (Generators.m_short_name m));
        ("numeric", VStr (Generators.numeric m)); ("days", VNum (Generators.days m))].

Definition exec (c : call) : method := fun tb clock =>
  match c with
  | CallBool o => b ← Chance.bool o; mret (VBool b)
  | CallInteger o => z ← Chance.integer o; mret (VNum z)
  | CallNatural o => z ← Chance.natural o; mret (VNum z)
  | CallCharacter o => s ← Chance.character o; mret (VStr s)
  | CallString o => s ← Chance.string o; mret (VStr s)
  | CallPickone arr => Chance.pickone VUndefined arr
  | CallPick arr count =>
      r ← Chance.pick VUndefined arr count;
      mret (match r with inl x => x | inr a => VArr a end)
  | CallPickset arr count => a ← Chance.pickset VUndefined arr count; mret (VArr a)
  | CallShuffle arr => a ← Chance.shuffle VUndefined arr; mret (VArr a)
  | CallWeighted arr weights trim =>
      r ← Chance.weighted VUndefined arr weights trim; mret (r.1.1)
  | CallCc o => s ← Chance.cc (cc_types tb) o; mret (VStr s)
  | CallTimestamp => z ← Chance.timestamp (clock 0%nat); mret (VNum z)
  | CallYear o => s ← Chance.year (clock 0%nat) o; mret (VStr s)
  | CallExpYear => s ← Generators.exp_year clock; mret (VStr s)
  | CallHash o => s ← Generators.hash o; mret (VStr s)
  | CallGuid o => s ← Generators.guid o; mret (VStr s)
  | CallSsn o => s ← Generators.ssn o; mret (VStr s)
  | CallHour o => z ← Generators.hour o; mret (VNum z)
  | CallMinute o => z ← Generators.minute o; mret (VNum z)
  | CallMonth o =>
      r ← Generators.month (months tb) o;
      mret (match r with
            | inl (Some m) => month_value m
            | inl None => VUndefined
            | inr s => VStr s
            end)
  | CallCpf o => s ← Generators.cpf o; mret (VStr s)
  | CallCnpj => s ← Generators.cnpj; mret (VStr s)
  | CallPlPesel => s ← Generators.pl_pesel; mret (VStr s)
  | CallPlRegon => s ← Generators.pl_regon; mret (VStr s)
  | CallItVat => s ← Generators.it_vat (provinces_it tb); mret (VStr s)
  end.


(** A program's state: the instances constructed so far, each with
    the engine its constructor allocated ([this.mt = new
    MersenneTwister(this.seed)]), and [data]. *)
Record world : Type := mkWorld {
  instances : gmap Data.loc Chance.chance;
  data : tables }.

(** What a program does with the library: [new Chance(...args)] while
    the host's [Math.floor(Math.random()*Math.pow(10,13))] would give
    [host_random]; [set]; a call of a method on the instance at [l]. *)
Inductive event : Type :=
| ENew (host_random : Z) (args : list Chance.seed_arg)
| ESet (a : assignment)
| ECall (clock : nat → Chance.Date) (l : Data.loc) (m : method).

Inductive output : Type :=
| ONew (l : Data.loc)
| OCall (l : Data.loc) (r : result value).

(** One event.  A call on a location that holds no instance is not a
    call of the library and leaves the state as it is. *)
Definition step (e : event) (w : world) : list output * world :=
  match e with
  | ENew host_random args =>
      let l := fresh (dom (instances w)) in
      ([ONew l], mkWorld (<[l := Chance.new host_random args]> (instances w)) (data w))
  | ESet a => ([], mkWorld (instances w) (set a (data w)))
  | ECall clock l m =>
      match instances w !! l with
      | Some inst =>
          let (r, inst') := m (data w) clock inst in
          ([OCall l r], mkWorld (<[l := inst']> (instances w)) (data w))
      | None => ([], w)
      end
  end.

(** The outputs of a schedule of events. *)
Fixpoint run (sched : list event) (w : world) : list output :=
  match sched with
  | [] => []
  | e :: rest => let (o, w') := step e w in o ++ run rest w'
  end.






End World.

(** ** Vocabulary of the properties *)

(** An array of 32-bit words. *)
Definition words (a : list Z) : Prop := Forall (fun x => 0 <= x < 2 ^ 32) a.

(** A string of one character, taken from [pool]. *)
Definition one_of (pool : string) (s : string) : Prop :=
  ∃ ch, s = String ch "" ∧ ch ∈ list_ascii_of_string pool.

(** The value of a digit character. *)
Definition digit_of (ch : ascii) : Z := Z.of_N (N_of_ascii ch) - 48.

(** * Properties *)

(** ** The engine *)

(** The first output for the seed 5489 is that of the reference
    implementation. *)
Example mt19937_first :
  fst (Twister.genrand_int32 (Twister.new 0 (Some 5489))) = 3499211612.
Proof. vm_compute. reflexivity. Qed.

Lemma ToUint32_range x : 0 <= ToUint32 x < 2 ^ 32.
Proof. unfold ToUint32. apply Z.mod_pos_bound. lia. Qed.

Lemma shru_0 x : shru x 0 = x mod 2 ^ 32.
Proof. unfold shru, ToUint32. reflexivity. Qed.

Lemma temper_range y : 0 <= Twister.temper y < 2 ^ 32.
Proof. unfold Twister.temper. cbv zeta. rewrite shru_0. apply Z.mod_pos_bound. lia. Qed.

Lemma genrand_int32_range st : 0 <= fst (Twister.genrand_int32 st) < 2 ^ 32.
Proof. unfold Twister.genrand_int32. cbn [fst]. apply temper_range. Qed.

(** [random()] is the draw over 2^32. *)
Lemma random_spec st :
  Twister.random st
  = ((inject_Z (fst (Twister.genrand_int32 st)) * (1 / 4294967296))%Q,
     snd (Twister.genrand_int32 st)).
Proof. unfold Twister.random. destruct (Twister.genrand_int32 st). reflexivity. Qed.

Lemma draw_over_two32 (y : Z) :
  (inject_Z y * (1 / 4294967296) == y # 4294967296)%Q.
Proof.
  change (1 / 4294967296)%Q with (1 # 4294967296)%Q.
  unfold Qeq, Qmult, inject_Z. cbn [Qnum Qden]. rewrite Pos.mul_1_l. lia.
Qed.

Lemma random_range st :
  (0 <= fst (Twister.random st))%Q ∧ (fst (Twister.random st) < 1)%Q.
Proof.
  rewrite random_spec. cbn [fst].
  pose proof (genrand_int32_range st) as [H0 H1].
  generalize dependent (fst (Twister.genrand_int32 st)). intros y H0 H1.
  rewrite draw_over_two32. unfold Qle, Qlt. cbn [Qnum Qden]. lia.
Qed.

(** ** The sampling layer *)

Ltac run_monad :=
  unfold mbind, mret, Chance.chance_bind, Chance.chance_ret,
         Chance.testRange, Chance.bind, Chance.ret, Chance.throw.

Lemma Qgtb_false a b : (a <= b)%Q → Chance.Qgtb a b = false.
Proof. intros H. unfold Chance.Qgtb. apply Qle_bool_iff in H. rewrite H. reflexivity. Qed.

Lemma Qgtb_true a b : (b < a)%Q → Chance.Qgtb a b = true.
Proof.
  intros H. unfold Chance.Qgtb. destruct (Qle_bool a b) eqn:E; [|reflexivity].
  apply Qle_bool_iff in E. exfalso. exact (Qlt_not_le _ _ H E).
Qed.

Lemma Qltb_false a b : (b <= a)%Q → Chance.Qltb a b = false.
Proof. apply Qgtb_false. Qed.

Lemma Qltb_true a b : (a < b)%Q → Chance.Qltb a b = true.
Proof. apply Qgtb_true. Qed.

Lemma random_run c :
  Chance.random c = (Ok (fst (Twister.random (Chance.mt c))), Chance.draw c).
Proof.
  unfold Chance.random, Chance.draw. rewrite random_spec. reflexivity.
Qed.

(** [integer] on a range that is not empty: one draw, scaled. *)
Lemma integer_run c (lo hi : Q) :
  (lo <= hi)%Q →
  Chance.integer (Chance.mkRange (Some lo) (Some hi)) c
  = (Ok (Qfloor (fst (Twister.random (Chance.mt c)) * (hi - lo + 1) + lo)),
     Chance.draw c).
Proof.
  intros H. unfold Chance.integer. cbn [Chance.o_min Chance.o_max default from_option id].
  run_monad. rewrite (Qgtb_false _ _ H). cbv beta iota. rewrite random_run. reflexivity.
Qed.

Lemma integer_throw c (lo hi : Q) :
  (hi < lo)%Q →
  Chance.integer (Chance.mkRange (Some lo) (Some hi)) c
  = (Throw (RangeError "Chance: Min cannot be greater than Max."), c).
Proof.
  intros H. unfold Chance.integer. cbn [Chance.o_min Chance.o_max default from_option id].
  run_monad. rewrite (Qgtb_true _ _ H). reflexivity.
Qed.

(** The scaled draw, for integer bounds. *)
Lemma scaled_draw_range (r : Q) (lo hi : Z) :
  (0 <= r)%Q → (r < 1)%Q → lo <= hi →
  lo <= Qfloor (r * (inject_Z hi - inject_Z lo + 1) + inject_Z lo) <= hi.
Proof.
  intros H0 H1 Hle.
  set (x := (r * (inject_Z hi - inject_Z lo + 1) + inject_Z lo)%Q).
  assert (Hw : (0 < inject_Z hi - inject_Z lo + 1)%Q).
  { unfold Qlt, Qplus, Qminus, Qopp, inject_Z. simpl. lia. }
  assert (Hlo : (inject_Z lo <= x)%Q).
  { unfold x. rewrite <- (Qplus_0_l (inject_Z lo)) at 1.
    apply Qplus_le_l. apply Qmult_le_0_compat; [assumption|]. apply Qlt_le_weak, Hw. }
  assert (Hhi : (x < inject_Z (hi + 1))%Q).
  { unfold x.
    assert (E : (inject_Z (hi + 1) == 1 * (inject_Z hi - inject_Z lo + 1) + inject_Z lo)%Q).
    { unfold Qeq, Qmult, Qplus, Qminus, Qopp, inject_Z. simpl. lia. }
    rewrite E. apply Qplus_lt_l. apply Qmult_lt_compat_r; assumption. }
  split.
  - rewrite <- (Qfloor_Z lo). apply Qfloor_resp_le, Hlo.
  - enough (Qfloor x < hi + 1) by lia.
    rewrite Zlt_Qlt. eapply Qle_lt_trans; [apply Qfloor_le|exact Hhi].
Qed.

Lemma natural_run c (lo hi : Q) :
  (0 <= lo)%Q → (lo <= hi)%Q →
  Chance.natural (Chance.mkRange (Some lo) (Some hi)) c
  = (Ok (Qfloor (fst (Twister.random (Chance.mt c)) * (hi - lo + 1) + lo)),
     Chance.draw c).
Proof.
  intros H0 H. unfold Chance.natural. cbn [Chance.o_min Chance.o_max default from_option id].
  run_monad. rewrite (Qltb_false _ _ H0). cbv beta iota. apply integer_run, H.
Qed.

(** [natural({max: m})] for [0 <= m]: an index in [0, m]. *)
Lemma natural_max_run c (m : Z) :
  0 <= m →
  ∃ i, Chance.natural (Chance.mkRange None (Some (inject_Z m))) c = (Ok i, Chance.draw c)
       ∧ 0 <= i <= m.
Proof.
  intros Hm. unfold Chance.natural. cbn [Chance.o_min Chance.o_max default from_option id].
  run_monad. rewrite Qltb_false by apply Qle_refl. cbv beta iota.
  eexists. split.
  - apply integer_run. change 0%Q with (inject_Z 0). rewrite <- Zle_Qle. exact Hm.
  - destruct (random_range (Chance.mt c)) as [Ha Hb].
    change 0%Q with (inject_Z 0).
    apply scaled_draw_range; assumption.
Qed.

Lemma integer_arithmetic_exact (y lo hi : Z) :
  0 <= y < 2 ^ 32 → - 2 ^ 20 <= lo → lo <= hi → hi < 2 ^ 20 →
  let r := (inject_Z y * (1 / 4294967296))%Q in
  Chance.binary64_exact r
  ∧ Chance.binary64_exact (inject_Z hi - inject_Z lo)
  ∧ Chance.binary64_exact (inject_Z hi - inject_Z lo + 1)
  ∧ Chance.binary64_exact (r * (inject_Z hi - inject_Z lo + 1))
  ∧ Chance.binary64_exact (r * (inject_Z hi - inject_Z lo + 1) + inject_Z lo).
Proof.
  intros Hy Hlo Hle Hhi. cbv zeta.
  split; [|split; [|split; [|split]]].
  - exists y. split; [lia|]. apply draw_over_two32.
  - exists ((hi - lo) * 2 ^ 32). split; [lia|].
    unfold Qeq, Qminus, Qplus, Qopp, inject_Z. simpl. lia.
  - exists ((hi - lo + 1) * 2 ^ 32). split; [lia|].
    unfold Qeq, Qminus, Qplus, Qopp, inject_Z. simpl. lia.
  - exists (y * (hi - lo + 1)). split; [nia|].
    rewrite draw_over_two32.
    unfold Qeq, Qmult, Qminus, Qplus, Qopp, inject_Z. simpl. lia.
  - exists (y * (hi - lo + 1) + lo * 2 ^ 32). split; [nia|].
    rewrite draw_over_two32.
    unfold Qeq, Qmult, Qminus, Qplus, Qopp, inject_Z. simpl. lia.
Qed.

(** For integers [min <= max], [integer({min, max})] on exact numbers
    returns [floor(nextFloat() * (max - min + 1) + min)], where
    [nextFloat()] is the 32-bit draw over 2^32 and lies in [0, 1); the
    result lies in the inclusive range [min, max].  When [min > max]
    a range error is raised.  The arithmetic is exact in the model, and
    also in binary64 when [-2^20 <= min] and [max < 2^20]: every
    intermediate value is then a multiple of 2^-32 with a numerator
    of at most 2^53. *)
Lemma integer_exact_formula (c : Chance.chance) (lo hi : Z) :
  let options := Chance.mkRange (Some (inject_Z lo)) (Some (inject_Z hi)) in
  let draw := fst (Twister.genrand_int32 (Chance.mt c)) in
  let nextFloat := fst (Twister.random (Chance.mt c)) in
  let scaled := (nextFloat * (inject_Z hi - inject_Z lo + 1) + inject_Z lo)%Q in
  (nextFloat == draw # 4294967296 ∧ 0 <= nextFloat ∧ nextFloat < 1)%Q
  ∧ (lo <= hi →
     Chance.integer options c = (Ok (Qfloor scaled), Chance.draw c)
     ∧ lo <= Qfloor scaled <= hi)
  ∧ (hi < lo →
     Chance.integer options c
     = (Throw (RangeError "Chance: Min cannot be greater than Max."), c))
  ∧ (- 2 ^ 20 <= lo → lo <= hi → hi < 2 ^ 20 →
     Chance.binary64_exact nextFloat
     ∧ Chance.binary64_exact (inject_Z hi - inject_Z lo + 1)
     ∧ Chance.binary64_exact (nextFloat * (inject_Z hi - inject_Z lo + 1))
     ∧ Chance.binary64_exact scaled).
Proof.
  intros options draw nextFloat scaled.
  destruct (random_range (Chance.mt c)) as [H0 H1].
  assert (Hr : nextFloat = (inject_Z draw * (1 / 4294967296))%Q).
  { unfold nextFloat, draw. rewrite random_spec. reflexivity. }
  split; [|split; [|split]].
  - split; [|split; assumption]. rewrite Hr. apply draw_over_two32.
  - intros Hle. split.
    + apply integer_run. rewrite <- Zle_Qle. exact Hle.
    + apply scaled_draw_range; assumption.
  - intros Hlt. apply integer_throw. rewrite <- Zlt_Qlt. exact Hlt.
  - intros Hlo Hle Hhi.
    pose proof (genrand_int32_range (Chance.mt c)) as Hy. fold draw in Hy.
    destruct (integer_arithmetic_exact draw lo hi Hy Hlo Hle Hhi) as (E1 & _ & E3 & E4 & E5).
    unfold scaled. rewrite Hr. auto.
Qed.

(** The same call on exact numbers and on binary64 values, where the
    arithmetic is exact. *)
Example integer_models_agree :
  let c := Chance.new 0 [Chance.SeedNumber 42] in
  fst (Chance.integer (Chance.mkRange (Some (inject_Z 1)) (Some (inject_Z 10))) c) = Ok 4
  ∧ fst (Binary64.integer (Binary64.of_Z 1) (Binary64.of_Z 10) c) = Ok (Some 4)
  ∧ fst (Binary64.integer (Binary64.of_Z 10) (Binary64.of_Z 1) c)
    = Throw (RangeError "Chance: Min cannot be greater than Max.").
Proof. vm_compute. auto. Qed.

(** C4.  On binary64 values, as the source computes it, [integer]
    leaves the range that its documentation promises (the max and min
    are INCLUDED in the range): with [min = max = 2^53 - 1] and the seed
    3, whose first draw is above one half, the sum [r * 1 + (2^53 - 1)]
    is not representable and is rounded to 2^53, which [Math.floor]
    leaves above [max].  The formula taken exactly gives [max] there. *)
Theorem integer_past_max :
  let c := Chance.new 0 [Chance.SeedNumber 3] in
  let top := 9007199254740991 in
  fst (Binary64.integer (Binary64.of_Z top) (Binary64.of_Z top) c) = Ok (Some (top + 1))
  ∧ fst (Chance.integer (Chance.mkRange (Some (inject_Z top)) (Some (inject_Z top))) c) = Ok top
  ∧ top = 2 ^ 53 - 1
  ∧ (1 # 2 < fst (Twister.random (Chance.mt c)))%Q.
Proof. vm_compute. auto. Qed.

(** ** Counting draws *)

Lemma draws_S_l k c : Chance.draws (S k) c = Chance.draws k (Chance.draw c).
Proof. unfold Chance.draws. rewrite Nat.iter_succ_r. reflexivity. Qed.

Lemma character_pool_nonempty options :
  (0 < String.length (Chance.character_pool options))%nat.
Proof.
  unfold Chance.character_pool.
  destruct (Chance.pool options) as [[|a s]|]; cbn [Chance.truthy_string default from_option id];
    repeat case_bool_decide; repeat case_match;
    first [cbn; lia | vm_compute; lia].
Qed.

Lemma charAt_length pool i :
  0 <= i < Z.of_nat (String.length pool) →
  String.length (Chance.charAt pool i) = 1%nat.
Proof.
  intros [H0 H1]. unfold Chance.charAt.
  destruct (Z.ltb_spec i 0); [lia|].
  assert (Hn : (Z.to_nat i < String.length pool)%nat) by lia.
  generalize dependent (Z.to_nat i). clear. intros n.
  revert n. induction pool as [|a s IH]; intros n Hn; cbn in *; [lia|].
  destruct n; [reflexivity|]. apply IH. lia.
Qed.

(** [character] draws once and returns one character. *)
Lemma character_run options c :
  Chance.alpha options && Chance.symbols options = false →
  ∃ s, Chance.character options c = (Ok s, Chance.draw c) ∧ String.length s = 1%nat.
Proof.
  intros Hopt. unfold Chance.character. run_monad. rewrite Hopt. cbv beta iota.
  pose proof (character_pool_nonempty options) as Hp.
  destruct (natural_max_run c (Z.of_nat (String.length (Chance.character_pool options)) - 1))
    as (i & Hi & Hr); [lia|].
  rewrite Hi. eexists. split; [reflexivity|]. apply charAt_length. lia.
Qed.

(** [n] calls of a generator that draws once each. *)
Lemma n_loop_run {A} (fn : Chance.M A) (P : A → Prop) :
  (∀ c, ∃ x, fn c = (Ok x, Chance.draw c) ∧ P x) →
  ∀ k arr c, ∃ xs, Chance.n_loop fn k arr c = (Ok (arr ++ xs), Chance.draws k c)
                   ∧ length xs = k ∧ Forall P xs.
Proof.
  intros Hfn. induction k as [|k IH]; intros arr c.
  - exists []. rewrite app_nil_r. repeat split; constructor.
  - cbn [Chance.n_loop]. run_monad.
    destruct (Hfn c) as (x & Hx & HP). rewrite Hx.
    destruct (IH (arr ++ [x]) (Chance.draw c)) as (xs & Hxs & Hlen & HF).
    exists (x :: xs). rewrite draws_S_l.
    rewrite Hxs. rewrite <- app_assoc. cbn. repeat split; [lia|]. constructor; assumption.
Qed.

Lemma string_length_app (s1 s2 : string) :
  String.length (s1 +:+ s2) = (String.length s1 + String.length s2)%nat.
Proof.
  induction s1 as [|a s1 IH]; [reflexivity|].
  change (String.length (String a s1 +:+ s2)) with (S (String.length (s1 +:+ s2))).
  rewrite IH. reflexivity.
Qed.

Lemma concat_chars_length (text : list string) :
  Forall (fun s => String.length s = 1%nat) text →
  String.length (String.concat "" text) = length text.
Proof.
  induction 1 as [|s text Hs _ IH]; [reflexivity|].
  destruct text as [|s' text'].
  - cbn. rewrite Hs. reflexivity.
  - cbn [String.concat length] in *. rewrite !string_length_app, IH, Hs. reflexivity.
Qed.

(** [string] with the length that is in force: one draw for the default
    length, then one per character. *)
Lemma string_run options c d :
  Chance.alpha (Chance.char_options options) && Chance.symbols (Chance.char_options options) = false →
  Chance.natural (Chance.mkRange (Some 5%Q) (Some 20%Q)) c = (Ok d, Chance.draw c) →
  let len := default d (Chance.length_ options) in
  0 <= len →
  ∃ s, Chance.string options c = (Ok s, Chance.draws (S (Z.to_nat len)) c)
       ∧ String.length s = Z.to_nat len.
Proof.
  intros Hopt Hd len Hlen. unfold Chance.string. run_monad. rewrite Hd.
  fold len. destruct (Z.ltb_spec len 0) as [|_]; [lia|]. cbv beta iota.
  unfold Chance.n. cbn [default from_option id]. rewrite Z.max_r by lia.
  destruct (n_loop_run (Chance.character (Chance.char_options options))
              (fun s => String.length s = 1%nat) (fun c => character_run _ c Hopt)
              (Z.to_nat len) [] (Chance.draw c)) as (xs & Hxs & Hl & HF).
  rewrite Hxs. cbn [app]. eexists. split.
  - rewrite draws_S_l. reflexivity.
  - rewrite concat_chars_length by assumption. exact Hl.
Qed.

Lemma default_length_run c :
  ∃ d, Chance.natural (Chance.mkRange (Some 5%Q) (Some 20%Q)) c = (Ok d, Chance.draw c)
       ∧ 5 <= d <= 20.
Proof.
  eexists. split.
  - apply natural_run; unfold Qle; simpl; lia.
  - destruct (random_range (Chance.mt c)) as [Ha Hb].
    change 5%Q with (inject_Z 5). change 20%Q with (inject_Z 20).
    apply scaled_draw_range; [assumption..|lia].
Qed.

(** C10.  Every call of [string] first draws the default length, a
    natural in [5, 20], whatever the options: without a length the
    string has the drawn length [d] and the engine has advanced by
    [d + 1] draws; with [length: L], [L >= 0], the drawn length is
    discarded, the string has [L] characters and the engine has advanced
    by exactly [L + 1] draws. *)
Theorem string_draws (copts : Chance.character_options) (c : Chance.chance) (L : Z) :
  Chance.alpha copts && Chance.symbols copts = false →
  0 <= L →
  ∃ d, Chance.natural (Chance.mkRange (Some 5%Q) (Some 20%Q)) c = (Ok d, Chance.draw c)
       ∧ 5 <= d <= 20
       ∧ (∃ s, Chance.string (Chance.mkStringOpts None copts) c
               = (Ok s, Chance.draws (Z.to_nat (d + 1)) c)
               ∧ Z.of_nat (String.length s) = d)
       ∧ (∃ s, Chance.string (Chance.mkStringOpts (Some L) copts) c
               = (Ok s, Chance.draws (Z.to_nat (L + 1)) c)
               ∧ Z.of_nat (String.length s) = L).
Proof.
  intros Hopt HL. destruct (default_length_run c) as (d & Hd & Hrange).
  exists d. split; [exact Hd|]. split; [exact Hrange|]. split.
  - destruct (string_run (Chance.mkStringOpts None copts) c d Hopt Hd) as (s & Hs & Hlen).
    { cbn. lia. }
    cbn [default from_option id Chance.length_] in *.
    exists s. rewrite Hs. split; [do 2 f_equal; lia|lia].
  - destruct (string_run (Chance.mkStringOpts (Some L) copts) c d Hopt Hd) as (s & Hs & Hlen).
    { cbn. lia. }
    cbn [default from_option id Chance.length_] in *.
    exists s. rewrite Hs. split; [do 2 f_equal; lia|lia].
Qed.

Lemma string_draws_witness :
  let c := Chance.new 0 [Chance.SeedNumber 42] in
  ∃ d, Chance.natural (Chance.mkRange (Some 5%Q) (Some 20%Q)) c = (Ok d, Chance.draw c)
       ∧ 5 <= d <= 20
       ∧ (∃ s, Chance.string (Chance.mkStringOpts None (Chance.mkCharOpts None false false None)) c
               = (Ok s, Chance.draws (Z.to_nat (d + 1)) c)
               ∧ Z.of_nat (String.length s) = d)
       ∧ (∃ s, Chance.string (Chance.mkStringOpts (Some 3) (Chance.mkCharOpts None false false None)) c
               = (Ok s, Chance.draws (Z.to_nat (3 + 1)) c)
               ∧ Z.of_nat (String.length s) = 3).
Proof.
  intros c. apply (string_draws (Chance.mkCharOpts None false false None) c 3).
  - reflexivity.
  - lia.
Defined.

(** ** Helpers: [pickset], [shuffle], [weighted] *)

(** C8.  [pickset] on an empty array with a positive count raises a
    range error, and so does [pickset] with a negative count, on any
    array; in particular [pickset([], 2)] raises one.  With a count of
    zero, as in [pickset(['a'], 0)], it returns the empty array. *)
Theorem pickset_errors {A} (undefined : A) (c : Chance.chance) :
  (∀ k, 0 < k →
     Chance.pickset undefined [] (Some k) c
     = (Throw (RangeError "Chance: Cannot pickset() from an empty array"), c))
  ∧ (∀ arr k, k < 0 →
     ∃ msg, Chance.pickset undefined arr (Some k) c = (Throw (RangeError msg), c))
  ∧ Chance.pickset undefined [] (Some 2) c
    = (Throw (RangeError "Chance: Cannot pickset() from an empty array"), c)
  ∧ (∀ arr, Chance.pickset undefined arr (Some 0) c = (Ok [], c)).
Proof.
  split; [|split; [|split]].
  - intros k Hk. unfold Chance.pickset.
    rewrite bool_decide_eq_false_2 by (intros [= ->]; lia).
    reflexivity.
  - intros arr k Hk. unfold Chance.pickset.
    rewrite bool_decide_eq_false_2 by (intros [= ->]; lia).
    case_bool_decide; [eexists; reflexivity|].
    destruct (Z.ltb_spec k 0); [|lia]. eexists; reflexivity.
  - reflexivity.
  - intros arr. reflexivity.
Qed.

Lemma pickset_errors_witness :
  let c := Chance.new 0 [Chance.SeedNumber 42] in
  Chance.pickset "" [] (Some 2) c
  = (Throw (RangeError "Chance: Cannot pickset() from an empty array"), c)
  ∧ (∃ msg, Chance.pickset "" ["a"] (Some (-1)) c = (Throw (RangeError msg), c))
  ∧ Chance.pickset "" ["a"] (Some 0) c = (Ok [], c).
Proof.
  intros c. split; [|split].
  - apply (proj1 (pickset_errors "" c) 2). lia.
  - apply (proj1 (proj2 (pickset_errors "" c)) ["a"] (-1)). lia.
  - apply (proj2 (proj2 (proj2 (pickset_errors "" c)))).
Defined.

Section ArrayFacts.
Context {A : Type} (undefined : A).

Lemma index_lookup (arr : list A) (j : Z) :
  0 <= j < Z.of_nat (length arr) →
  arr !! Z.to_nat j = Some (Chance.index undefined arr j).
Proof.
  intros [H0 H1]. unfold Chance.index. destruct (Z.ltb_spec j 0); [lia|].
  destruct (lookup_lt_is_Some_2 arr (Z.to_nat j)) as [x Hx]; [lia|].
  rewrite Hx. reflexivity.
Qed.

Lemma splice1_delete {B} (arr : list B) (j : Z) :
  0 <= j < Z.of_nat (length arr) →
  Chance.splice1 arr j = delete (Z.to_nat j) arr.
Proof.
  intros [H0 H1]. unfold Chance.splice1. destruct (Z.ltb_spec j 0); [lia|].
  rewrite Z.min_l by lia. reflexivity.
Qed.

Lemma array_set_push (arr : list A) (v : A) :
  Chance.array_set undefined arr (length arr) v = arr ++ [v].
Proof.
  unfold Chance.array_set. rewrite bool_decide_eq_false_2 by lia.
  rewrite Nat.sub_diag. reflexivity.
Qed.

(** The loop of [shuffle]: the elements moved so far together with
    those left are the elements of the input, which is not touched. *)
Lemma shuffle_loop_spec (arr : list A) :
  ∀ todo v c,
    length (Chance.old_array v) = todo →
    Chance.v_arr v = arr →
    Chance.new_array v ++ Chance.old_array v ≡ₚ arr →
    ∃ v', Chance.shuffle_loop undefined todo (length (Chance.new_array v)) v c
          = (Ok v', Chance.draws todo c)
          ∧ Chance.v_arr v' = arr
          ∧ Chance.new_array v' ≡ₚ arr
          ∧ Chance.old_array v' = [].
Proof.
  induction todo as [|todo IH]; intros v c Hlen Harr Hperm.
  - exists v. cbn. repeat split; try assumption.
    + apply nil_length_inv in Hlen. rewrite Hlen, app_nil_r in Hperm. exact Hperm.
    + apply nil_length_inv, Hlen.
  - cbn [Chance.shuffle_loop]. run_monad. unfold Chance.max_index.
    destruct (natural_max_run c (Z.of_nat (length (Chance.old_array v)) - 1))
      as (j & Hj & Hrange); [lia|].
    rewrite Hj.
    assert (Hin : 0 <= j < Z.of_nat (length (Chance.old_array v))) by lia.
    pose proof (index_lookup (Chance.old_array v) j Hin) as Hx.
    rewrite array_set_push, (splice1_delete _ j Hin).
    set (x := Chance.index undefined (Chance.old_array v) j) in *.
    set (v1 := Chance.mkShuffle _ _ _).
    destruct (IH v1 (Chance.draw c)) as (v' & Hv' & Ha & Hp & Ho).
    + cbn. rewrite length_delete by eauto. lia.
    + exact Harr.
    + cbn. rewrite <- Hperm, <- app_assoc. apply Permutation_app_head.
      cbn. symmetry. apply delete_Permutation, Hx.
    + exists v'. rewrite draws_S_l.
      replace (S (length (Chance.new_array v))) with (length (Chance.new_array v1))
        by (cbn; rewrite length_app; cbn; lia).
      rewrite Hv'. auto.
Qed.

End ArrayFacts.

(** C6.  [shuffle(arr)] returns a new array that is a permutation of
    [arr], of the same length, and [arr] is as it was when the call
    returns; the working copy has been emptied, one draw per element. *)
Theorem shuffle_permutation {A} (undefined : A) (arr : list A) (c : Chance.chance) :
  ∃ v, Chance.shuffle_run undefined arr c = (Ok v, Chance.draws (length arr) c)
       ∧ Chance.shuffle undefined arr c = (Ok (Chance.new_array v), Chance.draws (length arr) c)
       ∧ Chance.new_array v ≡ₚ arr
       ∧ length (Chance.new_array v) = length arr
       ∧ Chance.v_arr v = arr.
Proof.
  destruct (shuffle_loop_spec undefined arr (length arr) (Chance.mkShuffle arr arr []) c)
    as (v & Hv & Ha & Hp & _); [reflexivity..|].
  exists v. unfold Chance.shuffle, Chance.shuffle_run. run_monad.
  cbn [Chance.new_array length] in Hv. rewrite Hv.
  repeat split; try assumption. apply Permutation_length, Hp.
Qed.

(** *** [weighted] *)

Lemma Qgtb_spec a b : reflect (b < a)%Q (Chance.Qgtb a b).
Proof.
  destruct (Qlt_le_dec b a) as [H|H].
  - rewrite (Qgtb_true _ _ H). constructor. exact H.
  - rewrite (Qgtb_false _ _ H). constructor. apply Qle_not_lt, H.
Qed.

Lemma weights_sum_acc (weights : list Q) (acc : Q) :
  let f := fun sum val : Q => if Chance.Qgtb val 0 then (sum + val)%Q else sum in
  (acc <= foldl f acc weights)%Q
  ∧ (Exists (fun w => (0 < w)%Q) weights → (acc < foldl f acc weights)%Q).
Proof.
  intros f. revert acc. induction weights as [|w ws IH]; intros acc; cbn [foldl].
  - split; [apply Qle_refl|]. intros H. inversion H.
  - destruct (IH (f acc w)) as [IH1 IH2].
    assert (Hstep : (acc <= f acc w)%Q ∧ ((0 < w)%Q → (acc < f acc w)%Q)).
    { unfold f. destruct (Qgtb_spec w 0) as [Hw|Hw].
      - split.
        + rewrite <- (Qplus_0_r acc) at 1. apply Qplus_le_r, Qlt_le_weak, Hw.
        + intros _. rewrite <- (Qplus_0_r acc) at 1. apply Qplus_lt_r, Hw.
      - split; [apply Qle_refl|]. intros Hw'. contradiction. }
    destruct Hstep as [S1 S2]. split.
    + eapply Qle_trans; eassumption.
    + intros H. inversion H as [? ? Hw|? ? Hws]; subst.
      * eapply Qlt_le_trans; [apply S2, Hw|exact IH1].
      * eapply Qle_lt_trans; [exact S1|apply IH2, Hws].
Qed.

Lemma weights_sum_nonzero (weights : list Q) :
  Exists (fun w => (0 < w)%Q) weights → Qeq_bool (Chance.weights_sum weights) 0 = false.
Proof.
  intros H. destruct (Qeq_bool (Chance.weights_sum weights) 0) eqn:E; [|reflexivity].
  apply Qeq_bool_iff in E.
  destruct (weights_sum_acc weights 0) as [_ Hpos]. specialize (Hpos H).
  unfold Chance.weights_sum in E. rewrite E in Hpos. exfalso. exact (Qlt_irrefl _ Hpos).
Qed.

(** The scan of [weighted] from [weightIndex] on: whether it stops at an
    entry or runs to the end, the index it leaves in [chosenIdx] has a
    positive weight. *)
Lemma weighted_scan_positive (weights : list Q) (selected : Q) :
  ∀ rest weightIndex total lastGoodIdx chosenIdx,
    drop weightIndex weights = rest →
    (Chance.positive_at weights lastGoodIdx ∨ Exists (fun w => (0 < w)%Q) rest) →
    (rest = [] → ∃ i, chosenIdx = Some i ∧ Chance.positive_at weights i) →
    ∃ i, Chance.weighted_scan rest weightIndex (length weights) selected total
           lastGoodIdx chosenIdx = Some i
         ∧ Chance.positive_at weights i.
Proof.
  induction rest as [|val rest IH]; intros k total lastGood chosen Hdrop Hgood Hend.
  - cbn. apply Hend. reflexivity.
  - cbn [Chance.weighted_scan].
    assert (Hk : weights !! k = Some val).
    { rewrite <- (Nat.add_0_r k), <- lookup_drop, Hdrop. reflexivity. }
    assert (Hrest : drop (S k) weights = rest).
    { pose proof (drop_S _ _ _ Hk) as E. rewrite Hdrop in E. congruence. }
    destruct (Qgtb_spec val 0) as [Hval|Hval]; cbn [andb].
    + destruct (Qle_bool selected (total + val)).
      * exists (Z.of_nat k). split; [reflexivity|]. split; [lia|].
        exists val. rewrite Nat2Z.id. auto.
      * apply IH; [exact Hrest| |].
        -- left. split; [lia|]. exists val. rewrite Nat2Z.id. auto.
        -- intros ->. rewrite bool_decide_eq_true_2.
           ++ eexists. split; [reflexivity|]. split; [lia|]. exists val. rewrite Nat2Z.id. auto.
           ++ apply (f_equal length) in Hrest. rewrite length_drop in Hrest. cbn in Hrest.
              apply lookup_lt_Some in Hk. lia.
    + assert (Hgood' : Chance.positive_at weights lastGood ∨ Exists (fun w => (0 < w)%Q) rest).
      { destruct Hgood as [?|H]; [left; assumption|].
        inversion H; subst; [contradiction|right; assumption]. }
      apply IH; [exact Hrest|exact Hgood'|].
      intros ->. rewrite bool_decide_eq_true_2.
      * destruct Hgood' as [Hg|H]; [|inversion H]. eexists. split; [reflexivity|exact Hg].
      * apply (f_equal length) in Hrest. rewrite length_drop in Hrest. cbn in Hrest.
        apply lookup_lt_Some in Hk. lia.
Qed.

(** C7.  With as many weights as elements and at least one positive
    weight, [weighted(arr, weights)] returns, at every engine state and
    for every [trim], the element at an index whose weight is strictly
    positive; in particular [weighted(['a','b'], [0,1])] always returns
    ['b']. *)
Theorem weighted_positive {A} (undefined : A) (arr : list A) (weights : list Q)
        (trim : option bool) (c : Chance.chance) :
  (length arr = length weights →
   Exists (fun w => (0 < w)%Q) weights →
   ∃ idx chosen w arr' weights',
     Chance.weighted undefined arr weights trim c
     = (Ok (chosen, arr', weights'), Chance.draw c)
     ∧ arr !! idx = Some chosen ∧ weights !! idx = Some w ∧ (0 < w)%Q)
  ∧ ∃ arr' weights',
      Chance.weighted "" ["a"; "b"] [0%Q; 1%Q] trim c
      = (Ok ("b", arr', weights'), Chance.draw c).
Proof.
  assert (Hgen : ∀ B (u : B) (a : list B) (ws : list Q),
    length a = length ws → Exists (fun w => (0 < w)%Q) ws →
    ∃ idx chosen w arr' weights',
      Chance.weighted u a ws trim c = (Ok (chosen, arr', weights'), Chance.draw c)
      ∧ a !! idx = Some chosen ∧ ws !! idx = Some w ∧ (0 < w)%Q).
  { intros B u a ws Hlen Hpos. unfold Chance.weighted.
    rewrite bool_decide_eq_false_2 by (intros H; apply H, Hlen).
    rewrite (weights_sum_nonzero ws Hpos). run_monad. rewrite random_run.
    set (selected := (_ * Chance.weights_sum ws)%Q).
    destruct (weighted_scan_positive ws selected ws 0 0%Q (-1) None)
      as (i & Hi & Hi0 & w & Hw & Hwpos).
    { reflexivity. }
    { right. exact Hpos. }
    { intros ->. inversion Hpos. }
    rewrite Hi. cbn [Chance.index_opt].
    assert (Hin : 0 <= i < Z.of_nat (length a)).
    { apply lookup_lt_Some in Hw. lia. }
    pose proof (index_lookup u a i Hin) as Ha.
    exists (Z.to_nat i), (Chance.index u a i), w.
    destruct (default false trim); eexists _, _; (split; [reflexivity|auto]). }
  split.
  - apply Hgen.
  - destruct (Hgen string "" ["a"; "b"] [0%Q; 1%Q]) as (idx & chosen & w & arr' & ws' & Hrun & Ha & Hw & Hpos).
    { reflexivity. }
    { right. left. reflexivity. }
    exists arr', ws'. rewrite Hrun. do 3 f_equal.
    destruct idx as [|[|idx]]; cbn in Ha, Hw.
    + injection Hw as <-. exfalso. exact (Qlt_irrefl _ Hpos).
    + congruence.
    + discriminate.
Qed.

Lemma weighted_positive_witness :
  let c := Chance.new 0 [Chance.SeedNumber 42] in
  ∃ idx chosen w arr' weights',
     Chance.weighted 0 [10; 20; 30] [(1 # 2)%Q; (-1)%Q; 2%Q] None c
     = (Ok (chosen, arr', weights'), Chance.draw c)
     ∧ [10; 20; 30] !! idx = Some chosen
     ∧ [(1 # 2)%Q; (-1)%Q; 2%Q] !! idx = Some w ∧ (0 < w)%Q.
Proof.
  intros c.
  apply (proj1 (weighted_positive 0 [10; 20; 30] [(1 # 2)%Q; (-1)%Q; 2%Q] None c)).
  - reflexivity.
  - left. reflexivity.
Defined.

(** ** Seeding the engine *)

Lemma ToInt32_eqm a : ToInt32 a mod 2 ^ 32 = a mod 2 ^ 32.
Proof.
  unfold ToInt32.
  rewrite Zminus_mod, Z.mod_mod by lia.
  rewrite <- Zminus_mod. f_equal. lia.
Qed.

Lemma mod32_bitwise (op : Z → Z → Z) (f : bool → bool → bool) :
  (∀ a b n, Z.testbit (op a b) n = f (Z.testbit a n) (Z.testbit b n)) →
  f false false = false →
  ∀ a b, op a b mod 2 ^ 32 = op (a mod 2 ^ 32) (b mod 2 ^ 32).
Proof.
  intros Hop Hf a b. apply Z.bits_inj'. intros n Hn.
  rewrite Hop, !Z.testbit_mod_pow2, Hop by lia.
  destruct (n <? 32); cbn; [reflexivity|]. symmetry. exact Hf.
Qed.

Lemma lxor_mod32 a b : Z.lxor a b mod 2 ^ 32 = Z.lxor (a mod 2 ^ 32) (b mod 2 ^ 32).
Proof. apply (mod32_bitwise Z.lxor xorb); [apply Z.lxor_spec|reflexivity]. Qed.

Lemma land_mod32 a b : Z.land a b mod 2 ^ 32 = Z.land (a mod 2 ^ 32) (b mod 2 ^ 32).
Proof. apply (mod32_bitwise Z.land andb); [apply Z.land_spec|reflexivity]. Qed.

Lemma bxor_mod32 a b : bxor a b mod 2 ^ 32 = Z.lxor (a mod 2 ^ 32) (b mod 2 ^ 32).
Proof. unfold bxor. rewrite lxor_mod32, !ToInt32_eqm. reflexivity. Qed.

Lemma band_mod32 a b : band a b mod 2 ^ 32 = Z.land (a mod 2 ^ 32) (b mod 2 ^ 32).
Proof. unfold band. rewrite land_mod32, !ToInt32_eqm. reflexivity. Qed.

Lemma shl_mod32 a n : 0 <= n < 32 → shl a n mod 2 ^ 32 = (a * 2 ^ n) mod 2 ^ 32.
Proof.
  intros Hn. unfold shl. rewrite ToInt32_eqm.
  replace (Z.land n 31) with n.
  - rewrite Z.shiftl_mul_pow2 by lia.
    rewrite Zmult_mod, ToInt32_eqm, <- Zmult_mod. reflexivity.
  - change 31 with (Z.ones 5). rewrite Z.land_ones by lia. rewrite Z.mod_small; lia.
Qed.

(** The high and the low half of a 32-bit word, as the code takes them. *)
Lemma high_half s :
  shru (band s 0xffff0000) 16 = (s mod 2 ^ 32) / 2 ^ 16.
Proof.
  unfold shru, ToUint32. rewrite band_mod32.
  change (Z.land 16 31) with 16. change (0xffff0000 mod 2 ^ 32) with (Z.shiftl (Z.ones 16) 16).
  pose proof (Z.mod_pos_bound s (2 ^ 32) ltac:(lia)) as Hx.
  generalize dependent (s mod 2 ^ 32). intros x Hx.
  rewrite <- Z.shiftr_div_pow2 by lia.
  apply Z.bits_inj'. intros n Hn.
  rewrite !Z.shiftr_spec, Z.land_spec, Z.shiftl_spec by lia.
  replace (n + 16 - 16) with n by lia.
  rewrite Z.testbit_ones_nonneg by lia.
  destruct (Z.ltb_spec n 16).
  - apply andb_true_r.
  - rewrite andb_false_r.
    symmetry. apply (Z.bits_above_log2 x (n + 16)); [lia|].
    destruct (Z.eq_dec x 0) as [->|]; [cbn; lia|].
    apply Z.log2_lt_pow2; [lia|]. eapply Z.lt_le_trans; [apply Hx|].
    apply Z.pow_le_mono_r; lia.
Qed.

Lemma low_half s : band s 0x0000ffff = (s mod 2 ^ 32) mod 2 ^ 16.
Proof.
  unfold band. change (ToInt32 0x0000ffff) with (Z.ones 16).
  rewrite Z.land_ones by lia.
  rewrite <- (ToInt32_eqm s).
  symmetry. apply Z.mod_mod_divide. exists (2 ^ 16). reflexivity.
Qed.

(** The multiplication by 1812433253 done in two halves is the
    multiplication modulo 2^32. *)
Lemma init_genrand_word (p : Z) (i : nat) :
  0 <= p < 2 ^ 32 →
  let s := bxor p (shru p 30) in
  shru ((shl (shru (band s 0xffff0000) 16 * 1812433253) 16
         + band s 0x0000ffff * 1812433253) + Z.of_nat i) 0
  = (1812433253 * Z.lxor p (Z.shiftr p 30) + Z.of_nat i) mod 2 ^ 32.
Proof.
  intros Hp s. rewrite shru_0, high_half, low_half.
  assert (Hs : s mod 2 ^ 32 = Z.lxor p (Z.shiftr p 30)).
  { unfold s. rewrite bxor_mod32. unfold shru, ToUint32.
    change (Z.land 30 31) with 30. rewrite (Z.mod_small p) by lia.
    rewrite (Z.mod_small (Z.shiftr p 30)). { reflexivity. }
    rewrite Z.shiftr_div_pow2 by lia. split.
    - apply Z.div_pos; lia.
    - apply Z.div_lt_upper_bound; lia. }
  rewrite Hs. set (x := Z.lxor p (Z.shiftr p 30)).
  rewrite <- Z.add_assoc, Zplus_mod, shl_mod32, <- Zplus_mod by lia.
  f_equal. rewrite (Z.div_mod x (2 ^ 16)) at 3 by lia. ring.
Qed.

Lemma seeded_step seed m a :
  (1 <= m < Twister.N)%nat → Twister.seeded seed m a →
  Twister.seeded seed (S m) (Twister.init_genrand_body a m).
Proof.
  intros Hm (Hlen & H0 & Hrec).
  destruct (Hrec (m - 1)%nat) as (_ & p & _ & Hp & Hprange & _); [lia|].
  unfold Twister.init_genrand_body, Twister.at_. rewrite Hp. cbn [default from_option id].
  rewrite (init_genrand_word p m Hprange).
  set (x := (1812433253 * Z.lxor p (Z.shiftr p 30) + Z.of_nat m) mod 2 ^ 32).
  assert (Hx : 0 <= x < 2 ^ 32) by (apply Z.mod_pos_bound; lia).
  split; [|split].
  - rewrite length_insert. exact Hlen.
  - rewrite list_lookup_insert_ne by lia. exact H0.
  - intros i Hi. destruct (decide (i = m)) as [->|Hne].
    + exists p, x. rewrite list_lookup_insert_ne by lia.
      rewrite list_lookup_insert_eq by lia. auto.
    + destruct (Hrec i) as (q & y & Hq & Hy & Hyr & Hyeq); [lia|].
      exists q, y. rewrite !list_lookup_insert_ne by lia. auto.
Qed.

Lemma init_genrand_loop_spec seed :
  ∀ fuel m a,
    (1 <= m <= Twister.N)%nat → (Twister.N - m <= fuel)%nat → Twister.seeded seed m a →
    let st := Twister.init_genrand_loop fuel (Twister.mkMT a m) in
    Twister.mti st = Twister.N ∧ Twister.seeded seed Twister.N (Twister.mt st).
Proof.
  induction fuel as [|fuel IH]; intros m a Hm Hfuel Hinv; cbn [Twister.init_genrand_loop Twister.mti Twister.mt].
  - assert (m = Twister.N) as -> by lia. auto.
  - case_bool_decide as Hlt.
    + apply IH; [lia|lia|]. apply seeded_step; [lia|exact Hinv].
    + assert (m = Twister.N) as -> by lia. auto.
Qed.

(** C3, as amended.  [init_genrand(s)] sets [mt[0]] to the seed as a
    32-bit word and, for [i] in 1..623, [mt[i]] to
    [(1812433253 * (mt[i-1] xor (mt[i-1] >> 30)) + i) mod 2^32]: the
    index is added, not xor-ed.  It leaves the cursor at 624 and every
    entry a 32-bit word. *)
Theorem init_genrand_recurrence (s : Z) (st : Twister.MersenneTwister) :
  length (Twister.mt st) = Twister.N →
  let st' := Twister.init_genrand s st in
  Twister.mti st' = 624%nat
  ∧ length (Twister.mt st') = 624%nat
  ∧ Twister.mt st' !! 0%nat = Some (s mod 2 ^ 32)
  ∧ ∀ i, (1 <= i < 624)%nat →
      ∃ p x, Twister.mt st' !! (i - 1)%nat = Some p
             ∧ Twister.mt st' !! i = Some x
             ∧ x = (1812433253 * Z.lxor p (Z.shiftr p 30) + Z.of_nat i) mod 2 ^ 32
             ∧ 0 <= x < 2 ^ 32.
Proof.
  intros Hlen st'.
  destruct (init_genrand_loop_spec s Twister.N 1 (<[ 0%nat := shru s 0 ]> (Twister.mt st)))
    as (Hmti & Hl & H0 & Hrec).
  - unfold Twister.N. lia.
  - lia.
  - split; [|split].
    + rewrite length_insert. exact Hlen.
    + rewrite list_lookup_insert_eq by (rewrite Hlen; unfold Twister.N; lia).
      rewrite shru_0. reflexivity.
    + intros i Hi. assert (i = 0%nat) as -> by lia.
      exists (s mod 2 ^ 32), (s mod 2 ^ 32). cbn [Nat.sub].
      rewrite list_lookup_insert_eq by (rewrite Hlen; unfold Twister.N; lia).
      rewrite shru_0.
      split; [reflexivity|]. split; [reflexivity|].
      split; [apply Z.mod_pos_bound; lia|]. intros; lia.
  - subst st'. unfold Twister.init_genrand.
    split; [exact Hmti|]. split; [exact Hl|]. split; [exact H0|].
    intros i Hi. destruct (Hrec i) as (p & x & Hp & Hx & Hxr & Hxeq); [unfold Twister.N; lia|].
    exists p, x. split; [exact Hp|]. split; [exact Hx|]. split; [apply Hxeq; lia|exact Hxr].
Qed.

Lemma init_genrand_recurrence_witness :
  let st' := Twister.init_genrand 1 (Twister.mkMT (replicate Twister.N 0) (Twister.N + 1)) in
  Twister.mti st' = 624%nat
  ∧ length (Twister.mt st') = 624%nat
  ∧ Twister.mt st' !! 0%nat = Some (1 mod 2 ^ 32)
  ∧ ∀ i, (1 <= i < 624)%nat →
      ∃ p x, Twister.mt st' !! (i - 1)%nat = Some p
             ∧ Twister.mt st' !! i = Some x
             ∧ x = (1812433253 * Z.lxor p (Z.shiftr p 30) + Z.of_nat i) mod 2 ^ 32
             ∧ 0 <= x < 2 ^ 32.
Proof.
  apply (init_genrand_recurrence 1 (Twister.mkMT (replicate Twister.N 0) (Twister.N + 1))).
  reflexivity.
Defined.

(** C3, as first stated, fails: with the seed 1 the entry [mt[0]] is 1
    and [mt[1]] is [1812433253 + 1], while xor-ing the index into
    [f(mt[0]) = 1812433253 * (1 xor (1 >> 30)) mod 2^32] gives
    [1812433252]. *)
Lemma init_genrand_not_xor :
  let a := Twister.mt (Twister.new 0 (Some 1)) in
  a !! 0%nat = Some 1
  ∧ a !! 1%nat = Some 1812433254
  ∧ a !! 1%nat ≠ Some (Z.lxor ((1812433253 * Z.lxor 1 (Z.shiftr 1 30)) mod 2 ^ 32) 1).
Proof.
  intros a. split; [vm_compute; reflexivity|]. split; [vm_compute; reflexivity|].
  vm_compute. discriminate.
Qed.

(** ** The constructor *)

(** The loop over [j] adds the same hash once per character. *)
Lemma seedling_of_string (s : string) :
  Chance.seedling_of (Chance.SeedString s)
  = Z.of_nat (String.length s) * Chance.hash_loop (Chance.charCodes s) 0.
Proof.
  unfold Chance.seedling_of.
  assert (Hlen : length (Chance.charCodes s) = String.length s).
  { unfold Chance.charCodes. rewrite length_fmap.
    induction s as [|a s IH]; cbn; [reflexivity|]. rewrite IH. reflexivity. }
  rewrite <- Hlen. generalize (Chance.hash_loop (Chance.charCodes s) 0). intros h.
  generalize (Chance.charCodes s). intros l.
  assert (Hacc : ∀ acc, foldl (fun seedling _ => seedling + h) acc l
                        = acc + Z.of_nat (length l) * h).
  { induction l as [|x l IH]; intros acc; cbn [foldl length]; [lia|]. rewrite IH. lia. }
  rewrite Hacc. lia.
Qed.

(** The combination of the seedlings:
    [seed += (arguments.length - i) * seedling], in order. *)
Lemma seed_loop_spec (len : Z) (args : list Chance.seed_arg) :
  ∀ i seed,
    Chance.seed_loop len i args seed
    = seed + foldr Z.add 0
               (imap (fun k a => (len - (i + Z.of_nat k)) * Chance.seedling_of a) args).
Proof.
  induction args as [|a rest IH]; intros i seed; cbn [Chance.seed_loop imap foldr].
  - lia.
  - rewrite IH. rewrite Z.add_0_r, <- Z.add_assoc. do 3 f_equal.
    apply imap_ext. intros k x _. cbn. f_equal. lia.
Qed.

(** C2 on the code.  The seed is the combination
    [sum of (numComponents - index) * seedling]; a numeric component is
    its own seedling; the seedling of a string is its hash times its
    length, the hash being added once per character.  For ["ab"] the
    hash is 6363201 and the seed is twice that. *)
Theorem seed_of_components (args : list Chance.seed_arg) :
  (args ≠ [] →
   Chance.seed_of args
   = Some (foldr Z.add 0
             (imap (fun i a => (Z.of_nat (length args) - Z.of_nat i) * Chance.seedling_of a) args)))
  ∧ (∀ n, Chance.seedling_of (Chance.SeedNumber n) = n)
  ∧ (∀ s, Chance.seedling_of (Chance.SeedString s)
          = Z.of_nat (String.length s) * Chance.hash_loop (Chance.charCodes s) 0)
  ∧ Chance.hash_loop (Chance.charCodes "ab") 0 = 6363201
  ∧ Chance.seed_of [Chance.SeedString "ab"] = Some 12726402.
Proof.
  split; [|split; [|split; [|split]]].
  - intros Hne. destruct args as [|a rest]; [contradiction|].
    unfold Chance.seed_of. rewrite seed_loop_spec. f_equal.
  - reflexivity.
  - apply seedling_of_string.
  - vm_compute. reflexivity.
  - vm_compute. reflexivity.
Qed.

Lemma seed_of_components_witness :
  Chance.seed_of [Chance.SeedNumber 42; Chance.SeedString "hello"; Chance.SeedNumber 7]
  = Some (foldr Z.add 0
            (imap (fun i a => (Z.of_nat 3 - Z.of_nat i) * Chance.seedling_of a)
                  [Chance.SeedNumber 42; Chance.SeedString "hello"; Chance.SeedNumber 7])).
Proof.
  apply (proj1 (seed_of_components
                  [Chance.SeedNumber 42; Chance.SeedString "hello"; Chance.SeedNumber 7])).
  discriminate.
Defined.

(** ** Sequences of calls *)









(** Without constructor arguments the engine is seeded from
    [Math.random], and two instances differ. *)
Example unseeded_depends_on_host :
  let natural := World.exec (World.CallNatural (Chance.mkRange None (Some 1000%Q))) in
  let clock := fun _ : nat => Chance.mkDate 1700000000000 2023 10 in
  World.run [World.ENew 1 []; World.ENew 2 [];
             World.ECall clock 0%nat natural; World.ECall clock 1%nat natural]
            (World.mkWorld ∅ World.initial_tables)
  = [World.ONew 0%nat; World.ONew 1%nat;
     World.OCall 0%nat (Ok (World.VNum 417)); World.OCall 1%nat (Ok (World.VNum 436))].
Proof. vm_compute. reflexivity. Qed.

(** [exp_year()] reads the month and the year. *)
Example exp_year_depends_on_clock :
  let exp_year := World.exec World.CallExpYear in
  World.run [World.ENew 0 [Chance.SeedNumber 42];
             World.ECall (fun _ => Chance.mkDate 1700000000000 2023 10) 0%nat exp_year;
             World.ECall (fun _ => Chance.mkDate 1800000000000 2027 0) 0%nat exp_year]
            (World.mkWorld ∅ World.initial_tables)
  = [World.ONew 0%nat; World.OCall 0%nat (Ok (World.VStr "2027"));
     World.OCall 0%nat (Ok (World.VStr "2035"))].
Proof. vm_compute. reflexivity. Qed.

(** ** Digits, the Luhn family and [cc] *)

Lemma list_ascii_app (s1 s2 : string) :
  list_ascii_of_string (s1 +:+ s2) = list_ascii_of_string s1 ++ list_ascii_of_string s2.
Proof.
  induction s1 as [|a s1 IH]; [reflexivity|].
  change (String a s1 +:+ s2) with (String a (s1 +:+ s2)). cbn. rewrite IH. reflexivity.
Qed.

Lemma string_app_nil_r (s : string) : s +:+ "" = s.
Proof.
  induction s as [|a s IH]; [reflexivity|].
  change (String a s +:+ "") with (String a (s +:+ "")). rewrite IH. reflexivity.
Qed.

Lemma string_app_assoc (s1 s2 s3 : string) : (s1 +:+ s2) +:+ s3 = s1 +:+ (s2 +:+ s3).
Proof.
  induction s1 as [|a s1 IH]; [reflexivity|].
  change ((String a s1 +:+ s2) +:+ s3) with (String a ((s1 +:+ s2) +:+ s3)).
  rewrite IH. reflexivity.
Qed.

Lemma concat_cons (x : string) (xs : list string) :
  String.concat "" (x :: xs) = x +:+ String.concat "" xs.
Proof.
  destruct xs as [|y ys]; cbn [String.concat].
  - symmetry. apply string_app_nil_r.
  - reflexivity.
Qed.

Lemma concat_app (xs ys : list string) :
  String.concat "" (xs ++ ys) = String.concat "" xs +:+ String.concat "" ys.
Proof.
  induction xs as [|x xs IH]; [reflexivity|].
  rewrite <- app_comm_cons, !concat_cons, IH, string_app_assoc. reflexivity.
Qed.

Lemma join_app (a b : list Chance.piece) :
  Chance.join (a ++ b) = Chance.join a +:+ Chance.join b.
Proof. unfold Chance.join. rewrite fmap_app. apply concat_app. Qed.

Lemma join_split_chars (s : string) : Chance.join (Chance.split_chars s) = s.
Proof.
  unfold Chance.join, Chance.split_chars.
  induction s as [|a s IH]; [reflexivity|].
  cbn [list_ascii_of_string fmap list_fmap]. rewrite concat_cons.
  cbn [fmap list_fmap] in IH. rewrite IH. reflexivity.
Qed.

Lemma all_digits_app (s1 s2 : string) :
  Chance.all_digits s1 → Chance.all_digits s2 → Chance.all_digits (s1 +:+ s2).
Proof.
  unfold Chance.all_digits. intros H1 H2.
  rewrite list_ascii_app, forallb_app, H1, H2. reflexivity.
Qed.

Lemma substring_prefix (p q : string) :
  String.substring 0 (String.length p) (p +:+ q) = p.
Proof.
  induction p as [|a p IH]; [destruct q; reflexivity|].
  change (String a p +:+ q) with (String a (p +:+ q)). cbn. rewrite IH. reflexivity.
Qed.

Lemma substring_last (p : string) (c : ascii) :
  String.substring (String.length p) 1 (p +:+ String c "") = String c "".
Proof.
  induction p as [|a p IH]; [reflexivity|].
  change (String a p +:+ String c "") with (String a (p +:+ String c "")). cbn. exact IH.
Qed.

(** *** Decimal digits *)

Lemma is_digit_char (c : ascii) :
  Chance.is_digit c = true →
  ∃ k, 0 <= k <= 9 ∧ Chance.digit_value c = Some k
       ∧ Chance.toString (Some k) = String c ""
       ∧ ∀ d, ∃ d', uint_of_char c (Some d) = Some d'
                    ∧ NilEmpty.string_of_uint d' = String c (NilEmpty.string_of_uint d).
Proof.
  destruct c as [[|] [|] [|] [|] [|] [|] [|] [|]]; intros H; try discriminate H;
    (eexists; split; [|split; [vm_compute; reflexivity|split; [vm_compute; reflexivity|]]];
     [lia|intros d; eexists; split; reflexivity]).
Qed.

Lemma all_digits_parse (s : string) :
  Chance.all_digits s →
  ∃ d, NilEmpty.uint_of_string s = Some d ∧ NilEmpty.string_of_uint d = s.
Proof.
  unfold Chance.all_digits. induction s as [|c s IH]; intros H.
  - exists Decimal.Nil. split; reflexivity.
  - cbn [list_ascii_of_string forallb] in H. apply andb_prop in H as [Hc Hs].
    destruct (IH Hs) as (d & Hd & Hds).
    destruct (is_digit_char c Hc) as (k & _ & _ & _ & Hk).
    destruct (Hk d) as (d' & Hd' & Hs').
    exists d'. cbn [NilEmpty.uint_of_string]. rewrite Hd, Hd', Hs', Hds. auto.
Qed.

Lemma digit_toString (k : Z) :
  0 <= k <= 9 →
  ∃ c, Chance.toString (Some k) = String c "" ∧ Chance.is_digit c = true
       ∧ Chance.Number (String c "") = Some k.
Proof.
  intros Hk.
  assert (k = 0 ∨ k = 1 ∨ k = 2 ∨ k = 3 ∨ k = 4 ∨ k = 5 ∨ k = 6 ∨ k = 7 ∨ k = 8 ∨ k = 9)
    as Hcases by lia.
  repeat (destruct Hcases as [->|Hcases]); try subst k;
    (eexists; split; [vm_compute; reflexivity|split; vm_compute; reflexivity]).
Qed.

(** *** The value of a string of digits *)

Lemma of_lu_bound (d : Decimal.uint) :
  (DecimalPos.Unsigned.of_lu d < 10 ^ DecimalPos.Unsigned.usize d)%N.
Proof.
  induction d; cbn [DecimalPos.Unsigned.of_lu DecimalPos.Unsigned.usize];
    rewrite ?N.pow_succ_r'; rewrite ?N.pow_0_r; lia.
Qed.

Lemma usize_revapp (d d' : Decimal.uint) :
  DecimalPos.Unsigned.usize (Decimal.revapp d d')
  = (DecimalPos.Unsigned.usize d + DecimalPos.Unsigned.usize d')%N.
Proof.
  revert d'. induction d; intros d'; cbn [Decimal.revapp DecimalPos.Unsigned.usize];
    rewrite ?IHd; cbn [DecimalPos.Unsigned.usize]; lia.
Qed.

Lemma usize_length (d : Decimal.uint) :
  DecimalPos.Unsigned.usize d = N.of_nat (String.length (NilEmpty.string_of_uint d)).
Proof.
  induction d; cbn [DecimalPos.Unsigned.usize NilEmpty.string_of_uint String.length];
    rewrite ?Nat2N.inj_succ, ?IHd; reflexivity.
Qed.

Lemma of_uint_bound (d : Decimal.uint) :
  Z.of_N (N.of_uint d) < 10 ^ Z.of_nat (String.length (NilEmpty.string_of_uint d)).
Proof.
  unfold N.of_uint. rewrite DecimalPos.Unsigned.of_uint_alt.
  pose proof (of_lu_bound (Decimal.rev d)) as H.
  unfold Decimal.rev in H at 2. rewrite usize_revapp in H.
  cbn [DecimalPos.Unsigned.usize] in H. rewrite N.add_0_r, usize_length in H.
  apply N2Z.inj_lt in H. rewrite N2Z.inj_pow in H.
  rewrite nat_N_Z in H. exact H.
Qed.

(** The number a string of digits denotes, with its bound, and the
    string it prints as. *)
Lemma Number_digits (p : string) :
  Chance.all_digits p →
  ∃ d, NilEmpty.string_of_uint d = p
       ∧ Chance.Number p = Some (Z.of_N (N.of_uint d))
       ∧ 0 <= Z.of_N (N.of_uint d) < 10 ^ Z.of_nat (String.length p)
       ∧ Chance.toString (Chance.Number p) = NilZero.string_of_uint (Decimal.unorm d).
Proof.
  intros Hp. destruct (all_digits_parse p Hp) as (d & Hd & Hs).
  exists d. split; [exact Hs|].
  assert (HN : Chance.Number p = Some (Z.of_N (N.of_uint d))).
  { unfold Chance.Number. rewrite Hd. reflexivity. }
  split; [exact HN|]. split.
  - split; [lia|]. rewrite <- Hs. apply of_uint_bound.
  - rewrite HN. unfold Chance.toString.
    destruct (Z.ltb_spec (Z.of_N (N.of_uint d)) 0); [lia|].
    rewrite N2Z.id, DecimalN.Unsigned.to_of. reflexivity.
Qed.

(** *** The Luhn sum *)

Lemma luhn_loop_app (l1 l2 : list ascii) :
  ∀ i sum, Chance.luhn_loop (l1 ++ l2) i sum
           = Chance.luhn_loop l2 (i + length l1) (Chance.luhn_loop l1 i sum).
Proof.
  induction l1 as [|c l1 IH]; intros i sum; cbn [app Chance.luhn_loop length].
  - rewrite Nat.add_0_r. reflexivity.
  - rewrite IH. f_equal. lia.
Qed.

Lemma luhn_loop_zero (i : nat) (sum : option Z) :
  Chance.luhn_loop ["0"%char] i sum = sum.
Proof.
  cbn [Chance.luhn_loop]. change (Chance.digit_value "0") with (Some 0).
  destruct (Nat.even i), sum as [s|]; cbn; try reflexivity;
    change (9 <? 0 * 2) with false; cbv iota; f_equal; lia.
Qed.

Lemma luhn_loop_digits (l : list ascii) :
  forallb Chance.is_digit l = true →
  ∀ i s, 0 <= s → ∃ s', Chance.luhn_loop l i (Some s) = Some s' ∧ 0 <= s'.
Proof.
  induction l as [|c l IH]; intros Hl i s Hs; cbn [Chance.luhn_loop].
  - exists s. auto.
  - cbn [forallb] in Hl. apply andb_prop in Hl as [Hc Hl].
    destruct (is_digit_char c Hc) as (k & Hk & Hv & _). rewrite Hv.
    destruct (Nat.even i); cbn.
    + destruct (Z.ltb_spec 9 (k * 2)); apply IH; (assumption || lia).
    + apply IH; (assumption || lia).
Qed.

Lemma forallb_rev {B} (f : B → bool) (l : list B) : forallb f (rev l) = forallb f l.
Proof.
  induction l as [|x l IH]; [reflexivity|].
  cbn [rev forallb]. rewrite forallb_app, IH. cbn. rewrite andb_true_r. apply andb_comm.
Qed.

(** The check digit of a string of digits is a digit. *)
Lemma luhn_calculate_digit (p : string) :
  Chance.all_digits p → ∃ k, Chance.luhn_calculate p = Some k ∧ 0 <= k <= 9.
Proof.
  intros Hp. unfold Chance.luhn_calculate.
  destruct (luhn_loop_digits (rev (list_ascii_of_string p))) with (i := 0%nat) (s := 0)
    as (s' & Hs' & Hpos).
  - rewrite forallb_rev. exact Hp.
  - lia.
  - rewrite Hs'. cbn [fmap option_fmap option_map]. eexists. split; [reflexivity|].
    pose proof (Z.rem_bound_pos (s' * 9) 10) as H. lia.
Qed.

(** The test vector of the Visa number 4111 1111 1111 1111. *)
Example luhn_visa_vector :
  Chance.luhn_calculate "411111111111111" = Some 1
  ∧ Chance.luhn_check "4111111111111111" = true
  ∧ Chance.luhn_check "4111111111111112" = false.
Proof. vm_compute. auto. Qed.

(** Zeros in front do not change the check digit. *)
Lemma luhn_calculate_zero (s : string) :
  Chance.luhn_calculate (String "0" s) = Chance.luhn_calculate s.
Proof.
  unfold Chance.luhn_calculate. cbn [list_ascii_of_string rev].
  rewrite luhn_loop_app, luhn_loop_zero. reflexivity.
Qed.

Lemma luhn_calculate_nzhead (d : Decimal.uint) :
  Chance.luhn_calculate (NilEmpty.string_of_uint (Decimal.nzhead d))
  = Chance.luhn_calculate (NilEmpty.string_of_uint d).
Proof.
  induction d; cbn [Decimal.nzhead NilEmpty.string_of_uint]; try reflexivity.
  rewrite luhn_calculate_zero. exact IHd.
Qed.

Lemma luhn_calculate_unorm (d : Decimal.uint) :
  Chance.luhn_calculate (NilZero.string_of_uint (Decimal.unorm d))
  = Chance.luhn_calculate (NilEmpty.string_of_uint d).
Proof.
  rewrite <- luhn_calculate_nzhead. unfold Decimal.unorm.
  destruct (Decimal.nzhead d); reflexivity.
Qed.

(** A string of digits followed by its check digit passes [luhn_check]. *)
Lemma luhn_check_payload (p : string) :
  Chance.all_digits p →
  Chance.luhn_check (p +:+ Chance.toString (Chance.luhn_calculate p)) = true.
Proof.
  intros Hp. destruct (luhn_calculate_digit p Hp) as (k & Hk & Hrange).
  destruct (digit_toString k Hrange) as (c & Hc & _ & HNc).
  destruct (Number_digits p Hp) as (d & Hd & _ & _ & Hts).
  rewrite Hk, Hc. unfold Chance.luhn_check, Chance.substring.
  rewrite string_length_app. cbn [String.length].
  replace (String.length p + 1 - 1)%nat with (String.length p) by lia.
  replace (String.length p + 1 - String.length p)%nat with 1%nat by lia.
  rewrite Nat.sub_0_r, substring_last, substring_prefix, HNc, Hts.
  rewrite luhn_calculate_unorm, Hd, Hk. apply bool_decide_eq_true_2. reflexivity.
Qed.

(** *** [cc] *)

Lemma bind_run {A B} (m : Chance.M A) (k : A → Chance.M B) (c : Chance.chance) :
  (m ≫= k) c
  = match m c with
    | (Ok a, c') => k a c'
    | (Throw e, c') => (Throw e, c')
    end.
Proof. reflexivity. Qed.

(** The entry [cc_type] hands to [cc] is an entry of the table. *)
Lemma cc_type_raw_spec (types : list Chance.cc_type_entry) (name_ : option string)
      (c : Chance.chance) :
  (∃ t c', Chance.cc_type_raw types name_ c = (Ok (Some t), c') ∧ In t types)
  ∨ ((∃ e c', Chance.cc_type_raw types name_ c = (Throw e, c'))
     ∧ (Chance.truthy_string name_ = false → types = [])).
Proof.
  unfold Chance.cc_type_raw. destruct (Chance.truthy_string name_).
  - destruct (find _ types) as [t|] eqn:E.
    + left. exists t, c. split; [reflexivity|]. apply find_some in E. apply E.
    + right. split; [eexists _, _; reflexivity|discriminate].
  - unfold Chance.pick. run_monad. case_bool_decide as Hlen.
    + right. split; [eexists _, _; reflexivity|]. intros _.
      rewrite length_fmap in Hlen. apply nil_length_inv, Hlen.
    + left. unfold Chance.max_index.
      destruct (natural_max_run c (Z.of_nat (length (Some <$> types)) - 1))
        as (i & Hi & Hrange); [lia|].
      rewrite Hi.
      assert (Hin : 0 <= i < Z.of_nat (length (Some <$> types))) by lia.
      pose proof (index_lookup None (Some <$> types) i Hin) as Hx.
      rewrite list_lookup_fmap in Hx.
      destruct (types !! Z.to_nat i) as [t|] eqn:Ht; [|discriminate].
      cbn in Hx. injection Hx as Hx. rewrite <- Hx.
      exists t, (Chance.draw c). split; [reflexivity|].
      apply list_elem_of_In. eapply list_elem_of_lookup_2, Ht.
Qed.

(** The digits [cc] generates, joined, are a string of that many
    digits. *)
Lemma join_digits (digits : list Z) :
  Forall (fun d => 0 <= d <= 9) digits →
  Chance.all_digits (Chance.join ((fun d => Chance.PNum (Some d)) <$> digits))
  ∧ String.length (Chance.join ((fun d => Chance.PNum (Some d)) <$> digits)) = length digits.
Proof.
  induction 1 as [|d digits Hd _ [IH1 IH2]]; [split; reflexivity|].
  destruct (digit_toString d Hd) as (ch & Hch & Hdig & _).
  assert (E : Chance.join ((fun d => Chance.PNum (Some d)) <$> d :: digits)
              = String ch (Chance.join ((fun d => Chance.PNum (Some d)) <$> digits))).
  { unfold Chance.join. cbn [fmap list_fmap]. rewrite concat_cons, Hch. reflexivity. }
  rewrite E. split.
  - unfold Chance.all_digits in *. cbn [list_ascii_of_string forallb]. rewrite Hdig, IH1. reflexivity.
  - cbn [String.length length]. rewrite IH2. reflexivity.
Qed.

Lemma integer_digit_run (c : Chance.chance) :
  ∃ d, Chance.integer (Chance.mkRange (Some 0%Q) (Some 9%Q)) c = (Ok d, Chance.draw c)
       ∧ 0 <= d <= 9.
Proof.
  eexists. split.
  - apply integer_run. unfold Qle. simpl. lia.
  - destruct (random_range (Chance.mt c)) as [Ha Hb].
    change 0%Q with (inject_Z 0) at 2 3. change 9%Q with (inject_Z 9).
    apply scaled_draw_range; [assumption..|lia].
Qed.

(** What [cc] returns for an entry: the payload followed by its check
    digit. *)
Lemma cc_number (t : Chance.cc_type_entry) (c : Chance.chance) :
  Chance.cc_entry_ok t = true →
  ∃ p c',
    (digits ← Chance.n (Chance.integer (Chance.mkRange (Some 0%Q) (Some 9%Q)))
                (Some (Chance.length t - Z.of_nat (String.length (Chance.prefix t)) - 1));
     let number := Chance.split_chars (Chance.prefix t)
                   ++ ((fun d => Chance.PNum (Some d)) <$> digits) in
     let number := number ++ [Chance.PNum (Chance.luhn_calculate (Chance.join number))] in
     mret (Chance.join number)) c
    = (Ok (p +:+ Chance.toString (Chance.luhn_calculate p)), c')
    ∧ Chance.all_digits p
    ∧ (String.length p <= 15)%nat.
Proof.
  unfold Chance.cc_entry_ok. intros Hok.
  apply andb_prop in Hok as [Hok Hmax]. apply andb_prop in Hok as [Hpre Hlt].
  apply Z.ltb_lt in Hlt. apply Z.leb_le in Hmax.
  unfold Chance.n. cbn [default from_option id].
  set (count := Z.to_nat _).
  destruct (n_loop_run (Chance.integer (Chance.mkRange (Some 0%Q) (Some 9%Q)))
              (fun d => 0 <= d <= 9) integer_digit_run count [] c)
    as (digits & Hrun & Hlen & Hdigits).
  destruct (join_digits digits Hdigits) as [Hall Hjl].
  exists (Chance.prefix t +:+ Chance.join ((fun d => Chance.PNum (Some d)) <$> digits)),
         (Chance.draws count c).
  run_monad. rewrite Hrun. cbn [app].
  rewrite !join_app, join_split_chars.
  split; [|split].
  - reflexivity.
  - apply all_digits_app; [exact Hpre|exact Hall].
  - rewrite string_length_app, Hjl, Hlen. unfold count. lia.
Qed.

Example cc_seed_42 :
  fst (Chance.cc Chance.cc_types_table (Chance.mkCcOpts None)
         (Chance.new 0 [Chance.SeedNumber 42])) = Ok "5479177551410043"
  ∧ Chance.luhn_check "5479177551410043" = true.
Proof. vm_compute. auto. Qed.

(** ** The data tables *)

Lemma copyArray_id (source : list Data.value) : Data._copyArray source = source.
Proof.
  unfold Data._copyArray.
  assert (H : ∀ k, (k <= length source)%nat →
    foldl (fun target i => <[ i := default Data.VUndefined (source !! i) ]> target)
          (replicate (length source) Data.VUndefined) (seq 0 k)
    = take k source ++ replicate (length source - k) Data.VUndefined).
  { induction k as [|k IH]; intros Hk.
    - cbn. rewrite Nat.sub_0_r. reflexivity.
    - rewrite seq_S, foldl_app, IH by lia. cbn [foldl Nat.add].
      destruct (lookup_lt_is_Some_2 source k) as [x Hx]; [lia|].
      rewrite Hx. cbn [default from_option id].
      rewrite (take_S_r _ _ _ Hx).
      replace (length source - k)%nat with (S (length source - S k)) by lia.
      cbn [replicate].
      rewrite insert_app_r_alt by (rewrite length_take; lia).
      rewrite length_take, Nat.min_l, Nat.sub_diag by lia. cbn [insert list_insert].
      rewrite <- app_assoc. reflexivity. }
  rewrite H by lia. rewrite Nat.sub_diag, firstn_all. cbn. apply app_nil_r.
Qed.

Lemma copyObject_props (props : gmap string Data.value) :
  Data._copyObject props ∅
  = (fun v => if Data.truthy v then v else Data.VUndefined) <$> props.
Proof.
  unfold Data._copyObject.
  apply (map_fold_weak_ind (fun r m =>
           r = (fun v => if Data.truthy v then v else Data.VUndefined) <$> m)).
  - symmetry. apply fmap_empty.
  - intros i x m r Hi ->. rewrite lookup_fmap, Hi. cbn [fmap option_fmap option_map default from_option id].
    rewrite fmap_insert. reflexivity.
Qed.

(** [copyObject] allocates a new object holding the one-level copy. *)
Lemma copyObject_run (l : Data.loc) (o : Data.object) (h : gmap Data.loc Data.object) :
  h !! l = Some o →
  Data.copyObject l h
  = (Ok (Data.VRef (fresh (dom h))), <[ fresh (dom h) := Data.one_level o ]> h).
Proof.
  intros Hl. unfold Data.copyObject. rewrite Hl. destruct o as [elems|props]; cbn [Data.one_level].
  - rewrite copyArray_id. reflexivity.
  - rewrite copyObject_props. reflexivity.
Qed.

Lemma fresh_loc (h : gmap Data.loc Data.object) : h !! fresh (dom h) = None.
Proof. apply not_elem_of_dom, is_fresh. Qed.

(** In a larger store, what could be reached before is reached as
    before. *)
Lemma contents_weaken (h h' : gmap Data.loc Data.object) :
  h ⊆ h' →
  map_Forall (fun _ o => Data.object_ok h o) h →
  ∀ fuel v, Data.value_ok h v → Data.contents fuel h' v = Data.contents fuel h v.
Proof.
  intros Hsub Hclosed. induction fuel as [|fuel IH]; intros v Hv.
  - destruct v; reflexivity.
  - destruct v as [| | | |l]; try reflexivity.
    cbn [Data.contents]. cbn in Hv. destruct Hv as [o Ho].
    rewrite (lookup_weaken _ _ _ _ Ho Hsub), Ho.
    specialize (Hclosed l o Ho). destruct o as [elems|props]; cbn in Hclosed.
    + f_equal. apply Forall_fmap_ext. eapply Forall_impl; [exact Hclosed|].
      intros x Hx. apply IH, Hx.
    + f_equal. apply map_fmap_ext. intros k x Hk. apply IH. exact (Hclosed k x Hk).
Qed.

(** C9, as amended.  For the name of a table, [get] returns a reference
    to a new object that holds a one-level copy of the table (an array
    element by element; an object property by property, a value that
    is not truthy being read back as [undefined]).  Whatever is then done
    to the returned object itself, the canonical table holds what it
    held, at every depth, and a later [get] of the same name returns
    again what the first one returned.  The objects inside the table
    are not copied: the copy refers to the very same ones. *)
Theorem get_one_level_copy (s : Data.store) (name : string) (l : Data.loc) (o : Data.object) :
  Data.store_ok s →
  Data.data s !! name = Some l →
  Data.heap s !! l = Some o →
  ∃ l',
    Data.get name s
    = (Ok (Data.VRef l'), Data.mkStore (<[ l' := Data.one_level o ]> (Data.heap s)) (Data.data s))
    ∧ Data.heap s !! l' = None
    ∧ ∀ after,
        let s' := Data.mutate l' after (snd (Data.get name s)) in
        (∀ fuel, Data.table fuel name s' = Data.table fuel name s)
        ∧ ∃ l'', fst (Data.get name s') = Ok (Data.VRef l'')
                 ∧ Data.heap s' !! l'' = None
                 ∧ ∀ fuel,
                     Data.contents fuel (Data.heap (snd (Data.get name s'))) (Data.VRef l'')
                     = Data.contents fuel (Data.heap (snd (Data.get name s))) (Data.VRef l').
Proof.
  intros [Hheap Hdata] Hname Hl.
  set (h := Data.heap s) in *.
  set (l' := fresh (dom h)).
  assert (Hfresh : h !! l' = None) by apply fresh_loc.
  assert (Hget : Data.get name s
                 = (Ok (Data.VRef l'), Data.mkStore (<[ l' := Data.one_level o ]> h) (Data.data s))).
  { unfold Data.get. rewrite Hname. fold h. rewrite (copyObject_run l o h Hl). reflexivity. }
  exists l'. split; [exact Hget|]. split; [exact Hfresh|].
  intros after s'. subst s'. rewrite Hget. cbn [snd].
  unfold Data.mutate. cbn [Data.heap Data.data]. rewrite insert_insert_eq.
  set (h2 := <[ l' := after ]> h).
  assert (Hsub : h ⊆ h2) by (apply insert_subseteq, Hfresh).
  assert (Hl2 : h2 !! l = Some o) by (eapply lookup_weaken; eassumption).
  assert (Hone : Data.object_ok h (Data.one_level o)).
  { specialize (Hheap l o Hl). destruct o as [elems|props]; cbn in *; [exact Hheap|].
    intros k v Hk. rewrite lookup_fmap in Hk.
    destruct (props !! k) as [x|] eqn:Hx; [|discriminate]. cbn in Hk. injection Hk as <-.
    destruct (Data.truthy x); [exact (Hheap k x Hx)|exact I]. }
  split.
  - intros fuel. unfold Data.table. cbn [Data.heap Data.data]. rewrite Hname. cbn.
    f_equal. apply contents_weaken; [exact Hsub|exact Hheap|]. cbn. eauto.
  - set (l'' := fresh (dom h2)).
    assert (Hfresh2 : h2 !! l'' = None) by apply fresh_loc.
    assert (Hget2 : Data.get name (Data.mkStore h2 (Data.data s))
                    = (Ok (Data.VRef l''),
                       Data.mkStore (<[ l'' := Data.one_level o ]> h2) (Data.data s))).
    { unfold Data.get. cbn [Data.heap Data.data]. rewrite Hname.
      rewrite (copyObject_run l o h2 Hl2). reflexivity. }
    exists l''. rewrite Hget2. cbn [fst snd Data.heap].
    split; [reflexivity|]. split; [exact Hfresh2|].
    intros [|fuel]; [reflexivity|]. cbn [Data.contents].
    rewrite !lookup_insert_eq.
    assert (Hsub1 : h ⊆ <[ l' := Data.one_level o ]> h) by (apply insert_subseteq, Hfresh).
    assert (Hsub2 : h ⊆ <[ l'' := Data.one_level o ]> h2).
    { etransitivity; [exact Hsub|]. apply insert_subseteq, Hfresh2. }
    destruct (Data.one_level o) as [elems|props]; cbn in Hone; f_equal.
    + apply Forall_fmap_ext. eapply Forall_impl; [exact Hone|].
      intros x Hx. cbn beta.
      rewrite (contents_weaken h _ Hsub1 Hheap), (contents_weaken h _ Hsub2 Hheap); auto.
    + apply map_fmap_ext. intros k x Hk.
      rewrite (contents_weaken h _ Hsub1 Hheap), (contents_weaken h _ Hsub2 Hheap);
        auto; exact (Hone k x Hk).
Qed.

Lemma get_one_level_copy_witness :
  ∃ l',
    Data.get "cc_types" Data.one_entry_store
    = (Ok (Data.VRef l'),
       Data.mkStore (<[ l' := Data.one_level (Data.Arr [Data.VRef 2%nat]) ]>
                       (Data.heap Data.one_entry_store))
                    (Data.data Data.one_entry_store))
    ∧ Data.heap Data.one_entry_store !! l' = None
    ∧ ∀ after,
        let s' := Data.mutate l' after (snd (Data.get "cc_types" Data.one_entry_store)) in
        (∀ fuel, Data.table fuel "cc_types" s' = Data.table fuel "cc_types" Data.one_entry_store)
        ∧ ∃ l'', fst (Data.get "cc_types" s') = Ok (Data.VRef l'')
                 ∧ Data.heap s' !! l'' = None
                 ∧ ∀ fuel,
                     Data.contents fuel (Data.heap (snd (Data.get "cc_types" s'))) (Data.VRef l'')
                     = Data.contents fuel
                         (Data.heap (snd (Data.get "cc_types" Data.one_entry_store))) (Data.VRef l').
Proof.
  apply (get_one_level_copy Data.one_entry_store "cc_types" 1%nat (Data.Arr [Data.VRef 2%nat])).
  - apply (bool_decide_eq_true_1 (Data.store_ok Data.one_entry_store)). vm_compute. reflexivity.
  - vm_compute. reflexivity.
  - vm_compute. reflexivity.
Defined.

(** C9, as first stated, fails: the copy is not deep.  The entry of
    the array that [get] returns is the entry of the canonical table, so
    that assigning to a property of it through the result changes what
    the table holds, and what the next [get] returns. *)
Lemma get_shares_entries :
  let s1 := snd (Data.get "cc_types" Data.one_entry_store) in
  let s2 := Data.mutate 2%nat (Data.Obj (<[ "prefix" := Data.VStr "x" ]> ∅)) s1 in
  fst (Data.get "cc_types" Data.one_entry_store) = Ok (Data.VRef 3%nat)
  ∧ Data.heap s1 !! 3%nat = Some (Data.Arr [Data.VRef 2%nat])
  ∧ Data.heap s1 !! 1%nat = Some (Data.Arr [Data.VRef 2%nat])
  ∧ Data.table 2 "cc_types" Data.one_entry_store
    = Some (Data.TArr [Data.TObj (<[ "prefix" := Data.TLeaf (Data.VStr "34") ]> ∅)])
  ∧ Data.table 2 "cc_types" s2
    = Some (Data.TArr [Data.TObj (<[ "prefix" := Data.TLeaf (Data.VStr "x") ]> ∅)])
  ∧ Data.table 2 "cc_types" s2 ≠ Data.table 2 "cc_types" Data.one_entry_store
  ∧ fst (Data.get "cc_types" s2) = Ok (Data.VRef 4%nat)
  ∧ Data.contents 2 (Data.heap (snd (Data.get "cc_types" s2))) (Data.VRef 4%nat)
    = Data.TArr [Data.TObj (<[ "prefix" := Data.TLeaf (Data.VStr "x") ]> ∅)].
Proof.
  intros s1 s2.
  assert (H0 : Data.table 2 "cc_types" Data.one_entry_store
    = Some (Data.TArr [Data.TObj (<[ "prefix" := Data.TLeaf (Data.VStr "34") ]> ∅)]))
    by (vm_compute; reflexivity).
  assert (H2 : Data.table 2 "cc_types" s2
    = Some (Data.TArr [Data.TObj (<[ "prefix" := Data.TLeaf (Data.VStr "x") ]> ∅)]))
    by (vm_compute; reflexivity).
  split; [vm_compute; reflexivity|]. split; [vm_compute; reflexivity|].
  split; [vm_compute; reflexivity|]. split; [exact H0|]. split; [exact H2|].
  split; [|split; vm_compute; reflexivity].
  rewrite H0, H2. intros [=].
Qed.

(** * More of the code *)

(** ** The engine's other outputs *)

Lemma twist_at_length kk next src a : length (Twister.twist_at kk next src a) = length a.
Proof. unfold Twister.twist_at. apply length_insert. Qed.

Lemma foldl_length_inv {B} (f : list Z → B → list Z) (l : list B) :
  (∀ a x, length (f a x) = length a) → ∀ a, length (foldl f a l) = length a.
Proof.
  intros Hf. induction l as [|x l IH]; intros a; cbn [foldl]; [reflexivity|].
  rewrite IH. apply Hf.
Qed.

Lemma twist_length a : length (Twister.twist a) = length a.
Proof.
  unfold Twister.twist. rewrite twist_at_length.
  rewrite foldl_length_inv by (intros; apply twist_at_length).
  apply foldl_length_inv. intros; apply twist_at_length.
Qed.

Lemma init_genrand_loop_length fuel :
  ∀ st, length (Twister.mt (Twister.init_genrand_loop fuel st)) = length (Twister.mt st).
Proof.
  induction fuel as [|fuel IH]; intros st; cbn [Twister.init_genrand_loop]; [reflexivity|].
  case_bool_decide; [|reflexivity].
  rewrite IH. cbn [Twister.mt]. unfold Twister.init_genrand_body. apply length_insert.
Qed.

Lemma init_genrand_length s st :
  length (Twister.mt (Twister.init_genrand s st)) = length (Twister.mt st).
Proof.
  unfold Twister.init_genrand. rewrite init_genrand_loop_length. cbn [Twister.mt].
  apply length_insert.
Qed.

(** X1.  A draw keeps the state of the engine in shape: the array keeps
    its length, whatever it is, and for a cursor that is at most
    [N + 1] (the value that marks an engine that was never seeded) the
    cursor after the draw is in 1..N.  The cursor moves by one unless
    the array was used up, in which case the array is regenerated and
    the cursor restarts. *)
Theorem genrand_int32_state (st : Twister.MersenneTwister) :
  (Twister.mti st <= Twister.N + 1)%nat →
  let st' := snd (Twister.genrand_int32 st) in
  length (Twister.mt st') = length (Twister.mt st)
  ∧ (1 <= Twister.mti st' <= Twister.N)%nat
  ∧ ((Twister.mti st < Twister.N)%nat →
     Twister.mt st' = Twister.mt st ∧ Twister.mti st' = S (Twister.mti st))
  ∧ ((Twister.N <= Twister.mti st)%nat → Twister.mti st' = 1%nat).
Proof.
  intros Hm. unfold Twister.genrand_int32. cbn [snd Twister.mt Twister.mti].
  case_bool_decide as Hfull.
  - cbn [Twister.mt Twister.mti]. rewrite twist_length.
    split; [|split; [unfold Twister.N; lia|split; [lia|reflexivity]]].
    case_bool_decide; [apply init_genrand_length|reflexivity].
  - split; [reflexivity|]. split; [lia|]. split; [auto|lia].
Qed.

Lemma genrand_int32_state_witness :
  let st := Twister.new 0 (Some 42) in
  let st' := snd (Twister.genrand_int32 st) in
  length (Twister.mt st') = length (Twister.mt st)
  ∧ (1 <= Twister.mti st' <= Twister.N)%nat
  ∧ ((Twister.mti st < Twister.N)%nat →
     Twister.mt st' = Twister.mt st ∧ Twister.mti st' = S (Twister.mti st))
  ∧ ((Twister.N <= Twister.mti st)%nat → Twister.mti st' = 1%nat).
Proof.
  apply (genrand_int32_state (Twister.new 0 (Some 42))). vm_compute. lia.
Defined.

Lemma shru_range a n : 0 <= n < 32 → 0 <= shru a n < 2 ^ (32 - n).
Proof.
  intros Hn. unfold shru.
  replace (Z.land n 31) with n.
  2:{ change 31 with (Z.ones 5). rewrite Z.land_ones by lia. symmetry. apply Z.mod_small.
      change (2 ^ 5) with 32. lia. }
  pose proof (ToUint32_range a) as Hr. rewrite Z.shiftr_div_pow2 by lia.
  split; [apply Z.div_pos; lia|].
  apply Z.div_lt_upper_bound; [lia|]. rewrite <- Z.pow_add_r by lia.
  replace (n + (32 - n)) with 32 by lia. lia.
Qed.

Lemma shru_small y n : 0 <= n < 32 → 0 <= y < 2 ^ 32 → shru y n = y / 2 ^ n.
Proof.
  intros Hn Hy. unfold shru, ToUint32. rewrite Z.mod_small by lia.
  replace (Z.land n 31) with n.
  2:{ change 31 with (Z.ones 5). rewrite Z.land_ones by lia. symmetry. apply Z.mod_small.
      change (2 ^ 5) with 32. lia. }
  apply Z.shiftr_div_pow2. lia.
Qed.

(** X2.  [genrand_int31] is the upper 31 bits of one draw: it lies in
    [0, 2^31), is the draw halved, and leaves the engine where
    [genrand_int32] leaves it. *)
Theorem genrand_int31_spec (st : Twister.MersenneTwister) :
  let y := fst (Twister.genrand_int32 st) in
  Outputs.genrand_int31 st = (y / 2, snd (Twister.genrand_int32 st))
  ∧ 0 <= y / 2 < 2 ^ 31.
Proof.
  intros y. unfold Outputs.genrand_int31. subst y.
  pose proof (genrand_int32_range st) as Hr.
  destruct (Twister.genrand_int32 st) as [y st']. cbn [fst snd] in *.
  rewrite shru_small by lia. change (2 ^ 1) with 2.
  split; [reflexivity|]. split; [apply Z.div_pos; lia|].
  apply Z.div_lt_upper_bound; lia.
Qed.

(** X3.  [genrand_real3] lies strictly between 0 and 1: unlike
    [random], it never returns 0. *)
Theorem genrand_real3_open (st : Twister.MersenneTwister) :
  (0 < fst (Outputs.genrand_real3 st))%Q ∧ (fst (Outputs.genrand_real3 st) < 1)%Q
  ∧ snd (Outputs.genrand_real3 st) = snd (Twister.genrand_int32 st).
Proof.
  unfold Outputs.genrand_real3.
  pose proof (genrand_int32_range st) as Hr.
  destruct (Twister.genrand_int32 st) as [y st']. cbn [fst snd] in *.
  change (1 / 4294967296)%Q with (1 # 4294967296)%Q.
  split; [|split; [|reflexivity]];
    unfold Qlt, Qmult, Qplus, inject_Z; cbn [Qnum Qden]; lia.
Qed.

(** X4.  [genrand_res53] takes two draws and returns a multiple of
    2^-53 in [0, 1): [k / 2^53] for the 53-bit integer [k] made of the
    upper 27 bits of the first draw and the upper 26 bits of the
    second. *)
Theorem genrand_res53_spec (st : Twister.MersenneTwister) :
  let y1 := fst (Twister.genrand_int32 st) in
  let st1 := snd (Twister.genrand_int32 st) in
  let y2 := fst (Twister.genrand_int32 st1) in
  let k := (y1 / 32) * 2 ^ 26 + y2 / 64 in
  0 <= k < 2 ^ 53
  ∧ (fst (Outputs.genrand_res53 st) == k # 9007199254740992)%Q
  ∧ (0 <= fst (Outputs.genrand_res53 st))%Q
  ∧ (fst (Outputs.genrand_res53 st) < 1)%Q
  ∧ snd (Outputs.genrand_res53 st) = snd (Twister.genrand_int32 st1).
Proof.
  intros y1 st1 y2 k. subst y1 st1 y2 k. unfold Outputs.genrand_res53.
  pose proof (genrand_int32_range st) as Hr1.
  destruct (Twister.genrand_int32 st) as [y1 st1]. cbn [fst snd] in *.
  pose proof (genrand_int32_range st1) as Hr2.
  destruct (Twister.genrand_int32 st1) as [y2 st2]. cbn [fst snd] in *.
  rewrite !shru_small by lia. change (2 ^ 5) with 32. change (2 ^ 6) with 64.
  assert (Ha : 0 <= y1 / 32 < 2 ^ 27).
  { split; [apply Z.div_pos; lia|apply Z.div_lt_upper_bound; lia]. }
  assert (Hb : 0 <= y2 / 64 < 2 ^ 26).
  { split; [apply Z.div_pos; lia|apply Z.div_lt_upper_bound; lia]. }
  generalize dependent (y1 / 32). generalize dependent (y2 / 64). intros b Hb a Ha.
  change (1 / 9007199254740992)%Q with (1 # 9007199254740992)%Q.
  split; [lia|].
  split; [|split; [|split; [|reflexivity]]];
    unfold Qeq, Qle, Qlt, Qmult, Qplus, inject_Z; cbn [Qnum Qden]; lia.
Qed.

(** ** Seeding by an array *)

Lemma words_insert a i x : words a → 0 <= x < 2 ^ 32 → words (<[ i := x ]> a).
Proof. intros Ha Hx. apply Forall_insert; assumption. Qed.

Lemma words_at a i : words a → 0 <= Twister.at_ a i < 2 ^ 32.
Proof.
  intros Ha. unfold Twister.at_. destruct (a !! i) as [x|] eqn:E; cbn; [|lia].
  exact (proj1 (Forall_lookup _ _) Ha i x E).
Qed.

Lemma key_step_words mult addend a i : words a → words (Outputs.key_step mult addend a i).
Proof.
  intros Ha. unfold Outputs.key_step. apply words_insert; [exact Ha|].
  destruct addend; [rewrite shru_0; apply Z.mod_pos_bound|]; lia.
Qed.

Lemma next_i_spec a i :
  words a → (1 <= i < Twister.N)%nat →
  words (Outputs.next_i a i).1 ∧ length (Outputs.next_i a i).1 = length a
  ∧ (1 <= (Outputs.next_i a i).2 < Twister.N)%nat.
Proof.
  intros Ha Hi. unfold Outputs.next_i. case_bool_decide; cbn [fst snd].
  - split; [apply words_insert; [exact Ha|apply words_at, Ha]|].
    split; [apply length_insert|unfold Twister.N; lia].
  - split; [exact Ha|]. split; [reflexivity|lia].
Qed.

Lemma init_by_array_loop1_spec init_key key_length :
  ∀ k a i j, words a → (1 <= i < Twister.N)%nat →
    let r := Outputs.init_by_array_loop1 k init_key key_length a i j in
    words r.1 ∧ length r.1 = length a ∧ (1 <= r.2 < Twister.N)%nat.
Proof.
  induction k as [|k IH]; intros a i j Ha Hi; cbn [Outputs.init_by_array_loop1].
  - cbn. auto.
  - set (a1 := Outputs.key_step _ _ a i).
    assert (Ha1 : words a1) by apply key_step_words, Ha.
    assert (Hl1 : length a1 = length a) by apply length_insert.
    destruct (next_i_spec a1 i Ha1 Hi) as (Hw & Hl & Hr).
    destruct (Outputs.next_i a1 i) as [a2 i2]. cbn [fst snd] in *.
    destruct (IH a2 i2 (if bool_decide (key_length <= S j)%nat then 0%nat else S j) Hw Hr)
      as (H1 & H2 & H3).
    split; [exact H1|]. split; [congruence|exact H3].
Qed.

Lemma init_by_array_loop2_spec :
  ∀ k a i, words a → (1 <= i < Twister.N)%nat →
    words (Outputs.init_by_array_loop2 k a i)
    ∧ length (Outputs.init_by_array_loop2 k a i) = length a.
Proof.
  induction k as [|k IH]; intros a i Ha Hi; cbn [Outputs.init_by_array_loop2].
  - auto.
  - set (a1 := Outputs.key_step _ _ a i).
    assert (Ha1 : words a1) by apply key_step_words, Ha.
    assert (Hl1 : length a1 = length a) by apply length_insert.
    destruct (next_i_spec a1 i Ha1 Hi) as (Hw & Hl & Hr).
    destruct (Outputs.next_i a1 i) as [a2 i2]. cbn [fst snd] in *.
    destruct (IH a2 i2 Hw Hr) as (H1 & H2).
    split; [exact H1|congruence].
Qed.

Lemma init_genrand_words s st :
  length (Twister.mt st) = Twister.N →
  Twister.mti (Twister.init_genrand s st) = Twister.N
  ∧ length (Twister.mt (Twister.init_genrand s st)) = Twister.N
  ∧ words (Twister.mt (Twister.init_genrand s st)).
Proof.
  intros Hlen.
  destruct (init_genrand_loop_spec s Twister.N 1 (<[ 0%nat := shru s 0 ]> (Twister.mt st)))
    as (Hmti & Hl & H0 & Hrec).
  - unfold Twister.N. lia.
  - lia.
  - split; [|split].
    + rewrite length_insert. exact Hlen.
    + rewrite list_lookup_insert_eq by (rewrite Hlen; unfold Twister.N; lia).
      rewrite shru_0. reflexivity.
    + intros i Hi. assert (i = 0%nat) as -> by lia.
      exists (s mod 2 ^ 32), (s mod 2 ^ 32). cbn [Nat.sub].
      rewrite list_lookup_insert_eq by (rewrite Hlen; unfold Twister.N; lia).
      rewrite shru_0.
      split; [reflexivity|]. split; [reflexivity|].
      split; [apply Z.mod_pos_bound; lia|]. intros; lia.
  - unfold Twister.init_genrand.
    split; [exact Hmti|]. split; [exact Hl|].
    apply Forall_lookup. intros i x Hx.
    assert (Hi : (i < Twister.N)%nat).
    { rewrite <- Hl. eapply lookup_lt_Some, Hx. }
    destruct (Hrec i Hi) as (p & y & _ & Hy & Hyr & _).
    rewrite Hx in Hy. injection Hy as ->. exact Hyr.
Qed.

(** The reference vector of the Mersenne Twister for the key
    [{0x123, 0x234, 0x345, 0x456}]. *)
Example init_by_array_vector :
  fst (Twister.genrand_int32
         (Outputs.init_by_array [0x123; 0x234; 0x345; 0x456] 4 (Twister.new 0 (Some 0))))
  = 1067595299.
Proof. vm_compute. reflexivity. Qed.

(** X5.  [init_by_array] on an engine whose array has [N] slots leaves
    an array of [N] 32-bit words that is not all zero, its first word
    being 0x80000000, and the cursor at [N], so that the next draw
    regenerates the array; this holds for every key and every
    [key_length], also one past the end of the key. *)
Theorem init_by_array_state (init_key : list Z) (key_length : nat)
        (st : Twister.MersenneTwister) :
  length (Twister.mt st) = Twister.N →
  let st' := Outputs.init_by_array init_key key_length st in
  length (Twister.mt st') = Twister.N
  ∧ Twister.mt st' !! 0%nat = Some 0x80000000
  ∧ Forall (fun x => 0 <= x < 2 ^ 32) (Twister.mt st')
  ∧ Twister.mti st' = Twister.N.
Proof.
  intros Hlen st'. subst st'. unfold Outputs.init_by_array.
  destruct (init_genrand_words 19650218 st Hlen) as (Hmti & Hl & Hw).
  generalize dependent (Twister.init_genrand 19650218 st). intros st0 Hmti Hl Hw.
  set (k := if bool_decide (key_length < Twister.N)%nat then Twister.N else key_length).
  destruct (init_by_array_loop1_spec init_key key_length k (Twister.mt st0) 1 0 Hw)
    as (H1 & H2 & H3); [unfold Twister.N; lia|].
  destruct (Outputs.init_by_array_loop1 k init_key key_length (Twister.mt st0) 1 0) as [a i].
  cbn [fst snd] in *.
  destruct (init_by_array_loop2_spec (Twister.N - 1) a i H1 H3) as (H4 & H5).
  cbn [Twister.mt Twister.mti].
  split; [rewrite length_insert; congruence|].
  split; [apply list_lookup_insert_eq; rewrite H5, H2, Hl; unfold Twister.N; lia|].
  split; [apply words_insert; [exact H4|lia]|exact Hmti].
Qed.

Lemma init_by_array_state_witness :
  let st' := Outputs.init_by_array [0x123; 0x234] 2 (Twister.mkMT (replicate Twister.N 0) (Twister.N + 1)) in
  length (Twister.mt st') = Twister.N
  ∧ Twister.mt st' !! 0%nat = Some 0x80000000
  ∧ Forall (fun x => 0 <= x < 2 ^ 32) (Twister.mt st')
  ∧ Twister.mti st' = Twister.N.
Proof.
  apply (init_by_array_state [0x123; 0x234] 2 (Twister.mkMT (replicate Twister.N 0) (Twister.N + 1))).
  cbn [Twister.mt]. apply length_replicate.
Defined.

(** ** The 32-bit helpers of the MD5 code *)

Lemma ToInt32_range a : - 2 ^ 31 <= ToInt32 a < 2 ^ 31.
Proof. unfold ToInt32. pose proof (Z.mod_pos_bound (a + 2 ^ 31) (2 ^ 32)). lia. Qed.

Lemma ToInt32_small a : - 2 ^ 31 <= a < 2 ^ 31 → ToInt32 a = a.
Proof. intros H. unfold ToInt32. rewrite Z.mod_small by lia. lia. Qed.

Lemma ToInt32_idem a : ToInt32 (ToInt32 a) = ToInt32 a.
Proof. apply ToInt32_small, ToInt32_range. Qed.

Lemma ToInt32_eq a b : a mod 2 ^ 32 = b mod 2 ^ 32 → ToInt32 a = ToInt32 b.
Proof.
  intros H. unfold ToInt32. f_equal.
  rewrite (Zplus_mod a), (Zplus_mod b), H. reflexivity.
Qed.

Lemma band_low16 x : band x 0xFFFF = ToInt32 x mod 2 ^ 16.
Proof.
  unfold band. rewrite (ToInt32_small 0xFFFF) by lia.
  change 0xFFFF with (Z.ones 16). apply Z.land_ones. lia.
Qed.

Lemma sar_16 x : - 2 ^ 31 <= x < 2 ^ 31 → MD5.sar x 16 = x / 2 ^ 16.
Proof.
  intros H. unfold MD5.sar. rewrite ToInt32_small by lia.
  change (Z.land 16 31) with 16. apply Z.shiftr_div_pow2. lia.
Qed.

Lemma safe_add_small (x y : Z) :
  - 2 ^ 31 <= x < 2 ^ 31 → - 2 ^ 31 <= y < 2 ^ 31 → MD5.safe_add x y = ToInt32 (x + y).
Proof.
  intros Hx Hy. unfold MD5.safe_add. rewrite !band_low16.
  rewrite (ToInt32_small x), (ToInt32_small y) by lia.
  pose proof (Z.mod_pos_bound x (2 ^ 16)) as Hxl.
  pose proof (Z.mod_pos_bound y (2 ^ 16)) as Hyl.
  set (lsw := x mod 2 ^ 16 + y mod 2 ^ 16) in *.
  assert (Hlsw : 0 <= lsw < 2 ^ 17) by (unfold lsw; lia).
  rewrite (ToInt32_small lsw) by lia.
  rewrite !sar_16 by lia.
  set (msw := x / 2 ^ 16 + y / 2 ^ 16 + lsw / 2 ^ 16).
  assert (Hsum : x + y = msw * 2 ^ 16 + lsw mod 2 ^ 16).
  { unfold msw. rewrite (Z.div_mod x (2 ^ 16)) at 1 by lia.
    rewrite (Z.div_mod y (2 ^ 16)) at 1 by lia.
    pose proof (Z.div_mod lsw (2 ^ 16)). unfold lsw in *. lia. }
  assert (Hshl : ∃ q, shl msw 16 = q * 2 ^ 16 ∧ - 2 ^ 15 <= q < 2 ^ 15
                      ∧ ToInt32 (msw * 2 ^ 16) = q * 2 ^ 16).
  { unfold shl. change (Z.land 16 31) with 16. rewrite Z.shiftl_mul_pow2 by lia.
    assert (E : ToInt32 (ToInt32 msw * 2 ^ 16) = ToInt32 (msw * 2 ^ 16)).
    { apply ToInt32_eq. rewrite Zmult_mod, ToInt32_eqm, <- Zmult_mod. reflexivity. }
    rewrite E. unfold ToInt32.
    exists ((msw + 2 ^ 15) mod 2 ^ 16 - 2 ^ 15).
    pose proof (Z.mod_pos_bound (msw + 2 ^ 15) (2 ^ 16)).
    assert (E2 : (msw * 2 ^ 16 + 2 ^ 31) mod 2 ^ 32 = (msw + 2 ^ 15) mod 2 ^ 16 * 2 ^ 16).
    { replace (msw * 2 ^ 16 + 2 ^ 31) with ((msw + 2 ^ 15) * 2 ^ 16) by lia.
      change (2 ^ 32) with (2 ^ 16 * 2 ^ 16).
      rewrite Z.mul_mod_distr_r by lia. reflexivity. }
    rewrite E2. lia. }
  destruct Hshl as (q & Hq & Hqr & HqT).
  pose proof (Z.mod_pos_bound lsw (2 ^ 16)) as Hl.
  unfold bor. rewrite Hq, (ToInt32_small (q * 2 ^ 16)), (ToInt32_small (lsw mod 2 ^ 16)) by lia.
  assert (Hdisj : Z.land (q * 2 ^ 16) (lsw mod 2 ^ 16) = 0).
  { rewrite <- Z.shiftl_mul_pow2 by lia. apply Z.bits_inj'. intros n Hn.
    rewrite Z.land_spec, Z.bits_0.
    destruct (Z.lt_ge_cases n 16).
    - rewrite Z.shiftl_spec_low by lia. reflexivity.
    - rewrite (Z.mod_pow2_bits_high lsw 16 n) by lia. apply andb_false_r. }
  rewrite <- Z.lxor_lor by exact Hdisj.
  rewrite <- Z.add_nocarry_lxor by exact Hdisj.
  rewrite Hsum. symmetry.
  transitivity (ToInt32 (q * 2 ^ 16 + lsw mod 2 ^ 16)).
  - apply ToInt32_eq. rewrite Zplus_mod, <- (ToInt32_eqm (msw * 2 ^ 16)), HqT, <- Zplus_mod.
    reflexivity.
  - apply ToInt32_small. lia.
Qed.

Lemma safe_add_sum (x y : Z) : MD5.safe_add x y = ToInt32 (x + y).
Proof.
  transitivity (MD5.safe_add (ToInt32 x) (ToInt32 y)).
  - unfold MD5.safe_add, band, MD5.sar. rewrite !ToInt32_idem. reflexivity.
  - rewrite safe_add_small by apply ToInt32_range.
    apply ToInt32_eq. rewrite Zplus_mod, !ToInt32_eqm, <- Zplus_mod. reflexivity.
Qed.

(** X6.  [safe_add], which adds the two 16-bit halves separately, is
    the addition of 32-bit integers: the sum wrapped to a signed 32-bit
    integer, for all integers [x] and [y]. *)
Theorem safe_add_wraps (x y : Z) : MD5.safe_add x y = ToInt32 (x + y).
Proof. apply safe_add_sum. Qed.

Lemma testbit_ToInt32 a i : 0 <= i < 32 → Z.testbit (ToInt32 a) i = Z.testbit a i.
Proof.
  intros Hi. rewrite <- (Z.mod_pow2_bits_low (ToInt32 a) 32 i) by lia.
  rewrite ToInt32_eqm. apply Z.mod_pow2_bits_low. lia.
Qed.

Lemma land_31 n : 0 <= n < 32 → Z.land n 31 = n.
Proof.
  intros Hn. change 31 with (Z.ones 5). rewrite Z.land_ones by lia.
  apply Z.mod_small. change (2 ^ 5) with 32. lia.
Qed.

Lemma land_below a b n : 0 <= n → 0 <= a < 2 ^ n → 0 <= Z.land a b < 2 ^ n.
Proof.
  intros Hn Ha.
  assert (E : Z.land a b = Z.land a b mod 2 ^ n).
  { apply Z.bits_inj'. intros i Hi. destruct (Z.lt_ge_cases i n).
    - rewrite Z.mod_pow2_bits_low by lia. reflexivity.
    - rewrite Z.mod_pow2_bits_high by lia. rewrite Z.land_spec.
      rewrite <- (Z.mod_small a (2 ^ n)) by lia.
      rewrite Z.mod_pow2_bits_high by lia. reflexivity. }
  rewrite E. apply Z.mod_pos_bound. lia.
Qed.

Lemma lor_below a b n : 0 <= n → 0 <= a < 2 ^ n → 0 <= b < 2 ^ n → 0 <= Z.lor a b < 2 ^ n.
Proof.
  intros Hn Ha Hb.
  assert (E : Z.lor a b = Z.lor a b mod 2 ^ n).
  { apply Z.bits_inj'. intros i Hi. destruct (Z.lt_ge_cases i n).
    - rewrite Z.mod_pow2_bits_low by lia. reflexivity.
    - rewrite Z.mod_pow2_bits_high by lia. rewrite Z.lor_spec.
      rewrite <- (Z.mod_small a (2 ^ n)), <- (Z.mod_small b (2 ^ n)) by lia.
      rewrite !Z.mod_pow2_bits_high by lia. reflexivity. }
  rewrite E. apply Z.mod_pos_bound. lia.
Qed.

(** The bitwise or of two signed 32-bit integers is one. *)
Lemma lor_int32 u v :
  - 2 ^ 31 <= u < 2 ^ 31 → - 2 ^ 31 <= v < 2 ^ 31 → - 2 ^ 31 <= Z.lor u v < 2 ^ 31.
Proof.
  intros Hu Hv.
  destruct (Z.lt_ge_cases u 0) as [Hun|Hup].
  - pose proof (land_below (Z.lnot u) (Z.lnot v) 31) as H.
    rewrite <- Z.lnot_lor in H. unfold Z.lnot in H. lia.
  - destruct (Z.lt_ge_cases v 0) as [Hvn|Hvp].
    + pose proof (land_below (Z.lnot v) (Z.lnot u) 31) as H.
      rewrite <- Z.lnot_lor, Z.lor_comm in H. unfold Z.lnot in H. lia.
    + pose proof (lor_below u v 31). lia.
Qed.

(** X7.  [bit_roll(num, cnt)] rotates the 32 bits of [num] to the left
    by [cnt], for [0 < cnt < 32]: bit [i] of the result is bit
    [(i - cnt) mod 32] of [num]; rolling on by [32 - cnt] gives [num]
    back as a signed 32-bit integer. *)
Theorem bit_roll_rotates (num cnt : Z) :
  0 < cnt < 32 →
  (∀ i, 0 <= i < 32 →
        Z.testbit (MD5.bit_roll num cnt) i = Z.testbit num ((i - cnt) mod 32))
  ∧ MD5.bit_roll (MD5.bit_roll num cnt) (32 - cnt) = ToInt32 num.
Proof.
  assert (Hbits : ∀ num cnt i, 0 < cnt < 32 → 0 <= i < 32 →
            Z.testbit (MD5.bit_roll num cnt) i = Z.testbit num ((i - cnt) mod 32)).
  { clear. intros num cnt i Hc Hi. unfold MD5.bit_roll, bor.
    rewrite Z.lor_spec, !testbit_ToInt32 by lia.
    unfold shl, shru. rewrite !land_31 by lia.
    rewrite testbit_ToInt32 by lia.
    rewrite Z.shiftr_spec by lia. unfold ToUint32.
    destruct (Z.lt_ge_cases i cnt) as [Hlt|Hge].
    - rewrite Z.shiftl_spec_low by lia. cbn [orb].
      rewrite Z.mod_pow2_bits_low by lia.
      f_equal. replace (i - cnt) with (i + (32 - cnt) + (-1) * 32) by lia.
      rewrite Z.mod_add by lia. symmetry. apply Z.mod_small. lia.
    - rewrite Z.shiftl_spec by lia. rewrite testbit_ToInt32 by lia.
      rewrite Z.mod_pow2_bits_high by lia. rewrite orb_false_r.
      f_equal. symmetry. apply Z.mod_small. lia. }
  intros Hc. split; [intros i Hi; apply Hbits; assumption|].
  assert (Hr : ∀ a, - 2 ^ 31 <= MD5.bit_roll a (32 - cnt) < 2 ^ 31).
  { intros a. unfold MD5.bit_roll, bor. apply lor_int32; apply ToInt32_range. }
  rewrite <- (ToInt32_small (MD5.bit_roll _ _)) by apply Hr.
  apply ToInt32_eq.
  apply Z.bits_inj'. intros i Hi.
  destruct (Z.lt_ge_cases i 32).
  - rewrite !Z.mod_pow2_bits_low by lia.
    rewrite Hbits by lia.
    pose proof (Z.mod_pos_bound (i - (32 - cnt)) 32 ltac:(lia)) as Hm.
    rewrite Hbits by lia. f_equal.
    rewrite Zminus_mod_idemp_l.
    replace (i - (32 - cnt) - cnt) with (i + (-1) * 32) by lia.
    rewrite Z.mod_add by lia. apply Z.mod_small. lia.
  - rewrite !Z.mod_pow2_bits_high by lia. reflexivity.
Qed.

Lemma bit_roll_rotates_witness :
  (∀ i, 0 <= i < 32 →
        Z.testbit (MD5.bit_roll 0x12345678 8) i = Z.testbit 0x12345678 ((i - 8) mod 32))
  ∧ MD5.bit_roll (MD5.bit_roll 0x12345678 8) (32 - 8) = ToInt32 0x12345678.
Proof. apply (bit_roll_rotates 0x12345678 8). lia. Defined.

Lemma bit_roll_ToInt32 num cnt : MD5.bit_roll (ToInt32 num) cnt = MD5.bit_roll num cnt.
Proof.
  unfold MD5.bit_roll, shl, shru, ToUint32. rewrite ToInt32_idem, ToInt32_eqm. reflexivity.
Qed.

(** X8.  The basic operation of the MD5 rounds, [md5_cmn], built from
    four wrapping additions and a rotation, is
    [bit_roll(a + q + x + t, s) + b] in 32-bit arithmetic, for all
    integers. *)
Theorem md5_cmn_spec (q a b x s t : Z) :
  MD5.md5_cmn q a b x s t = ToInt32 (MD5.bit_roll (a + q + x + t) s + b).
Proof.
  unfold MD5.md5_cmn. rewrite !safe_add_sum, bit_roll_ToInt32.
  f_equal. f_equal. rewrite <- (bit_roll_ToInt32 (a + q + x + t)).
  rewrite <- (bit_roll_ToInt32 (ToInt32 (a + q) + ToInt32 (x + t))). f_equal.
  apply ToInt32_eq. rewrite Zplus_mod, !ToInt32_eqm, <- Zplus_mod. f_equal. lia.
Qed.

(** ** More of the sampling layer *)

(** X9.  [bool]: a likelihood outside [0, 100] is refused before the
    engine is touched; a likelihood of 100 always gives true and one of
    0 always false; and for a fixed engine state raising the likelihood
    never turns true into false. *)
Theorem bool_likelihood (c : Chance.chance) (l : Q) :
  (((l < 0)%Q ∨ (100 < l)%Q) →
   Chance.bool (Chance.mkBoolOpts (Some l)) c
   = (Throw (RangeError "Chance: Likelihood accepts values from 0 to 100."), c))
  ∧ ((l == 100)%Q → Chance.bool (Chance.mkBoolOpts (Some l)) c = (Ok true, Chance.draw c))
  ∧ ((l == 0)%Q → Chance.bool (Chance.mkBoolOpts (Some l)) c = (Ok false, Chance.draw c))
  ∧ (∀ l', (0 <= l)%Q → (l <= l')%Q → (l' <= 100)%Q →
           Chance.bool (Chance.mkBoolOpts (Some l)) c = (Ok true, Chance.draw c) →
           Chance.bool (Chance.mkBoolOpts (Some l')) c = (Ok true, Chance.draw c)).
Proof.
  assert (Hrun : ∀ l, (0 <= l)%Q → (l <= 100)%Q →
            Chance.bool (Chance.mkBoolOpts (Some l)) c
            = (Ok (Chance.Qltb (fst (Twister.random (Chance.mt c)) * 100) l), Chance.draw c)).
  { clear l. intros l H0 H1. unfold Chance.bool. cbn [Chance.likelihood default from_option id].
    run_monad. rewrite (Qltb_false _ _ H0), (Qgtb_false _ _ H1). cbn [orb].
    rewrite random_run. reflexivity. }
  destruct (random_range (Chance.mt c)) as [Hr0 Hr1].
  generalize dependent ((Twister.random (Chance.mt c)).1). intros r Hrun Hr0 Hr1.
  split; [|split; [|split]].
  - intros H. unfold Chance.bool. cbn [Chance.likelihood default from_option id]. run_monad.
    destruct H as [H|H].
    + rewrite (Qltb_true _ _ H). reflexivity.
    + rewrite (Qgtb_true _ _ H), orb_true_r. reflexivity.
  - intros H. rewrite Hrun by (clear - H; unfold Qeq, Qle in *; cbn [Qnum Qden] in *; lia).
    rewrite Qltb_true; [reflexivity|].
    apply Qlt_le_trans with (y := 100%Q); [|clear - H; unfold Qeq, Qle in *; cbn [Qnum Qden] in *; lia].
    apply (Qmult_lt_compat_r _ 1 100); [reflexivity|exact Hr1].
  - intros H. rewrite Hrun by (clear - H; unfold Qeq, Qle in *; cbn [Qnum Qden] in *; lia).
    rewrite Qltb_false; [reflexivity|].
    apply Qle_trans with (y := 0%Q); [clear - H; unfold Qeq, Qle in *; cbn [Qnum Qden] in *; lia|].
    apply Qmult_le_0_compat; [exact Hr0|unfold Qle; simpl; lia].
  - intros l' H0 Hle H100 Ht.
    rewrite Hrun in Ht by (try assumption; eapply Qle_trans; eassumption).
    rewrite Hrun by (try assumption; eapply Qle_trans; eassumption).
    injection Ht as Ht. f_equal. f_equal.
    destruct (Qlt_le_dec (r * 100) l) as [Hlt|Hge].
    + apply Qltb_true. eapply Qlt_le_trans; eassumption.
    + pose proof (Qltb_false _ _ Hge) as E. congruence.
Qed.

Lemma Ok_inj {A} (a b : A) : @Ok A a = Ok b → a = b.
Proof. intros [= ->]. reflexivity. Qed.

(** X10.  [natural] refuses a negative [min] before it looks at [max]
    and before the engine is touched, also where [integer] would
    answer.  For integers [0 <= min <= max < 2^20] it returns an integer
    of [min..max] after one draw; on these bounds binary64 computes the
    formula of [integer] exactly, every intermediate value being a
    multiple of 2^-32 with a numerator of at most 2^53.  Without
    options it returns the draw times 2^21, which lies in
    [0..MAX_INT]. *)
Theorem natural_bounds (c : Chance.chance) (lo hi : Z) :
  let r := fst (Twister.random (Chance.mt c)) in
  (lo < 0 →
   Chance.natural (Chance.mkRange (Some (inject_Z lo)) (Some (inject_Z hi))) c
   = (Throw (RangeError "Chance: Min cannot be less than zero."), c))
  ∧ (0 <= lo <= hi → hi < 2 ^ 20 →
     ∃ v, Chance.natural (Chance.mkRange (Some (inject_Z lo)) (Some (inject_Z hi))) c
          = (Ok v, Chance.draw c)
          ∧ lo <= v <= hi
          ∧ v = Qfloor (r * (inject_Z hi - inject_Z lo + 1) + inject_Z lo)
          ∧ Chance.binary64_exact r
          ∧ Chance.binary64_exact (inject_Z hi - inject_Z lo + 1)
          ∧ Chance.binary64_exact (r * (inject_Z hi - inject_Z lo + 1))
          ∧ Chance.binary64_exact (r * (inject_Z hi - inject_Z lo + 1) + inject_Z lo))
  ∧ ∃ v, Chance.natural (Chance.mkRange None None) c = (Ok v, Chance.draw c)
         ∧ v = fst (Twister.genrand_int32 (Chance.mt c)) * 2 ^ 21
         ∧ 0 <= v <= Chance.MAX_INT.
Proof.
  intros r. split; [|split].
  - intros Hlo. unfold Chance.natural. cbn [Chance.o_min Chance.o_max default from_option id].
    run_monad. rewrite Qltb_true; [reflexivity|].
    change 0%Q with (inject_Z 0). rewrite <- Zlt_Qlt. exact Hlo.
  - intros [H0 Hle] Hhi. eexists. split; [|split; [|split; [reflexivity|]]].
    + apply natural_run.
      * change 0%Q with (inject_Z 0). rewrite <- Zle_Qle. exact H0.
      * rewrite <- Zle_Qle. exact Hle.
    + destruct (random_range (Chance.mt c)) as [Ha Hb].
      apply scaled_draw_range; assumption.
    + pose proof (genrand_int32_range (Chance.mt c)) as Hy.
      destruct (integer_arithmetic_exact (fst (Twister.genrand_int32 (Chance.mt c))) lo hi)
        as (E1 & _ & E3 & E4 & E5); [exact Hy|lia|lia|lia|].
      subst r. rewrite random_spec. cbn [fst]. auto.
  - destruct (natural_max_run c Chance.MAX_INT) as (v & Hv & Hr); [unfold Chance.MAX_INT; lia|].
    exists v. split; [exact Hv|].
    assert (Hval : v = fst (Twister.genrand_int32 (Chance.mt c)) * 2 ^ 21); [|split; [exact Hval|exact Hr]].
    unfold Chance.natural in Hv. cbn [Chance.o_min Chance.o_max default from_option id] in Hv.
    revert Hv. run_monad. rewrite Qltb_false by apply Qle_refl. cbv beta iota.
    rewrite integer_run.
    2:{ change 0%Q with (inject_Z 0). rewrite <- Zle_Qle. unfold Chance.MAX_INT. lia. }
    intros Hv. apply (f_equal fst) in Hv. cbn [fst] in Hv. apply Ok_inj in Hv. subst v.
    rewrite random_spec. cbn [fst].
    pose proof (genrand_int32_range (Chance.mt c)) as Hy.
    generalize dependent (fst (Twister.genrand_int32 (Chance.mt c))). intros y Hy.
    unfold Chance.MAX_INT.
    assert (E : (inject_Z y * (1 / 4294967296) * (inject_Z 9007199254740992 - 0 + 1) + 0
                 == (y * 9007199254740993) # 4294967296)%Q).
    { change (1 / 4294967296)%Q with (1 # 4294967296)%Q.
      unfold Qeq, Qmult, Qplus, Qminus, Qopp, inject_Z. simpl. lia. }
    rewrite E. unfold Qfloor. cbn [Qnum Qden].
    change (Z.pos 4294967296) with 4294967296.
    symmetry. apply Z.div_unique with (r := y); lia.
Qed.

Lemma bool_likelihood_witness :
  Chance.bool (Chance.mkBoolOpts (Some 100%Q)) (Chance.new 0 [Chance.SeedNumber 42])
  = (Ok true, Chance.draw (Chance.new 0 [Chance.SeedNumber 42])).
Proof.
  apply (proj1 (proj2 (bool_likelihood (Chance.new 0 [Chance.SeedNumber 42]) 100%Q))).
  reflexivity.
Defined.

Lemma natural_bounds_witness :
  let c := Chance.new 0 [Chance.SeedNumber 42] in
  ∃ v, Chance.natural (Chance.mkRange (Some (inject_Z 3)) (Some (inject_Z 7))) c
       = (Ok v, Chance.draw c)
       ∧ 3 <= v <= 7
       ∧ v = Qfloor (fst (Twister.random (Chance.mt c)) * (inject_Z 7 - inject_Z 3 + 1) + inject_Z 3)
       ∧ Chance.binary64_exact (fst (Twister.random (Chance.mt c)))
       ∧ Chance.binary64_exact (inject_Z 7 - inject_Z 3 + 1)
       ∧ Chance.binary64_exact (fst (Twister.random (Chance.mt c)) * (inject_Z 7 - inject_Z 3 + 1))
       ∧ Chance.binary64_exact
           (fst (Twister.random (Chance.mt c)) * (inject_Z 7 - inject_Z 3 + 1) + inject_Z 3).
Proof.
  intros c. apply (proj1 (proj2 (natural_bounds c 3 7))); lia.
Defined.

(** ** Characters of a pool *)

Lemma charAt_member pool i :
  0 <= i < Z.of_nat (String.length pool) →
  ∃ ch, Chance.charAt pool i = String ch "" ∧ ch ∈ list_ascii_of_string pool.
Proof.
  intros [H0 H1]. unfold Chance.charAt.
  destruct (Z.ltb_spec i 0); [lia|].
  assert (Hn : (Z.to_nat i < String.length pool)%nat) by lia.
  generalize dependent (Z.to_nat i). clear. intros n.
  revert n. induction pool as [|a s IH]; intros n Hn; cbn in *; [lia|].
  destruct n.
  - exists a. split; [reflexivity|]. left.
  - destruct (IH n) as (ch & Hch & Hin); [lia|].
    exists ch. split; [exact Hch|]. right. exact Hin.
Qed.

Lemma character_member options c :
  Chance.alpha options && Chance.symbols options = false →
  ∃ s, Chance.character options c = (Ok s, Chance.draw c)
       ∧ one_of (Chance.character_pool options) s.
Proof.
  intros Hopt. unfold Chance.character. run_monad. rewrite Hopt. cbv beta iota.
  pose proof (character_pool_nonempty options) as Hp.
  destruct (natural_max_run c (Z.of_nat (String.length (Chance.character_pool options)) - 1))
    as (i & Hi & Hr); [lia|].
  rewrite Hi. eexists. split; [reflexivity|]. apply charAt_member. lia.
Qed.

Lemma concat_one_of pool (text : list string) :
  Forall (one_of pool) text →
  String.length (String.concat "" text) = length text
  ∧ Forall (fun ch => ch ∈ list_ascii_of_string pool)
           (list_ascii_of_string (String.concat "" text)).
Proof.
  induction 1 as [|s text (ch & -> & Hch) _ [IH1 IH2]]; [split; [reflexivity|constructor]|].
  rewrite concat_cons.
  change (String ch "" +:+ String.concat "" text) with (String ch (String.concat "" text)).
  cbn [String.length length list_ascii_of_string]. split; [congruence|].
  constructor; assumption.
Qed.

(** [string] with a pool and a length. *)
Lemma pool_string_run (pool : string) (len : Z) (c : Chance.chance) :
  pool ≠ "" → 0 <= len →
  ∃ s, Generators.pool_string pool len c = (Ok s, Chance.draws (S (Z.to_nat len)) c)
       ∧ String.length s = Z.to_nat len
       ∧ Forall (fun ch => ch ∈ list_ascii_of_string pool) (list_ascii_of_string s).
Proof.
  intros Hpool Hlen. unfold Generators.pool_string, Chance.string. run_monad.
  destruct (default_length_run c) as (d & Hd & _). rewrite Hd.
  cbn [Chance.length_ Chance.char_options default from_option id].
  destruct (Z.ltb_spec len 0) as [|_]; [lia|]. cbv beta iota.
  unfold Chance.n. cbn [default from_option id]. rewrite Z.max_r by lia.
  set (options := Chance.mkCharOpts (Some pool) false false None).
  assert (Hp : Chance.character_pool options = pool).
  { unfold Chance.character_pool, options. cbn [Chance.pool].
    destruct pool; [congruence|reflexivity]. }
  destruct (n_loop_run (Chance.character options) (one_of pool)) with
    (k := Z.to_nat len) (arr := @nil string) (c := Chance.draw c) as (xs & Hxs & Hl & HF).
  { intros c'. rewrite <- Hp. apply character_member. reflexivity. }
  rewrite Hxs. cbn [app]. destruct (concat_one_of pool xs HF) as [H1 H2].
  eexists. split; [rewrite draws_S_l; reflexivity|]. split; [congruence|exact H2].
Qed.

(** X11.  [character] returns one character of the pool in force (the
    pool of the options when it is not empty, otherwise the letters of
    the casing, the symbols, or letters, digits and symbols) after one
    draw; when both [alpha] and [symbols] are set it throws before the
    engine is touched. *)
Theorem character_from_pool (options : Chance.character_options) (c : Chance.chance) :
  (Chance.alpha options && Chance.symbols options = false →
   ∃ ch, Chance.character options c = (Ok (String ch ""), Chance.draw c)
         ∧ ch ∈ list_ascii_of_string (Chance.character_pool options))
  ∧ (Chance.alpha options && Chance.symbols options = true →
     Chance.character options c
     = (Throw (RangeError "Chance: Cannot specify both alpha and symbols."), c))
  ∧ (∀ p, Chance.pool options = Some p → p ≠ "" → Chance.character_pool options = p).
Proof.
  split; [|split].
  - intros H. destruct (character_member options c H) as (s & Hs & ch & -> & Hch).
    exists ch. auto.
  - intros H. unfold Chance.character. run_monad. rewrite H. reflexivity.
  - intros p Hp Hne. unfold Chance.character_pool. rewrite Hp.
    destruct p; [congruence|reflexivity].
Qed.

Lemma character_from_pool_witness :
  ∃ ch, Chance.character (Chance.mkCharOpts (Some "ab89") false false None)
                         (Chance.new 0 [Chance.SeedNumber 42])
        = (Ok (String ch ""), Chance.draw (Chance.new 0 [Chance.SeedNumber 42]))
        ∧ ch ∈ list_ascii_of_string
                 (Chance.character_pool (Chance.mkCharOpts (Some "ab89") false false None)).
Proof.
  apply (proj1 (character_from_pool (Chance.mkCharOpts (Some "ab89") false false None)
                                    (Chance.new 0 [Chance.SeedNumber 42]))).
  reflexivity.
Defined.

(** X12.  [string] with a pool that is not empty and a length
    [L >= 0] returns [L] characters, each of them a character of the
    pool, after [L + 1] draws. *)
Theorem string_from_pool (pool : string) (L : Z) (c : Chance.chance) :
  pool ≠ "" → 0 <= L →
  ∃ s, Chance.string
         (Chance.mkStringOpts (Some L) (Chance.mkCharOpts (Some pool) false false None)) c
       = (Ok s, Chance.draws (S (Z.to_nat L)) c)
       ∧ String.length s = Z.to_nat L
       ∧ Forall (fun ch => ch ∈ list_ascii_of_string pool) (list_ascii_of_string s).
Proof. intros Hp HL. apply (pool_string_run pool L c Hp HL). Qed.

Lemma string_from_pool_witness :
  ∃ s, Chance.string
         (Chance.mkStringOpts (Some 6) (Chance.mkCharOpts (Some "ab89") false false None))
         (Chance.new 0 [Chance.SeedNumber 42])
       = (Ok s, Chance.draws (S (Z.to_nat 6)) (Chance.new 0 [Chance.SeedNumber 42]))
       ∧ String.length s = Z.to_nat 6
       ∧ Forall (fun ch => ch ∈ list_ascii_of_string "ab89") (list_ascii_of_string s).
Proof.
  apply (string_from_pool "ab89" 6 (Chance.new 0 [Chance.SeedNumber 42])).
  - discriminate.
  - lia.
Defined.

(** ** Picking from an array *)

Section PickFacts.
Context {A : Type} (undefined : A).

Lemma max_index_run (arr : list A) (c : Chance.chance) :
  arr ≠ [] →
  ∃ i, Chance.natural (Chance.max_index arr) c = (Ok i, Chance.draw c)
       ∧ arr !! Z.to_nat i = Some (Chance.index undefined arr i).
Proof.
  intros Hne. unfold Chance.max_index.
  assert (Hlen : (0 < length arr)%nat) by (destruct arr; [congruence|cbn; lia]).
  destruct (natural_max_run c (Z.of_nat (length arr) - 1)) as (i & Hi & Hr); [lia|].
  exists i. split; [exact Hi|]. apply index_lookup. lia.
Qed.

Lemma shuffle_run_spec (arr : list A) (c : Chance.chance) :
  ∃ a, Chance.shuffle undefined arr c = (Ok a, Chance.draws (length arr) c) ∧ a ≡ₚ arr.
Proof.
  unfold Chance.shuffle, Chance.shuffle_run.
  destruct (shuffle_loop_spec undefined arr (length arr) (Chance.mkShuffle arr arr []) c)
    as (v' & Hv' & _ & Hp & _); [reflexivity..|].
  run_monad. cbn [Chance.new_array length] in Hv'. rewrite Hv'.
  exists (Chance.new_array v'). auto.
Qed.

Lemma slice0_spec (a : list A) (count : Z) :
  0 <= count →
  Chance.slice0 a count = take (Z.to_nat count) a
  ∧ length (Chance.slice0 a count) = Nat.min (Z.to_nat count) (length a).
Proof.
  intros Hc. unfold Chance.slice0. destruct (Z.ltb_spec count 0); [lia|].
  split; [reflexivity|apply length_take].
Qed.

Lemma take_submseteq (l arr : list A) (k : nat) : l ≡ₚ arr → take k l ⊆+ arr.
Proof.
  intros Hp. rewrite <- Hp. apply sublist_submseteq, sublist_take.
Qed.

End PickFacts.

(** X13.  [pickone] and [pick] without a count (or with a count of 0 or
    1) return an element of the array after one draw; on an empty array
    each throws its own RangeError and does not touch the engine. *)
Theorem pick_member {A} (undefined : A) (arr : list A) (c : Chance.chance) :
  (arr ≠ [] →
   ∃ i x, arr !! i = Some x
          ∧ Chance.pickone undefined arr c = (Ok x, Chance.draw c)
          ∧ ∀ count, count = None ∨ count = Some 0 ∨ count = Some 1 →
                     Chance.pick undefined arr count c = (Ok (inl x), Chance.draw c))
  ∧ Chance.pickone undefined [] c
    = (Throw (RangeError "Chance: Cannot pickone() from an empty array"), c)
  ∧ ∀ count, Chance.pick undefined [] count c
             = (Throw (RangeError "Chance: Cannot pick() from an empty array"), c).
Proof.
  split; [|split; [reflexivity|intros count; reflexivity]].
  intros Hne. destruct (max_index_run undefined arr c Hne) as (i & Hi & Hx).
  assert (Hnil : length arr ≠ 0%nat) by (destruct arr; [congruence|discriminate]).
  exists (Z.to_nat i), (Chance.index undefined arr i). split; [exact Hx|]. split.
  - unfold Chance.pickone. rewrite bool_decide_eq_false_2 by exact Hnil.
    run_monad. rewrite Hi. reflexivity.
  - intros count Hc. unfold Chance.pick. rewrite bool_decide_eq_false_2 by exact Hnil.
    destruct Hc as [->|[->| ->]]; [|rewrite bool_decide_eq_true_2 by lia..];
      run_monad; rewrite Hi; reflexivity.
Qed.

Lemma pick_member_witness :
  ∃ i x, [10; 20; 30] !! i = Some x
         ∧ Chance.pickone 0 [10; 20; 30] (Chance.new 0 [Chance.SeedNumber 42])
           = (Ok x, Chance.draw (Chance.new 0 [Chance.SeedNumber 42]))
         ∧ ∀ count, count = None ∨ count = Some 0 ∨ count = Some 1 →
                    Chance.pick 0 [10; 20; 30] count (Chance.new 0 [Chance.SeedNumber 42])
                    = (Ok (inl x), Chance.draw (Chance.new 0 [Chance.SeedNumber 42])).
Proof.
  apply (proj1 (pick_member 0 [10; 20; 30] (Chance.new 0 [Chance.SeedNumber 42]))).
  discriminate.
Defined.

(** X14.  For an array that is not empty and a count of at least 2,
    [pickset] returns [min(count, length)] elements that are a
    sub-multiset of the array (no position is used twice), after one
    draw per element of the array, and [pick] returns the same array. *)
Theorem pickset_subset {A} (undefined : A) (arr : list A) (count : Z) (c : Chance.chance) :
  arr ≠ [] → 2 <= count →
  ∃ l, Chance.pickset undefined arr (Some count) c = (Ok l, Chance.draws (length arr) c)
       ∧ Chance.pick undefined arr (Some count) c = (Ok (inr l), Chance.draws (length arr) c)
       ∧ l ⊆+ arr
       ∧ length l = Nat.min (Z.to_nat count) (length arr).
Proof.
  intros Hne Hc.
  destruct (shuffle_run_spec undefined arr c) as (a & Ha & Hp).
  destruct (slice0_spec a count) as [Hs Hl]; [lia|].
  exists (Chance.slice0 a count). unfold Chance.pickset, Chance.pick.
  rewrite (bool_decide_eq_false_2 (Some count = Some 0)) by (intros [= ?]; lia).
  assert (Hnil : length arr ≠ 0%nat) by (destruct arr; [congruence|discriminate]).
  rewrite !(bool_decide_eq_false_2 (length arr = 0%nat)) by exact Hnil.
  destruct (Z.ltb_spec count 0); [lia|].
  rewrite (bool_decide_eq_false_2 (count = 1)) by lia.
  rewrite (bool_decide_eq_false_2 (count = 0 ∨ count = 1)) by lia.
  run_monad. rewrite Ha.
  split; [reflexivity|]. split; [reflexivity|]. split.
  - rewrite Hs. apply take_submseteq, Hp.
  - rewrite Hl. f_equal. apply Permutation_length, Hp.
Qed.

Lemma pickset_subset_witness :
  ∃ l, Chance.pickset 0 [10; 20; 30] (Some 2) (Chance.new 0 [Chance.SeedNumber 42])
       = (Ok l, Chance.draws (length [10; 20; 30]) (Chance.new 0 [Chance.SeedNumber 42]))
       ∧ Chance.pick 0 [10; 20; 30] (Some 2) (Chance.new 0 [Chance.SeedNumber 42])
         = (Ok (inr l), Chance.draws (length [10; 20; 30]) (Chance.new 0 [Chance.SeedNumber 42]))
       ∧ l ⊆+ [10; 20; 30]
       ∧ length l = Nat.min (Z.to_nat 2) (length [10; 20; 30]).
Proof.
  apply (pickset_subset 0 [10; 20; 30] 2 (Chance.new 0 [Chance.SeedNumber 42])).
  - discriminate.
  - lia.
Defined.

(** ** [weighted]: refusals and [trim] *)

Lemma weights_sum_none (weights : list Q) (acc : Q) :
  Forall (fun w => (w <= 0)%Q) weights →
  foldl (fun sum val : Q => if Chance.Qgtb val 0 then (sum + val)%Q else sum) acc weights = acc.
Proof.
  induction 1 as [|w ws Hw _ IH]; cbn [foldl]; [reflexivity|].
  rewrite (Qgtb_false _ _ Hw). exact IH.
Qed.

(** X15.  [weighted] throws a RangeError, without touching the engine,
    when the array and the weights differ in length, and when they match
    but no weight is positive (zero and negative weights are skipped by
    the sum); this holds for every [trim]. *)
Theorem weighted_errors {A} (undefined : A) (arr : list A) (weights : list Q)
        (trim : option bool) (c : Chance.chance) :
  (length arr ≠ length weights →
   Chance.weighted undefined arr weights trim c
   = (Throw (RangeError "Chance: length of array and weights must match"), c))
  ∧ (length arr = length weights → Forall (fun w => (w <= 0)%Q) weights →
     Chance.weighted undefined arr weights trim c
     = (Throw (RangeError "Chance: no valid entries in array weights"), c)).
Proof.
  split.
  - intros H. unfold Chance.weighted. rewrite bool_decide_eq_true_2 by exact H. reflexivity.
  - intros Hlen Hw. unfold Chance.weighted.
    rewrite bool_decide_eq_false_2 by (intros H; apply H, Hlen).
    unfold Chance.weights_sum. rewrite (weights_sum_none weights 0 Hw). reflexivity.
Qed.

(** X16.  With [trim], [weighted] removes the chosen entry, and only
    it, from the array and from the weights: both come back one shorter,
    still of equal length, the entry removed being the one returned,
    whose weight is positive; without [trim] both come back as they
    were. *)
Theorem weighted_trim {A} (undefined : A) (arr : list A) (weights : list Q)
        (c : Chance.chance) :
  length arr = length weights →
  Exists (fun w => (0 < w)%Q) weights →
  ∃ idx chosen w,
    arr !! idx = Some chosen ∧ weights !! idx = Some w ∧ (0 < w)%Q
    ∧ Chance.weighted undefined arr weights (Some true) c
      = (Ok (chosen, delete idx arr, delete idx weights), Chance.draw c)
    ∧ length (delete idx arr) = length (delete idx weights)
    ∧ S (length (delete idx arr)) = length arr
    ∧ ∀ trim, trim = None ∨ trim = Some false →
              Chance.weighted undefined arr weights trim c
              = (Ok (chosen, arr, weights), Chance.draw c).
Proof.
  intros Hlen Hpos. unfold Chance.weighted.
  rewrite bool_decide_eq_false_2 by (intros H; apply H, Hlen).
  rewrite (weights_sum_nonzero weights Hpos). run_monad. rewrite random_run.
  set (selected := (_ * Chance.weights_sum weights)%Q).
  destruct (weighted_scan_positive weights selected weights 0 0%Q (-1) None)
    as (i & Hi & Hi0 & w & Hw & Hwpos).
  { reflexivity. }
  { right. exact Hpos. }
  { intros ->. inversion Hpos. }
  rewrite Hi. cbn [Chance.index_opt default from_option id].
  assert (Hin : 0 <= i < Z.of_nat (length arr)).
  { apply lookup_lt_Some in Hw. lia. }
  assert (Hin' : 0 <= i < Z.of_nat (length weights)) by lia.
  pose proof (index_lookup undefined arr i Hin) as Ha.
  exists (Z.to_nat i), (Chance.index undefined arr i), w.
  rewrite (splice1_delete arr i Hin), (splice1_delete weights i Hin').
  split; [exact Ha|]. split; [exact Hw|]. split; [exact Hwpos|].
  split; [reflexivity|].
  rewrite !length_delete by eauto.
  split; [lia|]. split; [lia|].
  intros trim [->| ->]; reflexivity.
Qed.

Lemma weighted_trim_witness :
  let c := Chance.new 0 [Chance.SeedNumber 42] in
  ∃ idx chosen w,
    [10; 20; 30] !! idx = Some chosen ∧ [(1 # 2)%Q; (-1)%Q; 2%Q] !! idx = Some w ∧ (0 < w)%Q
    ∧ Chance.weighted 0 [10; 20; 30] [(1 # 2)%Q; (-1)%Q; 2%Q] (Some true) c
      = (Ok (chosen, delete idx [10; 20; 30], delete idx [(1 # 2)%Q; (-1)%Q; 2%Q]),
         Chance.draw c)
    ∧ length (delete idx [10; 20; 30]) = length (delete idx [(1 # 2)%Q; (-1)%Q; 2%Q])
    ∧ S (length (delete idx [10; 20; 30])) = length [10; 20; 30]
    ∧ ∀ trim, trim = None ∨ trim = Some false →
              Chance.weighted 0 [10; 20; 30] [(1 # 2)%Q; (-1)%Q; 2%Q] trim c
              = (Ok (chosen, [10; 20; 30], [(1 # 2)%Q; (-1)%Q; 2%Q]), Chance.draw c).
Proof.
  intros c.
  apply (weighted_trim 0 [10; 20; 30] [(1 # 2)%Q; (-1)%Q; 2%Q] c).
  - reflexivity.
  - left. reflexivity.
Defined.

Lemma weighted_errors_witness :
  let c := Chance.new 0 [Chance.SeedNumber 42] in
  Chance.weighted 0 [10; 20] [0%Q; (-1)%Q] None c
  = (Throw (RangeError "Chance: no valid entries in array weights"), c).
Proof.
  intros c. apply (proj2 (weighted_errors 0 [10; 20] [0%Q; (-1)%Q] None c)).
  - reflexivity.
  - repeat constructor; discriminate.
Defined.

(** ** [unique] *)

Section UniqueFacts.
Context {A : Type} `{Generators.StrictEq A}.

Lemma successive_app (fn : Chance.M A) (xs ys : list A) (c c1 c2 : Chance.chance) :
  Generators.successive fn xs c c1 → Generators.successive fn ys c1 c2 → Generators.successive fn (xs ++ ys) c c2.
Proof.
  revert c. induction xs as [|x xs IH]; intros c Hx Hy; cbn [Generators.successive app] in *.
  - subst c1. exact Hy.
  - destruct Hx as (c' & Hc' & Hx). exists c'. split; [exact Hc'|]. eapply IH; eassumption.
Qed.

(** The loop of [unique], from any point it can be at: the count of
    consecutive duplicates is at most [num * 50] and the fuel left
    covers the calls that can still be made. *)
Lemma unique_loop_spec (fn : Chance.M A) (comparator : list A → A → bool) (num : Z) :
  ∀ fuel arr count c,
    Z.of_nat (length arr) <= Z.max 0 num →
    0 <= count <= Z.max 0 (num * 50) →
    (num - Z.of_nat (length arr)) * (num * 50 + 1) - count <= Z.of_nat fuel →
    match Generators.unique_loop fuel fn comparator num arr count c with
    | (Ok None, _) => False
    | (Ok (Some r), c') =>
        Z.of_nat (length r) = Z.max 0 num
        ∧ ∃ outs, Generators.successive fn outs c c'
                  ∧ r = Generators.kept comparator arr outs
    | (Throw _, _) => True
    end.
Proof.
  induction fuel as [|fuel IH]; intros arr count c Hlen Hcount Hfuel;
    cbn [Generators.unique_loop].
  - destruct (Z.ltb_spec (Z.of_nat (length arr)) num) as [Hlt|Hge].
    + exfalso. nia.
    + run_monad. split; [lia|]. exists []. split; reflexivity.
  - destruct (Z.ltb_spec (Z.of_nat (length arr)) num) as [Hlt|Hge].
    2:{ run_monad. split; [lia|]. exists []. split; reflexivity. }
    rewrite bind_run. destruct (fn c) as [[x|e] c1] eqn:Hfn; [|exact I].
    destruct (comparator arr x) eqn:Hcmp; cbn [negb].
    + destruct (Z.ltb_spec (num * 50) (count + 1)); [exact I|].
      specialize (IH arr (count + 1) c1 ltac:(lia) ltac:(lia) ltac:(nia)).
      destruct (Generators.unique_loop fuel fn comparator num arr (count + 1) c1)
        as [[[r|]|e] c']; try exact IH.
      destruct IH as (Hr & outs & Hs & Hk). split; [exact Hr|].
      exists (x :: outs). split.
      * exists c1. auto.
      * unfold Generators.kept. cbn [foldl]. rewrite Hcmp. exact Hk.
    + destruct (Z.ltb_spec (num * 50) (0 + 1)); [exact I|].
      assert (Hl : Z.of_nat (length (arr ++ [x])) = Z.of_nat (length arr) + 1).
      { rewrite length_app. cbn [length]. lia. }
      specialize (IH (arr ++ [x]) (0 + 1) c1 ltac:(lia) ltac:(lia) ltac:(nia)).
      destruct (Generators.unique_loop fuel fn comparator num (arr ++ [x]) (0 + 1) c1)
        as [[[r|]|e] c']; try exact IH.
      destruct IH as (Hr & outs & Hs & Hk). split; [exact Hr|].
      exists (x :: outs). split.
      * exists c1. auto.
      * unfold Generators.kept. cbn [foldl]. rewrite Hcmp. exact Hk.
Qed.

(** What is kept is taken from the results, in their order. *)
Lemma kept_sublist (comparator : list A → A → bool) (outs : list A) :
  ∀ arr, ∃ l, Generators.kept comparator arr outs = arr ++ l ∧ sublist l outs.
Proof.
  induction outs as [|x outs IH]; intros arr; unfold Generators.kept; cbn [foldl].
  - exists []. rewrite app_nil_r. split; [reflexivity|constructor].
  - destruct (comparator arr x).
    + destruct (IH arr) as (l & Hl & Hs). exists l. split; [exact Hl|].
      apply sublist_cons, Hs.
    + destruct (IH (arr ++ [x])) as (l & Hl & Hs). exists (x :: l).
      split; [unfold Generators.kept in Hl; rewrite Hl, <- app_assoc; reflexivity|].
      apply sublist_skip, Hs.
Qed.

Lemma no_two_equal_snoc (arr : list A) (x : A) :
  Generators.no_two_equal arr → Generators.indexOf_found arr x = false → Generators.no_two_equal (arr ++ [x]).
Proof.
  intros Harr Hx i j a b Hij Ha Hb.
  destruct (decide (j < length arr)%nat) as [Hj|Hj].
  - rewrite lookup_app_l in Ha, Hb by lia. exact (Harr i j a b Hij Ha Hb).
  - assert (j = length arr) as ->.
    { apply lookup_lt_Some in Hb. rewrite length_app in Hb. cbn in Hb. lia. }
    rewrite lookup_app_l in Ha by lia.
    rewrite lookup_app_r, Nat.sub_diag in Hb by lia. injection Hb as <-.
    unfold Generators.indexOf_found in Hx.
    destruct (Generators.strict_equal a x) eqn:E; [|reflexivity].
    assert (existsb (fun a => Generators.strict_equal a x) arr = true); [|congruence].
    apply existsb_exists. exists a. split; [|exact E].
    apply list_elem_of_In. eapply list_elem_of_lookup_2, Ha.
Qed.

Lemma kept_no_two_equal (outs : list A) :
  ∀ arr, Generators.no_two_equal arr → Generators.no_two_equal (Generators.kept Generators.indexOf_found arr outs).
Proof.
  induction outs as [|x outs IH]; intros arr Harr; unfold Generators.kept; cbn [foldl].
  - exact Harr.
  - destruct (Generators.indexOf_found arr x) eqn:E.
    + apply IH, Harr.
    + apply IH, no_two_equal_snoc; assumption.
Qed.

(** A generator with one value only: the calls of the loop once the
    value is in the array. *)
Lemma unique_loop_stuck (fn : Chance.M A) (x : A) (num : Z) :
  (∀ c, fn c = (Ok x, Chance.draw c)) →
  Generators.strict_equal x x = true →
  ∀ k fuel count c,
    Z.of_nat k = num * 50 + 1 - count → 1 <= count <= num * 50 → (k <= fuel)%nat → 1 < num →
    Generators.unique_loop fuel fn Generators.indexOf_found num [x] count c
    = (Throw (RangeError "Chance: num is likely too large for sample set"),
       Chance.draws k c).
Proof.
  intros Hfn Hxx. induction k as [|k IH]; intros fuel count c Hk Hcount Hfuel Hnum.
  - lia.
  - destruct fuel as [|fuel]; [lia|]. cbn [Generators.unique_loop length].
    destruct (Z.ltb_spec (Z.of_nat 1) num) as [_|]; [|lia].
    rewrite bind_run, Hfn.
    unfold Generators.indexOf_found at 1. cbn [existsb]. rewrite Hxx.
    cbn [orb negb]. rewrite draws_S_l.
    destruct (Z.ltb_spec (num * 50) (count + 1)) as [Hhi|Hlo].
    + assert (k = 0%nat) as -> by lia. reflexivity.
    + apply IH; lia.
Qed.

End UniqueFacts.

(** X17.  [unique(fn, num)] either throws or returns exactly [num]
    elements (none when [num <= 0]).  The elements are results of
    successive calls of [fn], in the order of the calls: each result is
    kept unless the comparator finds it among those kept before.  With
    the default comparator, [indexOf], no element is [===] to one kept
    before it (for results that are not [===] to themselves, such as
    [NaN] or an array made anew by each call, this does not exclude
    repeats).  The loop ends after at most [num * (num * 50 + 1)] calls
    of [fn], so that the fuel of the model never runs out. *)
Theorem unique_distinct {A} `{Generators.StrictEq A} (fn : Chance.M A) (num : Z)
        (comparator : option (list A → A → bool)) (c : Chance.chance) :
  match Generators.unique fn num comparator c with
  | (Ok None, _) => False
  | (Ok (Some r), c') =>
      Z.of_nat (length r) = Z.max 0 num
      ∧ (∃ outs, Generators.successive fn outs c c'
                 ∧ r = Generators.kept (default Generators.indexOf_found comparator) [] outs
                 ∧ sublist r outs)
      ∧ (comparator = None →
         ∀ i j x y, (i < j)%nat → r !! i = Some x → r !! j = Some y →
                    Generators.strict_equal x y = false)
  | (Throw _, _) => True
  end.
Proof.
  unfold Generators.unique.
  pose proof (unique_loop_spec fn (default Generators.indexOf_found comparator) num
                (Generators.unique_fuel num) [] 0 c) as Hspec.
  destruct (Generators.unique_loop (Generators.unique_fuel num) fn
              (default Generators.indexOf_found comparator) num [] 0 c) as [[[r|]|e] c'].
  - destruct Hspec as (Hlen & outs & Hs & Hk).
    + cbn [length]. lia.
    + lia.
    + cbn [length]. unfold Generators.unique_fuel.
      destruct (Z.le_gt_cases 0 num); [rewrite Z2Nat.id by nia; lia|].
      destruct (Z.le_gt_cases 0 (num * (num * 50 + 1))); [rewrite Z2Nat.id by lia; lia|].
      rewrite Z2Nat.nonpos by lia. lia.
    + split; [exact Hlen|]. split.
      * exists outs. split; [exact Hs|]. split; [exact Hk|].
        destruct (kept_sublist (default Generators.indexOf_found comparator) outs [])
          as (l & Hl & Hsub).
        rewrite Hk, Hl. exact Hsub.
      * intros ->. cbn [default from_option id] in Hk. rewrite Hk.
        apply (kept_no_two_equal outs []). intros i j x y _ Hx. rewrite lookup_nil in Hx. discriminate Hx.
  - apply Hspec.
    + cbn [length]. lia.
    + lia.
    + cbn [length]. unfold Generators.unique_fuel.
      destruct (Z.le_gt_cases 0 num); [rewrite Z2Nat.id by nia; lia|].
      destruct (Z.le_gt_cases 0 (num * (num * 50 + 1))); [rewrite Z2Nat.id by lia; lia|].
      rewrite Z2Nat.nonpos by lia. lia.
  - exact I.
Qed.

(** X18.  When [fn] can only return one value, and that value is
    [===] to itself (a number other than [NaN], a string, or one and
    the same object), [unique(fn, num)] with [num >= 2] throws the
    RangeError [num is likely too large for sample set] after
    [num * 50 + 1] calls of [fn]: one for the value, and [num * 50]
    duplicates. *)
Theorem unique_gives_up {A} `{Generators.StrictEq A} (fn : Chance.M A) (x : A) (num : Z)
        (c : Chance.chance) :
  (∀ c, fn c = (Ok x, Chance.draw c)) →
  Generators.strict_equal x x = true →
  2 <= num →
  Generators.unique fn num None c
  = (Throw (RangeError "Chance: num is likely too large for sample set"),
     Chance.draws (Z.to_nat (num * 50 + 1)) c).
Proof.
  intros Hfn Hxx Hnum. unfold Generators.unique. cbn [default from_option id].
  assert (Hfuel : Generators.unique_fuel num = S (Z.to_nat (num * (num * 50 + 1) - 1))).
  { unfold Generators.unique_fuel. nia. }
  rewrite Hfuel. cbn [Generators.unique_loop length].
  destruct (Z.ltb_spec (Z.of_nat 0) num) as [_|]; [|lia].
  rewrite bind_run, Hfn. unfold Generators.indexOf_found at 1. cbn [existsb negb app].
  destruct (Z.ltb_spec (num * 50) (0 + 1)); [lia|].
  rewrite (unique_loop_stuck fn x num Hfn Hxx (Z.to_nat (num * 50))); [|lia|lia|nia|lia].
  f_equal. rewrite <- draws_S_l. f_equal. lia.
Qed.

Lemma unique_gives_up_witness :
  Generators.unique (Chance.natural (Chance.mkRange (Some 7%Q) (Some 7%Q))) 2 None
                    (Chance.new 0 [Chance.SeedNumber 42])
  = (Throw (RangeError "Chance: num is likely too large for sample set"),
     Chance.draws (Z.to_nat (2 * 50 + 1)) (Chance.new 0 [Chance.SeedNumber 42])).
Proof.
  apply (unique_gives_up (Chance.natural (Chance.mkRange (Some 7%Q) (Some 7%Q))) 7 2).
  - intros c. rewrite natural_run by (unfold Qle; simpl; lia). f_equal. f_equal.
    destruct (random_range (Chance.mt c)) as [Ha Hb].
    pose proof (scaled_draw_range (fst (Twister.random (Chance.mt c))) 7 7 Ha Hb) as H.
    change (inject_Z 7) with 7%Q in H. lia.
  - reflexivity.
  - lia.
Defined.

(** ** Printing a number and padding it *)

Lemma of_uint_acc_lower (d : Decimal.uint) :
  ∀ acc, (Zpos acc * 10 ^ Z.of_nat (String.length (NilEmpty.string_of_uint d))
          <= Zpos (Pos.of_uint_acc d acc)).
Proof.
  induction d; intros acc;
    cbn [Pos.of_uint_acc NilEmpty.string_of_uint String.length];
    [rewrite Z.pow_0_r; lia|
     rewrite Nat2Z.inj_succ, Z.pow_succ_r by lia; etransitivity; [|apply IHd]; lia..].
Qed.

(** A numeral without zeros in front is at least the power of ten of
    its length. *)
Lemma of_uint_lower (d : Decimal.uint) :
  Decimal.nzhead d = d → d ≠ Decimal.Nil →
  10 ^ (Z.of_nat (String.length (NilEmpty.string_of_uint d)) - 1) <= Z.of_N (N.of_uint d).
Proof.
  intros Hnz Hne. unfold N.of_uint.
  destruct d; try congruence;
    try (cbn [Pos.of_uint NilEmpty.string_of_uint String.length];
         rewrite Nat2Z.inj_succ;
         replace (Z.succ (Z.of_nat (String.length (NilEmpty.string_of_uint d))) - 1)
           with (Z.of_nat (String.length (NilEmpty.string_of_uint d))) by lia;
         etransitivity; [|apply of_uint_acc_lower]; lia).
  exfalso. cbn [Decimal.nzhead] in Hnz. exact (DecimalFacts.nzhead_nonzero _ _ Hnz).
Qed.

Lemma string_of_uint_digits (d : Decimal.uint) :
  Chance.all_digits (NilEmpty.string_of_uint d).
Proof.
  unfold Chance.all_digits.
  induction d; cbn [NilEmpty.string_of_uint list_ascii_of_string forallb];
    [reflexivity|rewrite IHd; reflexivity..].
Qed.

(** [z + ''] for a natural number below [10^k]: at most [k] digits, and
    the digits read back as [z]. *)
Lemma str_digits (z k : Z) :
  0 <= z < 10 ^ k → 1 <= k →
  Chance.all_digits (Generators.str z)
  ∧ (1 <= String.length (Generators.str z))%nat
  ∧ Z.of_nat (String.length (Generators.str z)) <= k
  ∧ Chance.Number (Generators.str z) = Some z.
Proof.
  intros Hz Hk. unfold Generators.str, Chance.toString.
  destruct (Z.ltb_spec z 0) as [|_]; [lia|].
  set (n := Z.to_N z). set (d := N.to_uint n).
  assert (Hof : N.of_uint d = n) by apply DecimalN.Unsigned.of_to.
  assert (Hnorm : Decimal.unorm d = d).
  { unfold d. rewrite <- (DecimalN.Unsigned.to_of (N.to_uint n)).
    rewrite DecimalN.Unsigned.of_to. reflexivity. }
  assert (Hs : NilZero.string_of_uint d = NilEmpty.string_of_uint d ∧ d ≠ Decimal.Nil).
  { destruct d eqn:E; try (split; [reflexivity|discriminate]).
    unfold Decimal.unorm in Hnorm. cbn in Hnorm. discriminate Hnorm. }
  destruct Hs as [Hs Hne]. rewrite Hs.
  split; [apply string_of_uint_digits|].
  split; [destruct d; cbn; try lia; congruence|].
  split.
  - clearbody d. unfold Decimal.unorm in Hnorm.
    destruct (Decimal.nzhead d) eqn:E;
      [rewrite <- Hnorm; cbn; lia|
       (pose proof (of_uint_lower d) as Hlow; rewrite E, Hnorm in Hlow;
        specialize (Hlow eq_refl Hne); rewrite Hof in Hlow;
        unfold n in Hlow; rewrite Z2N.id in Hlow by lia;
        destruct (Z.le_gt_cases (Z.of_nat (String.length (NilEmpty.string_of_uint d))) k)
          as [|Hgt]; [assumption|exfalso];
        assert (10 ^ k <= 10 ^ (Z.of_nat (String.length (NilEmpty.string_of_uint d)) - 1))
          by (apply Z.pow_le_mono_r; lia); lia)..].
  - destruct (all_digits_parse _ (string_of_uint_digits d)) as (d' & Hd' & Hsd').
    unfold Chance.Number. rewrite Hd'. cbn [fmap option_fmap option_map]. f_equal.
    assert (d' = d) as ->.
    { apply (f_equal NilEmpty.uint_of_string) in Hsd'.
      rewrite !NilEmpty.usu in Hsd'. congruence. }
    rewrite Hof. unfold n. apply Z2N.id. lia.
Qed.

Lemma array_join_S (k : nat) (sep : string) :
  Generators.array_join (S k) sep = String.concat "" (replicate k sep).
Proof.
  unfold Generators.array_join. induction k as [|k IH]; [reflexivity|].
  change (replicate (S (S k)) "") with ("" :: replicate (S k) "").
  cbn [String.concat]. change (replicate (S k) "") with ("" :: replicate k "") at 1.
  cbv beta iota. rewrite IH.
  change ("" +:+ sep +:+ String.concat "" (replicate k sep))
    with (sep +:+ String.concat "" (replicate k sep)).
  change (replicate (S k) sep) with (sep :: replicate k sep). rewrite concat_cons. reflexivity.
Qed.

Lemma pad_run (number : string) (width : Z) (p : option string) :
  let fill := if Chance.truthy_string p then default "" p else "0" in
  Generators.pad number width p
  = String.concat "" (replicate (Z.to_nat (width - Z.of_nat (String.length number))) fill)
    +:+ number.
Proof.
  intros fill. unfold Generators.pad. fold fill.
  destruct (Z.leb_spec width (Z.of_nat (String.length number))) as [Hle|Hgt].
  - rewrite Z2Nat.nonpos by lia. reflexivity.
  - replace (Z.to_nat (width - Z.of_nat (String.length number) + 1))
      with (S (Z.to_nat (width - Z.of_nat (String.length number)))) by lia.
    rewrite array_join_S. reflexivity.
Qed.

Lemma concat_replicate_length (k : nat) (s : string) :
  String.length (String.concat "" (replicate k s)) = (k * String.length s)%nat.
Proof.
  induction k as [|k IH]; [reflexivity|].
  change (replicate (S k) s) with (s :: replicate k s).
  rewrite concat_cons, string_length_app, IH. lia.
Qed.

Lemma concat_replicate_digits (k : nat) :
  Chance.all_digits (String.concat "" (replicate k "0")).
Proof.
  induction k as [|k IH]; [reflexivity|].
  change (replicate (S k) "0") with ("0" :: replicate k "0").
  rewrite concat_cons. apply all_digits_app; [reflexivity|exact IH].
Qed.



(** A natural number below [10^width], zero-padded to [width]. *)
Lemma pad_digits (z width : Z) :
  0 <= z < 10 ^ width → 1 <= width →
  Chance.all_digits (Generators.pad (Generators.str z) width None)
  ∧ String.length (Generators.pad (Generators.str z) width None) = Z.to_nat width.
Proof.
  intros Hz Hw. destruct (str_digits z width Hz Hw) as (Hd & Hl1 & Hl2 & _).
  rewrite pad_run. cbn [Chance.truthy_string]. split.
  - apply all_digits_app; [apply concat_replicate_digits|exact Hd].
  - rewrite string_length_app, concat_replicate_length. cbn [String.length]. lia.
Qed.

(** ** Identifiers *)

Lemma draws_add (a b : nat) (c : Chance.chance) :
  Chance.draws a (Chance.draws b c) = Chance.draws (a + b) c.
Proof. unfold Chance.draws. rewrite Nat.iter_add. reflexivity. Qed.

Lemma pool_string_bind {B} (pool : string) (len : Z) (k : string → Chance.M B)
      (c : Chance.chance) :
  pool ≠ "" → 0 <= len →
  ∃ s, (Generators.pool_string pool len ≫= k) c = k s (Chance.draws (S (Z.to_nat len)) c)
       ∧ String.length s = Z.to_nat len
       ∧ Forall (fun ch => ch ∈ list_ascii_of_string pool) (list_ascii_of_string s).
Proof.
  intros Hp Hl. destruct (pool_string_run pool len c Hp Hl) as (s & Hs & H1 & H2).
  exists s. rewrite bind_run, Hs. auto.
Qed.

Ltac pool_step s Hlen Hin :=
  match goal with
  | |- context [(Generators.pool_string ?pool ?len ≫= ?k) ?c] =>
      let H := fresh in
      destruct (pool_string_bind pool len k c) as (s & H & Hlen & Hin);
      [discriminate|lia|rewrite H; clear H; cbv beta]
  end.

(** X20.  [guid] returns 36 characters in the groups 8-4-4-4-12
    separated by hyphens: the third group starts with the version (5
    unless one is passed), the fourth with one of [ab89], and every
    other character comes from [abcdef1234567890]; it takes 37 draws. *)
Theorem guid_layout (v : option Z) (c : Chance.chance) :
  0 <= default 5 v <= 9 →
  ∃ s1 s2 s3 s4 s5 s6 : string,
    Generators.guid (Generators.mkGuidOpts v) c
    = (Ok (s1 +:+ "-" +:+ s2 +:+ "-" +:+ Chance.toString (Some (default 5 v)) +:+ s3 +:+ "-"
           +:+ s4 +:+ s5 +:+ "-" +:+ s6),
       Chance.draws 37 c)
    ∧ String.length <$> [s1; s2; s3; s4; s5; s6] = [8; 4; 3; 1; 3; 12]%nat
    ∧ Forall (fun s => Forall (fun ch => ch ∈ list_ascii_of_string "abcdef1234567890")
                              (list_ascii_of_string s)) [s1; s2; s3; s5; s6]
    ∧ Forall (fun ch => ch ∈ list_ascii_of_string "ab89") (list_ascii_of_string s4)
    ∧ String.length (s1 +:+ "-" +:+ s2 +:+ "-" +:+ Chance.toString (Some (default 5 v))
                     +:+ s3 +:+ "-" +:+ s4 +:+ s5 +:+ "-" +:+ s6) = 36%nat.
Proof.
  intros Hv. unfold Generators.guid. cbn [Generators.version].
  pool_step s1 L1 P1. pool_step s2 L2 P2. pool_step s3 L3 P3.
  pool_step s4 L4 P4. pool_step s5 L5 P5. pool_step s6 L6 P6.
  exists s1, s2, s3, s4, s5, s6.
  rewrite !draws_add. split; [reflexivity|].
  split; [cbn [fmap list_fmap]; rewrite L1, L2, L3, L4, L5, L6; reflexivity|].
  split; [repeat constructor; assumption|]. split; [exact P4|].
  destruct (digit_toString _ Hv) as (ch & Hch & _). rewrite Hch.
  rewrite !string_length_app, L1, L2, L3, L4, L5, L6. reflexivity.
Qed.

Lemma guid_layout_witness :
  ∃ s1 s2 s3 s4 s5 s6 : string,
    Generators.guid (Generators.mkGuidOpts (Some 4)) (Chance.new 0 [Chance.SeedNumber 42])
    = (Ok (s1 +:+ "-" +:+ s2 +:+ "-" +:+ Chance.toString (Some (default 5 (Some 4))) +:+ s3
           +:+ "-" +:+ s4 +:+ s5 +:+ "-" +:+ s6),
       Chance.draws 37 (Chance.new 0 [Chance.SeedNumber 42]))
    ∧ String.length <$> [s1; s2; s3; s4; s5; s6] = [8; 4; 3; 1; 3; 12]%nat
    ∧ Forall (fun s => Forall (fun ch => ch ∈ list_ascii_of_string "abcdef1234567890")
                              (list_ascii_of_string s)) [s1; s2; s3; s5; s6]
    ∧ Forall (fun ch => ch ∈ list_ascii_of_string "ab89") (list_ascii_of_string s4)
    ∧ String.length (s1 +:+ "-" +:+ s2 +:+ "-" +:+ Chance.toString (Some (default 5 (Some 4)))
                     +:+ s3 +:+ "-" +:+ s4 +:+ s5 +:+ "-" +:+ s6) = 36%nat.
Proof.
  apply (guid_layout (Some 4) (Chance.new 0 [Chance.SeedNumber 42])). cbn. lia.
Defined.

(** X21.  [hash] returns [length] characters (40 unless a length is
    passed), all of them lower case hexadecimal digits, or all of them
    upper case ones when the casing is ['upper']: the two are never
    mixed.  A negative length is refused. *)
Theorem hash_hex (options : Generators.hash_options) (c : Chance.chance) :
  let len := default 40 (Generators.h_length options) in
  let pool := if bool_decide (Generators.h_casing options = Some "upper")
              then "0123456789ABCDEF" else "0123456789abcdef" in
  (0 <= len →
   ∃ s, Generators.hash options c = (Ok s, Chance.draws (S (Z.to_nat len)) c)
        ∧ String.length s = Z.to_nat len
        ∧ Forall (fun ch => ch ∈ list_ascii_of_string pool) (list_ascii_of_string s))
  ∧ (len < 0 →
     Generators.hash options c
     = (Throw (RangeError "Chance: Length cannot be less than zero."), Chance.draw c)).
Proof.
  intros len pool. split.
  - intros Hlen. unfold Generators.hash. fold len.
    assert (E : (if bool_decide (default "lower" (Generators.h_casing options) = "upper")
                 then "0123456789ABCDEF" else Chance.HEX_POOL) = pool).
    { unfold pool. destruct (Generators.h_casing options) as [s|]; cbn [default from_option id].
      - repeat case_bool_decide; try reflexivity; congruence.
      - reflexivity. }
    rewrite E. apply pool_string_run; [|exact Hlen].
    clear E. unfold pool. case_bool_decide; intros H'; discriminate H'.
  - intros Hlen. unfold Generators.hash, Generators.pool_string, Chance.string. fold len.
    run_monad. destruct (default_length_run c) as (d & Hd & _). rewrite Hd.
    cbn [Chance.length_ default from_option id].
    destruct (Z.ltb_spec len 0); [reflexivity|lia].
Qed.

Lemma hash_hex_witness :
  ∃ s, Generators.hash (Generators.mkHashOpts (Some 8) (Some "upper"))
                       (Chance.new 0 [Chance.SeedNumber 42])
       = (Ok s, Chance.draws (S (Z.to_nat 8)) (Chance.new 0 [Chance.SeedNumber 42]))
       ∧ String.length s = Z.to_nat 8
       ∧ Forall (fun ch => ch ∈ list_ascii_of_string "0123456789ABCDEF") (list_ascii_of_string s).
Proof.
  apply (proj1 (hash_hex (Generators.mkHashOpts (Some 8) (Some "upper"))
                         (Chance.new 0 [Chance.SeedNumber 42]))).
  cbn. lia.
Defined.

Lemma pool_digits (s : string) :
  Forall (fun ch => ch ∈ list_ascii_of_string "1234567890") (list_ascii_of_string s) →
  Chance.all_digits s.
Proof.
  unfold Chance.all_digits. induction 1 as [|ch l Hch _ IH]; [reflexivity|].
  cbn [forallb]. rewrite IH, andb_true_r.
  cbn [list_ascii_of_string] in Hch.
  repeat (apply elem_of_cons in Hch as [->|Hch]; [reflexivity|]).
  apply elem_of_nil in Hch. contradiction.
Qed.

(** X22.  [ssn] returns digits in the groups 3-2-4, separated by
    dashes (11 characters) or, with [dashes: false], not separated (9
    digits); with [ssnFour] it returns 4 digits only. *)
Theorem ssn_layout (options : Generators.ssn_options) (c : Chance.chance) :
  let dash := if default true (Generators.dashes options) then "-" else "" in
  if default false (Generators.ssnFour options)
  then ∃ s, Generators.ssn options c = (Ok s, Chance.draws 5 c)
            ∧ Chance.all_digits s ∧ String.length s = 4%nat
  else ∃ a b d, Generators.ssn options c
                = (Ok (a +:+ dash +:+ b +:+ dash +:+ d), Chance.draws 12 c)
                ∧ Chance.all_digits a ∧ Chance.all_digits b ∧ Chance.all_digits d
                ∧ String.length <$> [a; b; d] = [3; 2; 4]%nat
                ∧ String.length (a +:+ dash +:+ b +:+ dash +:+ d)
                  = (9 + 2 * String.length dash)%nat.
Proof.
  intros dash. unfold Generators.ssn. fold dash.
  destruct (default false (Generators.ssnFour options)); cbn [negb].
  - destruct (pool_string_run "1234567890" 4 c) as (s & Hs & Hl & Hp); [discriminate|lia|].
    exists s. split; [exact Hs|]. split; [apply pool_digits, Hp|exact Hl].
  - pool_step a La Pa. pool_step b Lb Pb. pool_step d Ld Pd.
    exists a, b, d. rewrite !draws_add. split; [reflexivity|].
    split; [apply pool_digits, Pa|]. split; [apply pool_digits, Pb|].
    split; [apply pool_digits, Pd|].
    split; [cbn [fmap list_fmap]; rewrite La, Lb, Ld; reflexivity|].
    rewrite !string_length_app, La, Lb, Ld. cbn. lia.
Qed.

(** ** Hours, minutes and months *)

Lemma natural_range_run (c : Chance.chance) (lo hi : Z) :
  0 <= lo <= hi →
  ∃ v, Chance.natural (Generators.range lo hi) c = (Ok v, Chance.draw c) ∧ lo <= v <= hi.
Proof.
  intros [H0 Hle]. unfold Generators.range. eexists. split.
  - apply natural_run.
    + change 0%Q with (inject_Z 0). rewrite <- Zle_Qle. exact H0.
    + rewrite <- Zle_Qle. exact Hle.
  - destruct (random_range (Chance.mt c)) as [Ha Hb].
    apply scaled_draw_range; assumption.
Qed.

(** X23.  [hour] and [minute] check their bounds before the engine is
    touched: [hour] needs [0 <= min <= max <= 12], or [<= 23] with
    [twentyfour], and [minute] needs [0 <= min <= max <= 59]; otherwise
    a RangeError is thrown.  With bounds that pass, the number returned
    lies in [min..max] (by default an hour of 1..12, or 0..23 with
    [twentyfour], and a minute of 0..59). *)
Theorem hour_minute_range (options : Generators.time_options) (c : Chance.chance) :
  let top := if Generators.twentyfour options then 23 else 12 in
  let hmin := default (if Generators.twentyfour options then 0 else 1) (Generators.t_min options) in
  let hmax := default top (Generators.t_max options) in
  let mmin := default 0 (Generators.t_min options) in
  let mmax := default 59 (Generators.t_max options) in
  (0 <= hmin <= hmax ∧ hmax <= top →
   ∃ h, Generators.hour options c = (Ok h, Chance.draw c) ∧ hmin <= h <= hmax)
  ∧ (¬ (0 <= hmin <= hmax ∧ hmax <= top) →
     ∃ msg, Generators.hour options c = (Throw (RangeError msg), c))
  ∧ (0 <= mmin <= mmax ∧ mmax <= 59 →
     ∃ m, Generators.minute options c = (Ok m, Chance.draw c) ∧ mmin <= m <= mmax)
  ∧ (¬ (0 <= mmin <= mmax ∧ mmax <= 59) →
     ∃ msg, Generators.minute options c = (Throw (RangeError msg), c)).
Proof.
  intros top hmin hmax mmin mmax.
  split; [|split; [|split]].
  - intros [H1 H2]. unfold Generators.hour. fold hmin. fold top. fold hmax. run_monad.
    destruct (Z.ltb_spec hmin 0); [lia|].
    destruct (Z.ltb_spec hmax hmin); [lia|].
    subst top. destruct (Generators.twentyfour options); cbn [andb negb];
      [destruct (Z.ltb_spec 23 hmax); [lia|] | destruct (Z.ltb_spec 12 hmax); [lia|]];
      cbv beta iota; apply natural_range_run; lia.
  - intros Hbad. unfold Generators.hour. fold hmin. fold top. fold hmax. run_monad.
    destruct (Z.ltb_spec hmin 0); [eexists; reflexivity|].
    subst top. destruct (Generators.twentyfour options); cbn [andb negb];
      [destruct (Z.ltb_spec 23 hmax); [eexists; reflexivity|]
      |destruct (Z.ltb_spec 12 hmax); [eexists; reflexivity|]];
      (destruct (Z.ltb_spec hmax hmin); [eexists; reflexivity|lia]).
  - intros [H1 H2]. unfold Generators.minute. fold mmin. fold mmax. run_monad.
    destruct (Z.ltb_spec mmin 0); [lia|].
    destruct (Z.ltb_spec 59 mmax); [lia|].
    destruct (Z.ltb_spec mmax mmin); [lia|].
    apply natural_range_run; lia.
  - intros Hbad. unfold Generators.minute. fold mmin. fold mmax. run_monad.
    destruct (Z.ltb_spec mmin 0); [eexists; reflexivity|].
    destruct (Z.ltb_spec 59 mmax); [eexists; reflexivity|].
    destruct (Z.ltb_spec mmax mmin); [eexists; reflexivity|lia].
Qed.

Lemma hour_minute_range_witness :
  let c := Chance.new 0 [Chance.SeedNumber 42] in
  ∃ h, Generators.hour (Generators.mkTimeOpts (Some 9) (Some 17) true false) c
       = (Ok h, Chance.draw c) ∧ 9 <= h <= 17.
Proof.
  intros c.
  apply (proj1 (hour_minute_range (Generators.mkTimeOpts (Some 9) (Some 17) true false) c)).
  cbn. lia.
Defined.

Lemma slice_lookup {B} (arr : list B) (start end_ : Z) (i : nat) :
  0 <= start →
  Generators.slice arr start end_ !! i
  = if bool_decide (Z.of_nat i + start < end_) then arr !! (Z.to_nat start + i)%nat else None.
Proof.
  intros Hs. unfold Generators.slice. rewrite lookup_drop.
  case_bool_decide.
  - apply lookup_take_lt. lia.
  - apply lookup_take_ge. lia.
Qed.

Lemma slice_length {B} (arr : list B) (start end_ : Z) :
  0 <= start <= end_ → end_ <= Z.of_nat (length arr) →
  Z.of_nat (length (Generators.slice arr start end_)) = end_ - start.
Proof.
  intros H1 H2. unfold Generators.slice. rewrite length_drop, length_take. lia.
Qed.

(** X24.  [month] checks [1 <= min <= max <= 12] before the engine is
    touched and throws a RangeError otherwise.  With bounds that pass
    and a table of at least [max] months, it returns after one draw the
    entry of the table at a position of [min..max] (counted from 1):
    the entry itself when [raw], otherwise its name. *)
Theorem month_in_range (months : list Generators.month_entry)
        (options : Generators.time_options) (c : Chance.chance) :
  let min := default 1 (Generators.t_min options) in
  let max := default 12 (Generators.t_max options) in
  (1 <= min <= max ∧ max <= 12 → max <= Z.of_nat (length months) →
   ∃ k entry, min <= k <= max
     ∧ months !! Z.to_nat (k - 1) = Some entry
     ∧ Generators.month months options c
       = (Ok (if Generators.raw options then inl (Some entry)
              else inr (Generators.m_name entry)), Chance.draw c))
  ∧ (¬ (1 <= min <= max ∧ max <= 12) →
     ∃ msg, Generators.month months options c = (Throw (RangeError msg), c)).
Proof.
  intros min max. split.
  - intros [H1 H2] Hlen. unfold Generators.month. fold min. fold max. run_monad.
    destruct (Z.ltb_spec min 1); [lia|].
    destruct (Z.ltb_spec 12 max); [lia|].
    destruct (Z.ltb_spec max min); [lia|]. cbv beta iota.
    set (arr := Some <$> Generators.slice months (min - 1) max).
    assert (Hal : Z.of_nat (length arr) = max - (min - 1)).
    { unfold arr. rewrite length_fmap. apply slice_length; lia. }
    unfold Chance.pick. rewrite bool_decide_eq_false_2 by lia.
    run_monad. unfold Chance.max_index.
    destruct (natural_max_run c (Z.of_nat (length arr) - 1)) as (i & Hi & Hr); [lia|].
    rewrite Hi.
    assert (Hin : 0 <= i < Z.of_nat (length arr)) by lia.
    pose proof (index_lookup None arr i Hin) as Hx.
    unfold arr in Hx at 1. rewrite list_lookup_fmap, slice_lookup in Hx by lia.
    rewrite bool_decide_eq_true_2 in Hx by lia.
    destruct (months !! (Z.to_nat (min - 1) + Z.to_nat i)%nat) as [entry|] eqn:E;
      cbn in Hx; [|discriminate Hx].
    injection Hx as Hx. rewrite <- Hx.
    exists (min + i), entry. split; [lia|]. split.
    + rewrite <- E. f_equal. lia.
    + destruct (Generators.raw options); reflexivity.
  - intros Hbad. unfold Generators.month. fold min. fold max. run_monad.
    destruct (Z.ltb_spec min 1); [eexists; reflexivity|].
    destruct (Z.ltb_spec 12 max); [eexists; reflexivity|].
    destruct (Z.ltb_spec max min); [eexists; reflexivity|lia].
Qed.

Lemma month_in_range_witness :
  let c := Chance.new 0 [Chance.SeedNumber 42] in
  let options := Generators.mkTimeOpts (Some 3) (Some 5) false false in
  ∃ k entry, 3 <= k <= 5
     ∧ Generators.months_table !! Z.to_nat (k - 1) = Some entry
     ∧ Generators.month Generators.months_table options c
       = (Ok (inr (Generators.m_name entry)), Chance.draw c).
Proof.
  intros c options.
  apply (proj1 (month_in_range Generators.months_table options c)).
  - cbn. lia.
  - cbn. lia.
Defined.

(** ** Brazilian taxpayer numbers *)

Lemma mod11_digit_spec (s : Z) :
  0 <= s →
  0 <= Generators.mod11_digit s <= 9
  ∧ Generators.mod11_digit s = (s * 10) mod 11 mod 10.
Proof.
  intros Hs. unfold Generators.mod11_digit. rewrite Z.rem_mod_nonneg by lia.
  rewrite <- (Z.mul_mod_idemp_l s 10 11) by lia.
  pose proof (Z.mod_pos_bound s 11) as Hr.
  generalize dependent (s mod 11). intros r Hr.
  assert (r = 0 ∨ r = 1 ∨ r = 2 ∨ r = 3 ∨ r = 4 ∨ r = 5 ∨ r = 6 ∨ r = 7 ∨ r = 8
          ∨ r = 9 ∨ r = 10) as Hcases by lia.
  repeat (destruct Hcases as [->|Hcases]); try subst r;
    (split; [vm_compute; split; discriminate|vm_compute; reflexivity]).
Qed.

Lemma digit_run (c : Chance.chance) :
  ∃ d, Generators.digit 9 c = (Ok d, Chance.draw c) ∧ 0 <= d <= 9.
Proof. apply (natural_max_run c 9). lia. Qed.

Lemma digits_run (k : nat) (c : Chance.chance) :
  ∃ n, Chance.n (Generators.digit 9) (Some (Z.of_nat k)) c = (Ok n, Chance.draws k c)
       ∧ length n = k ∧ Forall (fun d => 0 <= d <= 9) n.
Proof.
  unfold Chance.n. cbn [default from_option id]. rewrite Z.max_r, Nat2Z.id by lia.
  destruct (n_loop_run (Generators.digit 9) (fun d => 0 <= d <= 9) digit_run k [] c)
    as (n & Hn & Hl & HF).
  exists n. auto.
Qed.

Lemma str_digit (k : Z) :
  0 <= k <= 9 →
  ∃ ch, Generators.str k = String ch "" ∧ Chance.is_digit ch = true.
Proof.
  intros Hk. destruct (digit_toString k Hk) as (ch & H1 & H2 & _). exists ch. auto.
Qed.

Ltac list_of_length n Hl HF :=
  repeat (let d := fresh "d" in let Hd := fresh "Hd" in
          destruct n as [|d n]; [discriminate Hl|];
          apply Forall_cons in HF as [Hd HF]);
  destruct n; [|discriminate Hl]; clear Hl HF.

(** X25.  [cpf] draws nine digits and appends the two check digits of
    the CPF rule, each the weighted sum of the digits before it (weights
    10..2, then 11..2) times 10, modulo 11, modulo 10.  The result has
    the layout [ddd.ddd.ddd-dd], 14 characters, or with
    [formatted: false] the 11 digits alone. *)
Theorem cpf_check_digits (options : Generators.cpf_options) (c : Chance.chance) :
  ∃ n0 n1 n2 n3 n4 n5 n6 n7 n8 d1 d2 : Z,
    Forall (fun d => 0 <= d <= 9) [n0; n1; n2; n3; n4; n5; n6; n7; n8; d1; d2]
    ∧ d1 = ((10 * n0 + 9 * n1 + 8 * n2 + 7 * n3 + 6 * n4 + 5 * n5 + 4 * n6 + 3 * n7 + 2 * n8)
            * 10) mod 11 mod 10
    ∧ d2 = ((11 * n0 + 10 * n1 + 9 * n2 + 8 * n3 + 7 * n4 + 6 * n5 + 5 * n6 + 4 * n7 + 3 * n8
             + 2 * d1) * 10) mod 11 mod 10
    ∧ let s := Generators.str in
      let cpf :=
        if default true (Generators.formatted options)
        then s n0 +:+ s n1 +:+ s n2 +:+ "." +:+ s n3 +:+ s n4 +:+ s n5 +:+ "."
             +:+ s n6 +:+ s n7 +:+ s n8 +:+ "-" +:+ s d1 +:+ s d2
        else s n0 +:+ s n1 +:+ s n2 +:+ s n3 +:+ s n4 +:+ s n5
             +:+ s n6 +:+ s n7 +:+ s n8 +:+ s d1 +:+ s d2 in
      Generators.cpf options c = (Ok cpf, Chance.draws 9 c)
      ∧ String.length cpf = (if default true (Generators.formatted options) then 14 else 11)%nat.
Proof.
  unfold Generators.cpf.
  destruct (digits_run 9 c) as (n & Hn & Hl & HF).
  rewrite bind_run. change (Some 9) with (Some (Z.of_nat 9)). rewrite Hn. clear Hn.
  list_of_length n Hl HF.
  unfold Generators.at_. cbn [lookup list_lookup default from_option id].
  set (s1 := d7 * 2 + d6 * 3 + d5 * 4 + d4 * 5 + d3 * 6 + d2 * 7 + d1 * 8 + d0 * 9 + d * 10).
  destruct (mod11_digit_spec s1) as [Hr1 He1]; [unfold s1; lia|].
  set (c1 := Generators.mod11_digit s1) in *.
  set (s2 := c1 * 2 + d7 * 3 + d6 * 4 + d5 * 5 + d4 * 6 + d3 * 7 + d2 * 8 + d1 * 9 + d0 * 10
             + d * 11).
  destruct (mod11_digit_spec s2) as [Hr2 He2]; [unfold s2; lia|].
  set (c2 := Generators.mod11_digit s2) in *.
  exists d, d0, d1, d2, d3, d4, d5, d6, d7, c1, c2.
  split; [repeat (constructor; [assumption|]); constructor|].
  split; [rewrite He1; unfold s1; do 3 f_equal; lia|].
  split; [rewrite He2; unfold s2; do 3 f_equal; lia|].
  cbv zeta.
  destruct (str_digit d Hd) as (ch0 & E0 & D0). destruct (str_digit d0 Hd0) as (ch1 & E1 & D1).
  destruct (str_digit d1 Hd1) as (ch2 & E2 & D2). destruct (str_digit d2 Hd2) as (ch3 & E3 & D3).
  destruct (str_digit d3 Hd3) as (ch4 & E4 & D4). destruct (str_digit d4 Hd4) as (ch5 & E5 & D5).
  destruct (str_digit d5 Hd5) as (ch6 & E6 & D6). destruct (str_digit d6 Hd6) as (ch7 & E7 & D7).
  destruct (str_digit d7 Hd7) as (ch8 & E8 & D8).
  destruct (str_digit c1 Hr1) as (k1 & F1 & G1). destruct (str_digit c2 Hr2) as (k2 & F2 & G2).
  rewrite E0, E1, E2, E3, E4, E5, E6, E7, E8, F1, F2.
  destruct (default true (Generators.formatted options)).
  - split; reflexivity.
  - split; [|reflexivity]. run_monad. do 2 f_equal.
    unfold Generators.strip_non_digits.
    change (list_ascii_of_string _)
      with [ch0; ch1; ch2; "."%char; ch3; ch4; ch5; "."%char; ch6; ch7; ch8; "-"%char; k1; k2].
    repeat first [rewrite filter_cons_True by assumption
                 |rewrite filter_cons_False by (vm_compute; discriminate)].
    reflexivity.
Qed.

(** X26.  [cnpj], in the definition that is in force (the prototype
    is assigned twice), draws eight digits, uses the branch 0001 and
    appends the two check digits of the CNPJ rule over the twelve digits
    (weights 5,4,3,2,9,8,7,6,5,4,3,2, then 6,5,4,3,2,9,8,7,6,5,4,3,2
    with the first check digit): the weighted sum times 10, modulo 11,
    modulo 10.  The layout is [dd.ddd.ddd/0001-dd], 18 characters. *)
Theorem cnpj_check_digits (c : Chance.chance) :
  ∃ n0 n1 n2 n3 n4 n5 n6 n7 d1 d2 : Z,
    Forall (fun d => 0 <= d <= 9) [n0; n1; n2; n3; n4; n5; n6; n7; d1; d2]
    ∧ d1 = ((5 * n0 + 4 * n1 + 3 * n2 + 2 * n3 + 9 * n4 + 8 * n5 + 7 * n6 + 6 * n7
             + 5 * 0 + 4 * 0 + 3 * 0 + 2 * 1) * 10) mod 11 mod 10
    ∧ d2 = ((6 * n0 + 5 * n1 + 4 * n2 + 3 * n3 + 2 * n4 + 9 * n5 + 8 * n6 + 7 * n7
             + 6 * 0 + 5 * 0 + 4 * 0 + 3 * 1 + 2 * d1) * 10) mod 11 mod 10
    ∧ let s := Generators.str in
      let cnpj := s n0 +:+ s n1 +:+ "." +:+ s n2 +:+ s n3 +:+ s n4 +:+ "."
                  +:+ s n5 +:+ s n6 +:+ s n7 +:+ "/0001-" +:+ s d1 +:+ s d2 in
      Generators.cnpj c = (Ok cnpj, Chance.draws 8 c)
      ∧ String.length cnpj = 18%nat.
Proof.
  unfold Generators.cnpj.
  destruct (digits_run 8 c) as (n & Hn & Hl & HF).
  rewrite bind_run. change (Some 8) with (Some (Z.of_nat 8)). rewrite Hn. clear Hn.
  list_of_length n Hl HF.
  unfold Generators.at_. cbn [lookup list_lookup default from_option id].
  set (s1 := 2 + d6 * 6 + d5 * 7 + d4 * 8 + d3 * 9 + d2 * 2 + d1 * 3 + d0 * 4 + d * 5).
  destruct (mod11_digit_spec s1) as [Hr1 He1]; [unfold s1; lia|].
  set (c1 := Generators.mod11_digit s1) in *.
  set (s2 := c1 * 2 + 3 + d6 * 7 + d5 * 8 + d4 * 9 + d3 * 2 + d2 * 3 + d1 * 4 + d0 * 5 + d * 6).
  destruct (mod11_digit_spec s2) as [Hr2 He2]; [unfold s2; lia|].
  set (c2 := Generators.mod11_digit s2) in *.
  exists d, d0, d1, d2, d3, d4, d5, d6, c1, c2.
  split; [repeat (constructor; [assumption|]); constructor|].
  split; [rewrite He1; unfold s1; do 3 f_equal; lia|].
  split; [rewrite He2; unfold s2; do 3 f_equal; lia|].
  cbv zeta.
  destruct (str_digit d Hd) as (ch0 & E0 & D0). destruct (str_digit d0 Hd0) as (ch1 & E1 & D1).
  destruct (str_digit d1 Hd1) as (ch2 & E2 & D2). destruct (str_digit d2 Hd2) as (ch3 & E3 & D3).
  destruct (str_digit d3 Hd3) as (ch4 & E4 & D4). destruct (str_digit d4 Hd4) as (ch5 & E5 & D5).
  destruct (str_digit d5 Hd5) as (ch6 & E6 & D6). destruct (str_digit d6 Hd6) as (ch7 & E7 & D7).
  destruct (str_digit c1 Hr1) as (k1 & F1 & G1). destruct (str_digit c2 Hr2) as (k2 & F2 & G2).
  rewrite E0, E1, E2, E3, E4, E5, E6, E7, F1, F2.
  split; reflexivity.
Qed.

(** ** Polish numbers and the Italian VAT number *)

Lemma parse_digits (s : string) :
  Chance.all_digits s →
  let ds := digit_of <$> list_ascii_of_string s in
  Generators.parseInt_char <$> list_ascii_of_string s = Some <$> ds
  ∧ Forall (fun d => 0 <= d <= 9) ds
  ∧ length ds = String.length s
  ∧ Generators.join_numbers (Some <$> ds) = s.
Proof.
  unfold Chance.all_digits, Generators.join_numbers.
  induction s as [|ch s IH]; intros H; cbv zeta.
  - repeat split; constructor.
  - cbn [list_ascii_of_string forallb] in H. apply andb_prop in H as [Hc Hs].
    destruct (IH Hs) as (H1 & H2 & H3 & H4).
    destruct (is_digit_char ch Hc) as (k & Hk & Hv & Hts & _).
    assert (Hd : digit_of ch = k).
    { unfold Chance.digit_value in Hv. rewrite Hc in Hv. unfold digit_of. congruence. }
    cbv zeta in IH. cbn [list_ascii_of_string fmap list_fmap String.length length] in *.
    unfold Generators.parseInt_char at 1. rewrite Hc. fold (digit_of ch).
    split; [f_equal; exact H1|]. split; [constructor; [lia|exact H2]|].
    split; [congruence|].
    rewrite concat_cons, Hd, Hts, H4. reflexivity.
Qed.

(** The digits [pad(number, width).split('')] leaves after [parseInt]. *)
Lemma padded_digits_run (number width : Z) :
  0 <= number < 10 ^ width → 1 <= width →
  ∃ ds, Generators.padded_digits number width = Some <$> ds
        ∧ length ds = Z.to_nat width
        ∧ Forall (fun d => 0 <= d <= 9) ds
        ∧ Chance.all_digits (Generators.join_numbers (Some <$> ds))
        ∧ String.length (Generators.join_numbers (Some <$> ds)) = Z.to_nat width.
Proof.
  intros Hn Hw. destruct (pad_digits number width Hn Hw) as [Hd Hl].
  destruct (parse_digits _ Hd) as (H1 & H2 & H3 & H4).
  eexists. split; [exact H1|]. split; [congruence|]. split; [exact H2|].
  rewrite H4. auto.
Qed.

(** X27.  [pl_pesel] returns 11 digits that pass the PESEL check: the
    sum of the digits weighted by 1,3,7,9,1,3,7,9,1,3,1 is a multiple
    of 10.  One draw is made. *)
Theorem pl_pesel_checksum (c : Chance.chance) :
  ∃ (ds : list Z) (k sum : Z),
    Generators.pl_pesel c
    = (Ok (Generators.join_numbers (Some <$> ds) +:+ Generators.str k), Chance.draw c)
    ∧ length ds = 10%nat
    ∧ Forall (fun d => 0 <= d <= 9) (ds ++ [k])
    ∧ Generators.weighted_sum [1; 3; 7; 9; 1; 3; 7; 9; 1; 3; 1] (Some <$> (ds ++ [k])) = Some sum
    ∧ sum mod 10 = 0
    ∧ Chance.all_digits (Generators.join_numbers (Some <$> ds) +:+ Generators.str k)
    ∧ String.length (Generators.join_numbers (Some <$> ds) +:+ Generators.str k) = 11%nat.
Proof.
  unfold Generators.pl_pesel.
  destruct (natural_range_run c 1 9999999999) as (number & Hrun & Hr); [lia|].
  rewrite bind_run, Hrun. clear Hrun.
  destruct (padded_digits_run number 10) as (ds & Hds & Hl & HF & Hall & Hlen); [lia|lia|].
  rewrite Hds. clear Hds. change (Z.to_nat 10) with 10%nat in *.
  pose proof HF as HF'.
  list_of_length ds Hl HF'.
  cbn [fmap list_fmap Generators.weighted_sum option_fmap option_map].
  set (s := 1 * d + (3 * d0 + (7 * d1 + (9 * d2 + (1 * d3 + (3 * d4 + (7 * d5 + (9 * d6
             + (1 * d7 + (3 * d8 + 0)))))))))).
  assert (Hs : 0 <= s) by (unfold s; lia).
  pose proof (Z.rem_mod_nonneg s 10 Hs ltac:(lia)) as Hrem.
  pose proof (Z.mod_pos_bound s 10 ltac:(lia)) as Hb.
  set (k := if bool_decide (Z.rem s 10 ≠ 0) then 10 - Z.rem s 10 else Z.rem s 10).
  assert (Hk : 0 <= k <= 9 ∧ (s + k) mod 10 = 0).
  { unfold k. rewrite Hrem. case_bool_decide as Hz.
    - split; [lia|]. rewrite <- Z.add_mod_idemp_l by lia.
      replace (s mod 10 + (10 - s mod 10)) with (1 * 10) by lia. apply Z.mod_mul. lia.
    - split; [lia|]. rewrite <- Z.add_mod_idemp_l by lia.
      replace (s mod 10) with 0 by lia. reflexivity. }
  destruct Hk as [Hk Hsum].
  destruct (str_digit k Hk) as (ch & Hch & Hdig).
  exists [d; d0; d1; d2; d3; d4; d5; d6; d7; d8], k, (s + k).
  split; [reflexivity|]. split; [reflexivity|].
  split; [apply Forall_app; split; [exact HF|repeat constructor; lia]|].
  split; [cbn; f_equal; unfold s; lia|].
  split; [exact Hsum|].
  split.
  - apply all_digits_app; [exact Hall|]. rewrite Hch. unfold Chance.all_digits. cbn.
    rewrite Hdig. reflexivity.
  - rewrite string_length_app, Hlen, Hch. reflexivity.
Qed.

(** X28.  [pl_regon] returns 9 digits that pass the REGON check: the
    last digit is the sum of the first eight weighted by
    8,9,2,3,4,5,6,7, modulo 11, modulo 10.  One draw is made. *)
Theorem pl_regon_checksum (c : Chance.chance) :
  ∃ (ds : list Z) (k sum : Z),
    Generators.pl_regon c
    = (Ok (Generators.join_numbers (Some <$> ds) +:+ Generators.str k), Chance.draw c)
    ∧ length ds = 8%nat
    ∧ Forall (fun d => 0 <= d <= 9) (ds ++ [k])
    ∧ Generators.weighted_sum [8; 9; 2; 3; 4; 5; 6; 7] (Some <$> ds) = Some sum
    ∧ k = sum mod 11 mod 10
    ∧ Chance.all_digits (Generators.join_numbers (Some <$> ds) +:+ Generators.str k)
    ∧ String.length (Generators.join_numbers (Some <$> ds) +:+ Generators.str k) = 9%nat.
Proof.
  unfold Generators.pl_regon.
  destruct (natural_range_run c 1 99999999) as (number & Hrun & Hr); [lia|].
  rewrite bind_run, Hrun. clear Hrun.
  destruct (padded_digits_run number 8) as (ds & Hds & Hl & HF & Hall & Hlen); [lia|lia|].
  rewrite Hds. clear Hds. change (Z.to_nat 8) with 8%nat in *.
  pose proof HF as HF'.
  list_of_length ds Hl HF'.
  cbn [fmap list_fmap Generators.weighted_sum option_fmap option_map].
  set (s := 8 * d + (9 * d0 + (2 * d1 + (3 * d2 + (4 * d3 + (5 * d4 + (6 * d5
             + (7 * d6 + 0)))))))).
  assert (Hs : 0 <= s) by (unfold s; lia).
  pose proof (Z.rem_mod_nonneg s 11 Hs ltac:(lia)) as Hrem.
  pose proof (Z.mod_pos_bound s 11 ltac:(lia)) as Hb.
  set (k := if bool_decide (Z.rem s 11 = 10) then 0 else Z.rem s 11).
  assert (Hk : 0 <= k <= 9 ∧ k = s mod 11 mod 10).
  { unfold k. rewrite Hrem. case_bool_decide as Hz.
    - rewrite Hz. split; [lia|reflexivity].
    - split; [lia|]. symmetry. apply Z.mod_small. lia. }
  destruct Hk as [Hk Hsum].
  destruct (str_digit k Hk) as (ch & Hch & Hdig).
  exists [d; d0; d1; d2; d3; d4; d5; d6], k, s.
  split; [reflexivity|]. split; [reflexivity|].
  split; [apply Forall_app; split; [exact HF|repeat constructor; lia]|].
  split; [reflexivity|].
  split; [exact Hsum|].
  split.
  - apply all_digits_app; [exact Hall|]. rewrite Hch. unfold Chance.all_digits. cbn.
    rewrite Hdig. reflexivity.
  - rewrite string_length_app, Hlen, Hch. reflexivity.
Qed.

(** X29.  [it_vat] over a table of provinces that is not empty and
    whose codes are of 0..999 returns 11 digits: seven for a number of
    1..1800000, three for the code of a province of the table, both
    padded with zeros, and the digit [luhn_calculate] gives for these
    ten; [luhn_check] accepts the result.  Two draws are made. *)
Theorem it_vat_luhn (provinces : list Generators.province_entry) (c : Chance.chance) :
  provinces ≠ [] →
  Forall (fun p => 0 <= Generators.code p <= 999) provinces →
  ∃ (number : Z) (province : Generators.province_entry) (vat : string),
    Generators.it_vat provinces c = (Ok vat, Chance.draws 2 c)
    ∧ 1 <= number <= 1800000
    ∧ province ∈ provinces
    ∧ (let payload := Generators.pad (Generators.str number) 7 None
                      +:+ Generators.pad (Generators.str (Generators.code province)) 3 None in
       vat = payload +:+ Chance.toString (Chance.luhn_calculate payload)
       ∧ String.length payload = 10%nat)
    ∧ Chance.all_digits vat
    ∧ String.length vat = 11%nat
    ∧ Chance.luhn_check vat = true.
Proof.
  intros Hne Hcodes. unfold Generators.it_vat.
  destruct (natural_range_run c 1 1800000) as (number & Hrun & Hr); [lia|].
  rewrite bind_run, Hrun. clear Hrun.
  assert (Hne' : Some <$> provinces ≠ []) by (destruct provinces; [congruence|discriminate]).
  destruct (max_index_run None (Some <$> provinces) (Chance.draw c) Hne') as (i & Hi & Hx).
  rewrite bind_run. unfold Chance.pick.
  rewrite bool_decide_eq_false_2 by (destruct provinces; [congruence|discriminate]).
  rewrite bind_run, Hi. cbv beta iota.
  rewrite list_lookup_fmap in Hx.
  destruct (provinces !! Z.to_nat i) as [province|] eqn:E; [|discriminate Hx].
  injection Hx as Hx. rewrite <- Hx.
  assert (Hin : province ∈ provinces) by (eapply list_elem_of_lookup_2, E).
  pose proof (proj1 (Forall_forall _ _) Hcodes province Hin) as Hcode. cbv beta in Hcode.
  destruct (pad_digits number 7) as [Hd1 Hl1]; [lia|lia|].
  destruct (pad_digits (Generators.code province) 3) as [Hd2 Hl2]; [lia|lia|].
  set (payload := Generators.pad (Generators.str number) 7 None
                  +:+ Generators.pad (Generators.str (Generators.code province)) 3 None).
  assert (Hp : Chance.all_digits payload) by (apply all_digits_app; assumption).
  assert (Hpl : String.length payload = 10%nat).
  { unfold payload. rewrite string_length_app, Hl1, Hl2. reflexivity. }
  destruct (luhn_calculate_digit payload Hp) as (k & Hk & Hkr).
  destruct (str_digit k Hkr) as (ch & Hch & Hdig).
  exists number, province, (payload +:+ Chance.toString (Chance.luhn_calculate payload)).
  split; [reflexivity|]. split; [lia|]. split; [exact Hin|].
  split; [split; [reflexivity|exact Hpl]|].
  split; [|split].
  - apply all_digits_app; [exact Hp|]. rewrite Hk. fold (Generators.str k). rewrite Hch.
    unfold Chance.all_digits. cbn. rewrite Hdig. reflexivity.
  - rewrite string_length_app, Hpl, Hk. fold (Generators.str k). rewrite Hch. reflexivity.
  - apply luhn_check_payload, Hp.
Qed.

Lemma it_vat_luhn_witness :
  ∃ (number : Z) (province : Generators.province_entry) (vat : string),
    Generators.it_vat Generators.provinces_it (Chance.new 0 [Chance.SeedNumber 42])
    = (Ok vat, Chance.draws 2 (Chance.new 0 [Chance.SeedNumber 42]))
    ∧ 1 <= number <= 1800000
    ∧ province ∈ Generators.provinces_it
    ∧ (let payload := Generators.pad (Generators.str number) 7 None
                      +:+ Generators.pad (Generators.str (Generators.code province)) 3 None in
       vat = payload +:+ Chance.toString (Chance.luhn_calculate payload)
       ∧ String.length payload = 10%nat)
    ∧ Chance.all_digits vat
    ∧ String.length vat = 11%nat
    ∧ Chance.luhn_check vat = true.
Proof.
  apply (it_vat_luhn Generators.provinces_it (Chance.new 0 [Chance.SeedNumber 42])).
  - discriminate.
  - apply Forall_forall. intros p Hp.
    apply (proj1 (Forall_forall (fun p => (Generators.code p <? 1000) = true
                                          ∧ (0 <=? Generators.code p) = true) _)) in Hp.
    + destruct Hp as [H1 H2]. apply Z.ltb_lt in H1. apply Z.leb_le in H2. lia.
    + unfold Generators.provinces_it. repeat (constructor; [split; reflexivity|]). constructor.
Defined.

(** ** [set] and [get] *)



(** ** [cc] and the Luhn test *)

Lemma luhn_sum_nonneg (from_right : list Z) :
  Forall (fun d => 0 <= d <= 9) from_right → ∀ double, 0 <= Chance.luhn_sum double from_right.
Proof.
  induction 1 as [|d l Hd _ IH]; intros double; cbn [Chance.luhn_sum]; [lia|].
  specialize (IH (negb double)).
  destruct double; [destruct (Z.ltb_spec 9 (2 * d))|]; lia.
Qed.

Lemma digit_of_value (ch : ascii) :
  Chance.is_digit ch = true →
  Chance.digit_value ch = Some (digit_of ch) ∧ 0 <= digit_of ch <= 9.
Proof.
  intros Hc. destruct (is_digit_char ch Hc) as (k & Hk & Hv & _).
  unfold Chance.digit_value in *. rewrite Hc in *. unfold digit_of.
  injection Hv as Hv. split; [reflexivity|lia].
Qed.

(** The loop of [luhn_calculate] computes the sum of the
    specification. *)
Lemma luhn_loop_sum (l : list ascii) :
  forallb Chance.is_digit l = true →
  ∀ i s, Chance.luhn_loop l i (Some s)
         = Some (s + Chance.luhn_sum (Nat.even i) (digit_of <$> l)).
Proof.
  induction l as [|ch l IH]; intros Hl i s; cbn [Chance.luhn_loop fmap list_fmap Chance.luhn_sum].
  - f_equal. lia.
  - cbn [forallb] in Hl. apply andb_prop in Hl as [Hc Hl].
    destruct (digit_of_value ch Hc) as [Hv _]. rewrite Hv.
    assert (Hodd : Nat.even (S i) = negb (Nat.even i)).
    { rewrite Nat.even_succ, <- Nat.negb_even. reflexivity. }
    destruct (Nat.even i); cbn [fmap option_fmap option_map mbind option_bind negb] in *.
    + rewrite (Z.mul_comm (digit_of ch) 2).
      destruct (Z.ltb_spec 9 (2 * digit_of ch)); rewrite IH, Hodd by exact Hl; f_equal; lia.
    + rewrite IH, Hodd by exact Hl. f_equal. lia.
Qed.

Lemma digits_range (p : string) :
  Chance.all_digits p → Forall (fun d => 0 <= d <= 9) (digit_of <$> list_ascii_of_string p).
Proof.
  unfold Chance.all_digits. induction (list_ascii_of_string p) as [|ch l IH]; intros H.
  - constructor.
  - cbn [forallb] in H. apply andb_prop in H as [Hc Hl]. cbn [fmap list_fmap].
    constructor; [apply digit_of_value, Hc|apply IH, Hl].
Qed.

Lemma fmap_rev_list {B C} (f : B → C) (l : list B) : f <$> rev l = rev (f <$> l).
Proof.
  induction l as [|x l IH]; [reflexivity|].
  cbn [rev fmap list_fmap]. rewrite fmap_app, IH. reflexivity.
Qed.

(** [luhn_calculate] on a string of digits is the check digit of the
    specification. *)
Lemma luhn_calculate_spec (p : string) :
  Chance.all_digits p →
  Chance.luhn_calculate p = Some (Chance.luhn_digit (digit_of <$> list_ascii_of_string p)).
Proof.
  intros Hp. unfold Chance.luhn_calculate, Chance.luhn_digit.
  rewrite luhn_loop_sum by (rewrite forallb_rev; exact Hp).
  cbn [fmap option_fmap option_map Nat.even]. f_equal.
  rewrite Z.add_0_l, fmap_rev_list.
  apply Z.rem_mod_nonneg; [|lia].
  apply Z.mul_nonneg_nonneg; [|lia].
  apply luhn_sum_nonneg. apply Forall_rev, digits_range, Hp.
Qed.

(** A digit after a number passes the Luhn test exactly when it is
    the check digit. *)
Lemma luhn_valid_iff (digits : list Z) (d : Z) :
  Forall (fun d => 0 <= d <= 9) digits → 0 <= d <= 9 →
  Chance.luhn_valid (digits ++ [d]) ↔ d = Chance.luhn_digit digits.
Proof.
  intros Hds Hd. unfold Chance.luhn_valid, Chance.luhn_digit.
  rewrite rev_app_distr. cbn [rev app Chance.luhn_sum negb].
  pose proof (luhn_sum_nonneg (rev digits) (Forall_rev Hds) true) as Hs.
  generalize dependent (Chance.luhn_sum true (rev digits)). intros S HS.
  pose proof (Z.mod_pos_bound S 10 ltac:(lia)) as Hm.
  rewrite (Z.div_mod S 10) at 1 2 by lia.
  replace (d + (10 * (S / 10) + S mod 10)) with (d + S mod 10 + (S / 10) * 10) by lia.
  replace ((10 * (S / 10) + S mod 10) * 9) with (S mod 10 * 9 + (S / 10 * 9) * 10) by lia.
  rewrite !Z.mod_add by lia.
  generalize dependent (S mod 10). intros m Hm.
  assert (m = 0 ∨ m = 1 ∨ m = 2 ∨ m = 3 ∨ m = 4 ∨ m = 5 ∨ m = 6 ∨ m = 7 ∨ m = 8 ∨ m = 9)
    as Hcases by lia.
  assert (d = 0 ∨ d = 1 ∨ d = 2 ∨ d = 3 ∨ d = 4 ∨ d = 5 ∨ d = 6 ∨ d = 7 ∨ d = 8 ∨ d = 9)
    as Hdc by lia.
  repeat (destruct Hcases as [->|Hcases]); try subst m;
    repeat (destruct Hdc as [->|Hdc]); try subst d;
    (split; intros E; vm_compute in E |- *; congruence).
Qed.

(** [luhn_check] on a string of digits followed by a digit. *)
Lemma luhn_check_digit (p : string) (d : Z) :
  Chance.all_digits p → 0 <= d <= 9 →
  Chance.luhn_check (p +:+ Chance.toString (Some d))
  = bool_decide (d = Chance.luhn_digit (digit_of <$> list_ascii_of_string p)).
Proof.
  intros Hp Hd.
  destruct (digit_toString d Hd) as (c & Hc & _ & HNc).
  destruct (Number_digits p Hp) as (u & Hu & _ & _ & Hts).
  rewrite Hc. unfold Chance.luhn_check, Chance.substring.
  rewrite string_length_app. cbn [String.length].
  replace (String.length p + 1 - 1)%nat with (String.length p) by lia.
  replace (String.length p + 1 - String.length p)%nat with 1%nat by lia.
  rewrite Nat.sub_0_r, substring_last, substring_prefix, HNc, Hts.
  rewrite luhn_calculate_unorm, Hu, (luhn_calculate_spec p Hp). reflexivity.
Qed.

Lemma str_digit_of (d : Z) :
  0 <= d <= 9 →
  ∃ ch, Chance.toString (Some d) = String ch "" ∧ Chance.is_digit ch = true ∧ digit_of ch = d.
Proof.
  intros Hd.
  assert (d = 0 ∨ d = 1 ∨ d = 2 ∨ d = 3 ∨ d = 4 ∨ d = 5 ∨ d = 6 ∨ d = 7 ∨ d = 8 ∨ d = 9)
    as Hcases by lia.
  repeat (destruct Hcases as [->|Hcases]); try subst d;
    (eexists; split; [vm_compute; reflexivity|split; vm_compute; reflexivity]).
Qed.

(** The digits [cc] generates, joined, read back as they are. *)
Lemma digits_of_join (filler : list Z) :
  Forall (fun d => 0 <= d <= 9) filler →
  digit_of <$> list_ascii_of_string (Chance.join ((fun d => Chance.PNum (Some d)) <$> filler))
  = filler.
Proof.
  induction 1 as [|d filler Hd _ IH]; [reflexivity|].
  destruct (str_digit_of d Hd) as (ch & Hch & _ & Hv).
  unfold Chance.join in *. cbn [fmap list_fmap] in *. rewrite concat_cons, Hch.
  change (String ch "" +:+ ?s) with (String ch s).
  cbn [list_ascii_of_string fmap list_fmap]. rewrite Hv. f_equal. exact IH.
Qed.

(** The entry [cc_type] hands to [cc]: the first one of the name asked
    for, found without a draw, or one picked with a draw. *)
Lemma cc_type_raw_entry (types : list Chance.cc_type_entry) (name_ : option string)
      (c : Chance.chance) :
  (∃ t, Chance.cc_type_raw types name_ c
        = (Ok (Some t), if Chance.truthy_string name_ then c else Chance.draw c)
        ∧ In t types
        ∧ (Chance.truthy_string name_ = true →
           Chance.name t = default "" name_ ∨ Chance.short_name t = default "" name_))
  ∨ ((∃ e c', Chance.cc_type_raw types name_ c = (Throw e, c'))
     ∧ (Chance.truthy_string name_ = false → types = [])).
Proof.
  unfold Chance.cc_type_raw. destruct (Chance.truthy_string name_).
  - destruct (find _ types) as [t|] eqn:E.
    + left. exists t. split; [reflexivity|]. apply find_some in E. destruct E as [Hin Hm].
      split; [exact Hin|]. intros _. apply bool_decide_eq_true_1 in Hm. exact Hm.
    + right. split; [eexists _, _; reflexivity|discriminate].
  - unfold Chance.pick. run_monad. case_bool_decide as Hlen.
    + right. split; [eexists _, _; reflexivity|]. intros _.
      rewrite length_fmap in Hlen. apply nil_length_inv, Hlen.
    + left. unfold Chance.max_index.
      destruct (natural_max_run c (Z.of_nat (length (Some <$> types)) - 1))
        as (i & Hi & Hrange); [lia|].
      rewrite Hi.
      assert (Hin : 0 <= i < Z.of_nat (length (Some <$> types))) by lia.
      pose proof (index_lookup None (Some <$> types) i Hin) as Hx.
      rewrite list_lookup_fmap in Hx.
      destruct (types !! Z.to_nat i) as [t|] eqn:Ht; [|discriminate].
      cbn in Hx. injection Hx as Hx. rewrite <- Hx.
      exists t. split; [reflexivity|]. split; [|discriminate].
      apply list_elem_of_In. eapply list_elem_of_lookup_2, Ht.
Qed.

(** What [cc] builds for an entry: the prefix, the filler digits, one
    draw each, and the digit [luhn_calculate] gives for the two. *)
Lemma cc_filler (t : Chance.cc_type_entry) (c : Chance.chance) :
  Chance.cc_entry_ok t = true →
  ∃ filler,
    let payload := Chance.prefix t +:+ Chance.join ((fun d => Chance.PNum (Some d)) <$> filler) in
    (digits ← Chance.n (Chance.integer (Chance.mkRange (Some 0%Q) (Some 9%Q)))
                (Some (Chance.length t - Z.of_nat (String.length (Chance.prefix t)) - 1));
     let number := Chance.split_chars (Chance.prefix t)
                   ++ ((fun d => Chance.PNum (Some d)) <$> digits) in
     let number := number ++ [Chance.PNum (Chance.luhn_calculate (Chance.join number))] in
     mret (Chance.join number)) c
    = (Ok (payload +:+ Chance.toString (Chance.luhn_calculate payload)),
       Chance.draws (length filler) c)
    ∧ Forall (fun d => 0 <= d <= 9) filler
    ∧ Z.of_nat (length filler)
      = Chance.length t - Z.of_nat (String.length (Chance.prefix t)) - 1
    ∧ Chance.all_digits payload
    ∧ Z.of_nat (String.length payload) = Chance.length t - 1.
Proof.
  unfold Chance.cc_entry_ok. intros Hok.
  apply andb_prop in Hok as [Hok Hmax]. apply andb_prop in Hok as [Hpre Hlt].
  apply Z.ltb_lt in Hlt. apply Z.leb_le in Hmax.
  unfold Chance.n. cbn [default from_option id].
  set (count := Z.to_nat _).
  destruct (n_loop_run (Chance.integer (Chance.mkRange (Some 0%Q) (Some 9%Q)))
              (fun d => 0 <= d <= 9) integer_digit_run count [] c)
    as (digits & Hrun & Hlen & Hdigits).
  destruct (join_digits digits Hdigits) as [Hall Hjl].
  exists digits. cbv zeta. run_monad. rewrite Hrun. cbn [app].
  rewrite !join_app, join_split_chars, Hlen.
  split; [reflexivity|]. split; [exact Hdigits|].
  split; [unfold count in Hlen; lia|]. split.
  - apply all_digits_app; [exact Hpre|exact Hall].
  - rewrite string_length_app, Hjl, Hlen. unfold count. lia.
Qed.

(** C5.  For a table whose prefixes are digits and whose lengths are at
    most 16 (as in the table of the source), every number string that
    [cc] returns is, for an entry of the table (one of the name asked
    for when a type is given), the prefix of the entry followed by
    filler digits, one draw each, up to the length of the entry less
    one, and by the check digit of the specification on these digits:
    every second digit from the right doubled, 9 taken off a doubled
    digit above 9, the sum times 9 modulo 10.  That digit is what
    [luhn_calculate] returns on the prefix and filler; the number passes
    the Luhn test and [luhn_check] returns true on it, while with any
    other last digit the test fails and [luhn_check] returns false.  The
    prefix and filler denote a number below 2^53, which the conversion
    in [luhn_check] keeps exact.  Without a type, [cc] does return a
    number string. *)
Theorem cc_luhn_check (types : list Chance.cc_type_entry) (options : Chance.cc_options)
        (c : Chance.chance) :
  forallb Chance.cc_entry_ok types = true →
  (∀ s c', Chance.cc types options c = (Ok s, c') →
     ∃ t filler,
       In t types
       ∧ (Chance.truthy_string (Chance.type options) = true →
          Chance.name t = default "" (Chance.type options)
          ∨ Chance.short_name t = default "" (Chance.type options))
       ∧ Forall (fun d => 0 <= d <= 9) filler
       ∧ Z.of_nat (length filler)
         = Chance.length t - Z.of_nat (String.length (Chance.prefix t)) - 1
       ∧ c' = Chance.draws (length filler)
                (if Chance.truthy_string (Chance.type options) then c else Chance.draw c)
       ∧ let payload :=
           Chance.prefix t +:+ Chance.join ((fun d => Chance.PNum (Some d)) <$> filler) in
         let digits := (digit_of <$> list_ascii_of_string (Chance.prefix t)) ++ filler in
         let check := Chance.luhn_digit digits in
         s = payload +:+ Chance.toString (Some check)
         ∧ digit_of <$> list_ascii_of_string payload = digits
         ∧ Z.of_nat (String.length s) = Chance.length t
         ∧ 0 <= check <= 9
         ∧ Chance.luhn_calculate payload = Some check
         ∧ Chance.luhn_valid (digits ++ [check])
         ∧ Chance.luhn_check s = true
         ∧ (∀ d, 0 <= d <= 9 → d ≠ check →
              Chance.luhn_check (payload +:+ Chance.toString (Some d)) = false
              ∧ ¬ Chance.luhn_valid (digits ++ [d]))
         ∧ ∃ v, Chance.Number payload = Some v ∧ 0 <= v < 2 ^ 53)
  ∧ (Chance.type options = None → types ≠ [] →
     ∃ s c', Chance.cc types options c = (Ok s, c')).
Proof.
  intros Hok.
  assert (Hentry : ∀ t, In t types → Chance.cc_entry_ok t = true).
  { intros t Ht. rewrite forallb_forall in Hok. apply Hok, Ht. }
  unfold Chance.cc.
  rewrite (bind_run (Chance.cc_type_raw types (Chance.type options))).
  destruct (cc_type_raw_entry types (Chance.type options) c)
    as [(t & Ht & Hin & Hname)|[(e & c1 & Hthrow) Hempty]].
  - rewrite Ht. cbv beta iota zeta.
    set (c1 := if Chance.truthy_string (Chance.type options) then c else Chance.draw c).
    destruct (cc_filler t c1 (Hentry t Hin)) as (filler & Hrun & Hfill & Hcount & Hall & Hlen).
    cbv beta zeta in Hrun. rewrite Hrun. clear Hrun.
    set (payload := Chance.prefix t
                    +:+ Chance.join ((fun d => Chance.PNum (Some d)) <$> filler)) in *.
    assert (Hdigits : digit_of <$> list_ascii_of_string payload
                      = (digit_of <$> list_ascii_of_string (Chance.prefix t)) ++ filler).
    { unfold payload. rewrite list_ascii_app, fmap_app, digits_of_join by exact Hfill.
      reflexivity. }
    pose proof (luhn_calculate_spec payload Hall) as Hcalc. rewrite Hdigits in Hcalc.
    pose proof (digits_range payload Hall) as Hrange. rewrite Hdigits in Hrange.
    set (digits := (digit_of <$> list_ascii_of_string (Chance.prefix t)) ++ filler) in *.
    assert (Hcheck : 0 <= Chance.luhn_digit digits <= 9).
    { unfold Chance.luhn_digit. pose proof (Z.mod_pos_bound (Chance.luhn_sum true (rev digits) * 9) 10).
      lia. }
    split.
    + intros s c' E. pose proof (f_equal fst E) as E1. pose proof (f_equal snd E) as E2.
      clear E. cbn [fst snd] in E1, E2. apply Ok_inj in E1. subst s c'.
      exists t, filler. split; [exact Hin|]. split; [exact Hname|].
      split; [exact Hfill|]. split; [exact Hcount|]. split; [reflexivity|].
      cbv zeta. fold payload. fold digits. rewrite Hcalc.
      destruct (str_digit_of _ Hcheck) as (ch & Hch & _ & _).
      split; [reflexivity|]. split; [exact Hdigits|].
      split; [rewrite string_length_app, Hch; cbn [String.length]; lia|].
      split; [exact Hcheck|]. split; [reflexivity|].
      split; [apply luhn_valid_iff; [exact Hrange|exact Hcheck|reflexivity]|].
      split.
      { rewrite luhn_check_digit, Hdigits by assumption.
        apply bool_decide_eq_true_2. reflexivity. }
      split.
      { intros d Hd Hne. split.
        - rewrite luhn_check_digit, Hdigits by assumption.
          apply bool_decide_eq_false_2. exact Hne.
        - intros Hv. apply Hne. apply luhn_valid_iff in Hv; assumption. }
      destruct (Number_digits payload Hall) as (u & _ & HN & Hbound & _).
      exists (Z.of_N (N.of_uint u)). split; [exact HN|]. split; [lia|].
      eapply Z.lt_le_trans; [apply Hbound|].
      transitivity (10 ^ 15); [apply Z.pow_le_mono_r; [lia|]|lia].
      assert (Chance.cc_entry_ok t = true) as Hokt by (apply Hentry, Hin).
      unfold Chance.cc_entry_ok in Hokt. apply andb_prop in Hokt as [_ Hmax].
      apply Z.leb_le in Hmax. lia.
    + intros _ _. eexists _, _. reflexivity.
  - rewrite Hthrow. cbv beta iota. split.
    + intros s c' E. apply (f_equal fst) in E. cbn [fst] in E. discriminate E.
    + intros Hnone Hne. exfalso. apply Hne, Hempty. rewrite Hnone. reflexivity.
Qed.

Lemma cc_luhn_check_witness :
  let c := Chance.new 0 [Chance.SeedNumber 42] in
  let options := Chance.mkCcOpts None in
  (∀ s c', Chance.cc Chance.cc_types_table options c = (Ok s, c') →
     ∃ t filler,
       In t Chance.cc_types_table
       ∧ (Chance.truthy_string (Chance.type options) = true →
          Chance.name t = default "" (Chance.type options)
          ∨ Chance.short_name t = default "" (Chance.type options))
       ∧ Forall (fun d => 0 <= d <= 9) filler
       ∧ Z.of_nat (length filler)
         = Chance.length t - Z.of_nat (String.length (Chance.prefix t)) - 1
       ∧ c' = Chance.draws (length filler)
                (if Chance.truthy_string (Chance.type options) then c else Chance.draw c)
       ∧ let payload :=
           Chance.prefix t +:+ Chance.join ((fun d => Chance.PNum (Some d)) <$> filler) in
         let digits := (digit_of <$> list_ascii_of_string (Chance.prefix t)) ++ filler in
         let check := Chance.luhn_digit digits in
         s = payload +:+ Chance.toString (Some check)
         ∧ digit_of <$> list_ascii_of_string payload = digits
         ∧ Z.of_nat (String.length s) = Chance.length t
         ∧ 0 <= check <= 9
         ∧ Chance.luhn_calculate payload = Some check
         ∧ Chance.luhn_valid (digits ++ [check])
         ∧ Chance.luhn_check s = true
         ∧ (∀ d, 0 <= d <= 9 → d ≠ check →
              Chance.luhn_check (payload +:+ Chance.toString (Some d)) = false
              ∧ ¬ Chance.luhn_valid (digits ++ [d]))
         ∧ ∃ v, Chance.Number payload = Some v ∧ 0 <= v < 2 ^ 53)
  ∧ ∃ s c', Chance.cc Chance.cc_types_table options c = (Ok s, c').
Proof.
  intros c options.
  pose proof (cc_luhn_check Chance.cc_types_table options c ltac:(reflexivity)) as [H1 H2].
  split; [exact H1|]. apply H2; [reflexivity|discriminate].
Defined.

(** The check digit of the specification on the test number, and the
    test it passes. *)
Example luhn_digit_visa_vector :
  Chance.luhn_digit [4; 1; 1; 1; 1; 1; 1; 1; 1; 1; 1; 1; 1; 1; 1] = 1
  ∧ Chance.luhn_sum false (rev [4; 1; 1; 1; 1; 1; 1; 1; 1; 1; 1; 1; 1; 1; 1; 1]) = 30.
Proof. vm_compute. auto. Qed.
